(** * AnKi 3D engine: the memory pools and the thread hive

    A shallow embedding of
    - [StackMemoryPool], [HeapMemoryPool] and [ChainMemoryPool]
      (src/util/Memory.cpp),
    - [StackAllocator] (include/anki/util/Allocator.h),
    - [ThreadHiveSemaphore], [ThreadHiveTask] and the inline members of
      [ThreadHive] (src/anki/util/ThreadHive.h),
    together with a model of the scheduler operations whose bodies live
    in ThreadHive.cpp.

    Conventions.  A [U32] is a [Z] in [0, 2^32) and every arithmetic
    operation on it is followed by [wrap32]; a [PtrSize] is a [Z] in
    [0, 2^64) and its arithmetic is followed by [wrapPtr].  Pointers are
    [Z] addresses, [0] is [nullptr], and pointer arithmetic, which is
    undefined when it leaves the address space, is plain addition.
    [ANKI_ASSERT] is taken in its checking form: a failed assertion ends
    the call with [AssertFailed]; the fills of that build ([memset] with
    [0xCC]) are part of the calls.  A C++ exception ends the call with
    [Thrown]; the state it leaves behind is not kept. *)

From Stdlib Require Import ZArith Lia List Bool.
From stdpp Require Import base option list gmap.

Open Scope Z_scope.

(** ** Machine integers *)

Definition MAX_U32 : Z := 4294967295.

Definition wrap32 (z : Z) : Z := z mod 4294967296.

Definition isU32 (z : Z) : Prop := 0 <= z <= MAX_U32.

(** [PtrSize] has 64 bits. *)
Definition MAX_PTR_SIZE : Z := 18446744073709551615.

Definition wrapPtr (z : Z) : Z := z mod 18446744073709551616.

(** ** Results of fallible calls *)

Inductive Result (A : Type) : Type :=
| Ok (a : A)
| AssertFailed
| Thrown.

Arguments Ok {A} a.
Arguments AssertFailed {A}.
Arguments Thrown {A}.

#[global] Instance Result_ret : MRet Result := fun A a => Ok a.

#[global] Instance Result_bind : MBind Result := fun A B k r =>
  match r with
  | Ok a => k a
  | AssertFailed => AssertFailed
  | Thrown => Thrown
  end.

Definition ANKI_ASSERT (cond : bool) : Result unit :=
  if cond then Ok tt else AssertFailed.

(** ** Alignment helpers *)

(** Modelled from the spec: anki/util/Functions.h, which declares
    [getAlignedRoundUp] and [isAligned], is not among the sources.  The
    first rounds its value up to the next multiple of the alignment, the
    second tests that an address is such a multiple. *)
Definition getAlignedRoundUp (alignment value : Z) : Z :=
  ((value + alignment - 1) / alignment) * alignment.

(** Modelled from the spec: [isAligned] of the same header; the address
    is a multiple of the alignment. *)
Definition isAligned (alignment ptr : Z) : bool :=
  ptr mod alignment =? 0.

(** ** Raw memory

    The pool writes the size of a block into its header with [memcpy] and
    reads it back the same way; the header is four [U8]. *)

Definition Memory : Type := Z -> Z.

Definition storeU8 (m : Memory) (addr v : Z) : Memory :=
  fun a => if a =? addr then v else m a.

Definition memcpy_from_U32 (m : Memory) (dst : Z) (v : Z) : Memory :=
  let m0 := storeU8 m dst (v mod 256) in
  let m1 := storeU8 m0 (dst + 1) ((v / 256) mod 256) in
  let m2 := storeU8 m1 (dst + 2) ((v / 65536) mod 256) in
  storeU8 m2 (dst + 3) ((v / 16777216) mod 256).

Definition memcpy_to_U32 (m : Memory) (src : Z) : Z :=
  m src + 256 * m (src + 1) + 65536 * m (src + 2) + 16777216 * m (src + 3).

Definition sizeof_U32 : Z := 4.

Definition memset (m : Memory) (dst v n : Z) : Memory :=
  fun a => if (dst <=? a) && (a <? dst + n) then v else m a.

(** The byte the checking build fills fresh and released memory with
    ([0xCC]). *)
Definition INVALID_BYTE : Z := 204.

(** ** StackMemoryPool::Implementation *)

Module Stack.

(** The members that [allocate], [free] and [reset] use; the reference
    count and the user callback are left out.  [m_bytes] is what the
    memory of the pool holds. *)
Record Implementation : Type := mkImpl {
  m_alignmentBytes : Z;
  m_headerSize : Z;
  m_memory : Z;
  m_memsize : Z;
  m_top : Z;
  m_allocationsCount : Z;
  m_bytes : Memory
}.

Definition sizeof_MemoryBlockHeader : Z := sizeof_U32.

Inductive ErrorCode : Type := NONE | OUT_OF_MEMORY.

(** [create]: [chunk] is what the user allocation callback returns for
    the pool's memory ([0] when it fails) and [bytes] is what that
    memory holds.  The sizes are stored in [PtrSize] members.  When the
    callback fails the top and the header size are left unset; they are
    0 here. *)
Definition create (chunk : Z) (bytes : Memory) (size alignmentBytes : Z)
  : Result (ErrorCode * Implementation) :=
  ANKI_ASSERT (0 <? size) ;;
  ANKI_ASSERT (0 <? alignmentBytes) ;;
  let memsize := wrapPtr (getAlignedRoundUp alignmentBytes size) in
  if chunk =? 0 then
    Ok (OUT_OF_MEMORY,
        mkImpl alignmentBytes 0 chunk memsize 0 0 bytes)
  else
    let bytes := memset bytes chunk INVALID_BYTE memsize in
    Ok (NONE,
        mkImpl alignmentBytes
               (wrapPtr
                  (getAlignedRoundUp alignmentBytes sizeof_MemoryBlockHeader))
               chunk memsize chunk 0 bytes).

Definition getAllocatedSize (p : Implementation) : Result Z :=
  ANKI_ASSERT (negb (m_memory p =? 0)) ;;
  Ok (m_top p - m_memory p).

(** [allocate]: the sum and its round-up are [PtrSize] values.  The
    top is advanced by [fetch_add] before the bound is tested, so it
    moves also when the block does not fit.  The checking build fills
    the block before it writes the header. *)
Definition allocate (p : Implementation) (size alignment : Z)
  : Result (Z * Implementation) :=
  ANKI_ASSERT (negb (m_memory p =? 0)) ;;
  ANKI_ASSERT (alignment <=? m_alignmentBytes p) ;;
  let size :=
    wrapPtr (getAlignedRoundUp (m_alignmentBytes p)
                               (wrapPtr (size + m_headerSize p))) in
  ANKI_ASSERT (size <? MAX_U32) ;;
  let out := m_top p in
  let top' := m_top p + size in
  if out + size <=? m_memory p + m_memsize p then
    let bytes := memset (m_bytes p) out INVALID_BYTE size in
    let size32 := wrap32 size in
    let bytes' := memcpy_from_U32 bytes out size32 in
    let out := out + m_headerSize p in
    ANKI_ASSERT (isAligned (m_alignmentBytes p) out) ;;
    Ok (out,
        mkImpl (m_alignmentBytes p) (m_headerSize p) (m_memory p) (m_memsize p)
               top' (wrap32 (m_allocationsCount p + 1)) bytes')
  else
    Ok (0,
        mkImpl (m_alignmentBytes p) (m_headerSize p) (m_memory p) (m_memsize p)
               top' (m_allocationsCount p) (m_bytes p)).

(** The bytes a request takes from the stack, header and padding
    included, and whether they are left below the end of the memory. *)
Definition rounded (p : Implementation) (size : Z) : Z :=
  wrapPtr (getAlignedRoundUp (m_alignmentBytes p)
                             (wrapPtr (size + m_headerSize p))).

(** The same without the wrap-around of [PtrSize]: what the request
    needs. *)
Definition needed (p : Implementation) (size : Z) : Z :=
  getAlignedRoundUp (m_alignmentBytes p) (size + m_headerSize p).

(** A request whose size, header and padding included, is a [PtrSize]:
    neither the sum nor the round-up wraps around. *)
Definition no_wrap (p : Implementation) (size : Z) : Prop :=
  0 <= size /\
  getAlignedRoundUp (m_alignmentBytes p) (size + m_headerSize p)
    <= MAX_PTR_SIZE.

Definition fits (p : Implementation) (size : Z) : Prop :=
  m_top p + rounded p size <= m_memory p + m_memsize p.

(** [free]: the compare-exchange on the top succeeds when the block of
    [ptr] ends at the top. *)
Definition free (p : Implementation) (ptr : Z) : Result (bool * Implementation) :=
  ANKI_ASSERT (negb (ptr =? 0) && isAligned (m_alignmentBytes p) ptr) ;;
  ANKI_ASSERT (negb (m_memory p =? 0)) ;;
  let realptr := ptr - m_headerSize p in
  ANKI_ASSERT (m_memory p <=? realptr) ;;
  let size := memcpy_to_U32 (m_bytes p) realptr in
  ANKI_ASSERT (realptr + size <=? m_memory p + m_memsize p) ;;
  let expected := realptr + size in
  let desired := realptr in
  let exchange := m_top p =? expected in
  let top' := if exchange then desired else m_top p in
  Ok (exchange,
      mkImpl (m_alignmentBytes p) (m_headerSize p) (m_memory p) (m_memsize p)
             top' (wrap32 (m_allocationsCount p - 1)) (m_bytes p)).

(** [reset]: the checking build fills the whole memory. *)
Definition reset (p : Implementation) : Result Implementation :=
  ANKI_ASSERT (negb (m_memory p =? 0)) ;;
  let bytes := memset (m_bytes p) (m_memory p) INVALID_BYTE (m_memsize p) in
  Ok (mkImpl (m_alignmentBytes p) (m_headerSize p) (m_memory p) (m_memsize p)
             (m_memory p) (m_allocationsCount p) bytes).

Definition getTotalSize (p : Implementation) : Z := m_memsize p.

Definition getBaseAddress (p : Implementation) : Result Z :=
  ANKI_ASSERT (negb (m_memory p =? 0)) ;;
  Ok (m_memory p).

(** Any number of [allocate] and [free] calls, with whatever arguments,
    that return; no [reset] among them. *)
Inductive calls : Implementation -> Implementation -> Prop :=
| calls_refl p : calls p p
| calls_allocate p q size alignment out q' :
    calls p q -> allocate q size alignment = Ok (out, q') -> calls p q'
| calls_free p q ptr exchange q' :
    calls p q -> free q ptr = Ok (exchange, q') -> calls p q'.

(** *** Blocks handed out by the pool

    The pool keeps no list of its blocks; to speak about "a pointer
    returned by [allocate] and not yet freed" the history of calls is
    recorded beside the pool: one [Block] per successful [allocate], the
    most recent first.  A block freed while it is the top of the stack is
    dropped from the record, a block freed out of order stays, marked as
    no longer live. *)

Record Block : Type := mkBlock {
  b_ptr : Z;
  b_size : Z;
  b_live : bool
}.

Definition b_start (p : Implementation) (b : Block) : Z :=
  b_ptr b - m_headerSize p.

Definition b_end (p : Implementation) (b : Block) : Z :=
  b_start p b + b_size b.

Definition kill (b : Block) : Block := mkBlock (b_ptr b) (b_size b) false.

Fixpoint retire (ptr : Z) (popped : bool) (bs : list Block) : list Block :=
  match bs with
  | [] => []
  | b :: bs' =>
      if b_ptr b =? ptr
      then (if popped then bs' else kill b :: bs')
      else b :: retire ptr popped bs'
  end.

Definition live (bs : list Block) (ptr : Z) : Prop :=
  exists b, In b bs /\ b_ptr b = ptr /\ b_live b = true.

(** The most recent allocation of the record that is still live. *)
Fixpoint most_recent (bs : list Block) : option Z :=
  match bs with
  | [] => None
  | b :: bs' => if b_live b then Some (b_ptr b) else most_recent bs'
  end.

(** The end of the block a pointer belongs to, as [free] computes it. *)
Definition block_end (p : Implementation) (ptr : Z) : Z :=
  let realptr := ptr - m_headerSize p in
  realptr + memcpy_to_U32 (m_bytes p) realptr.

Inductive Op : Type :=
| OpAllocate (size alignment : Z)
| OpFree (ptr : Z)
| OpReset.

Definition is_reset (op : Op) : bool :=
  match op with OpReset => true | _ => false end.

Definition Tracked : Type := Implementation * list Block.

(** One call and what it does to the record.  The requests are those
    that do not wrap around ([no_wrap]); nearer to 2^64 the size
    [allocate] computes is smaller than the request and can be zero. *)
Inductive op_step : Op -> Tracked -> Tracked -> Prop :=
| step_allocate_ok p bs size alignment out p' :
    no_wrap p size ->
    allocate p size alignment = Ok (out, p') ->
    out <> 0 ->
    op_step (OpAllocate size alignment) (p, bs)
            (p', mkBlock out (rounded p size) true :: bs)
| step_allocate_null p bs size alignment p' :
    no_wrap p size ->
    allocate p size alignment = Ok (0, p') ->
    op_step (OpAllocate size alignment) (p, bs) (p', bs)
| step_free p bs ptr exchange p' :
    live bs ptr ->
    free p ptr = Ok (exchange, p') ->
    op_step (OpFree ptr) (p, bs) (p', retire ptr exchange bs)
| step_reset p bs p' :
    reset p = Ok p' ->
    op_step OpReset (p, bs) (p', []).

(** Pools that [create] built, after any number of calls. *)
Inductive reachable : Tracked -> Prop :=
| reach_create chunk bytes size alignmentBytes p :
    chunk > 0 -> alignmentBytes <= MAX_U32 ->
    isAligned alignmentBytes chunk = true ->
    create chunk bytes size alignmentBytes = Ok (NONE, p) ->
    reachable (p, [])
| reach_step op t t' :
    reachable t -> op_step op t t' -> reachable t'.

(** Any number of calls, none of them [reset]. *)
Inductive no_reset_steps : Tracked -> Tracked -> Prop :=
| nrs_refl t : no_reset_steps t t
| nrs_step op t t' t'' :
    no_reset_steps t t' -> is_reset op = false -> op_step op t' t'' ->
    no_reset_steps t t''.

(** What holds of every reachable pool. *)
Definition pool_wf (p : Implementation) : Prop :=
  0 < m_alignmentBytes p /\
  0 < m_memory p /\
  m_headerSize p = getAlignedRoundUp (m_alignmentBytes p) sizeof_MemoryBlockHeader /\
  isAligned (m_alignmentBytes p) (m_memory p) = true /\
  isAligned (m_alignmentBytes p) (m_top p) = true /\
  m_memory p <= m_top p /\
  m_alignmentBytes p <= MAX_U32.

Fixpoint chain (p : Implementation) (limit : Z) (bs : list Block) : Prop :=
  match bs with
  | [] => True
  | b :: bs' => b_end p b <= limit /\ 0 < b_size b /\ chain p (b_start p b) bs'
  end.

Definition block_ok (p : Implementation) (b : Block) : Prop :=
  m_memory p <= b_start p b /\
  b_end p b <= m_memory p + m_memsize p /\
  m_headerSize p <= b_size b /\
  isAligned (m_alignmentBytes p) (b_ptr b) = true /\
  (b_live b = true -> memcpy_to_U32 (m_bytes p) (b_start p b) = b_size b).

Definition tracks (t : Tracked) : Prop :=
  pool_wf (fst t) /\ chain (fst t) (m_top (fst t)) (snd t) /\
  Forall (block_ok (fst t)) (snd t).

End Stack.

(** ** StackMemoryPool: the handle on the implementation *)

Record StackMemoryPool : Type := mkPool {
  m_impl : option Stack.Implementation
}.

Definition StackMemoryPool_allocate (pool : StackMemoryPool) (size alignment : Z)
  : Result (Z * StackMemoryPool) :=
  ANKI_ASSERT (bool_decide (is_Some (m_impl pool))) ;;
  match m_impl pool with
  | Some impl =>
      r ← Stack.allocate impl size alignment;
      (* a null result is logged ("Out of memory") and returned *)
      Ok (r.1, mkPool (Some r.2))
  | None => AssertFailed
  end.

Definition StackMemoryPool_free (pool : StackMemoryPool) (ptr : Z)
  : Result (bool * StackMemoryPool) :=
  ANKI_ASSERT (bool_decide (is_Some (m_impl pool))) ;;
  match m_impl pool with
  | Some impl =>
      r ← Stack.free impl ptr;
      Ok (r.1, mkPool (Some r.2))
  | None => AssertFailed
  end.

Definition StackMemoryPool_reset (pool : StackMemoryPool)
  : Result StackMemoryPool :=
  ANKI_ASSERT (bool_decide (is_Some (m_impl pool))) ;;
  match m_impl pool with
  | Some impl =>
      impl' ← Stack.reset impl;
      Ok (mkPool (Some impl'))
  | None => AssertFailed
  end.

Definition StackMemoryPool_getAllocatedSize (pool : StackMemoryPool) : Result Z :=
  ANKI_ASSERT (bool_decide (is_Some (m_impl pool))) ;;
  match m_impl pool with
  | Some impl => Stack.getAllocatedSize impl
  | None => AssertFailed
  end.

(** A snapshot is the top of the stack. *)
Definition StackMemoryPool_getShapshot (pool : StackMemoryPool) : Result Z :=
  ANKI_ASSERT (bool_decide (is_Some (m_impl pool))) ;;
  match m_impl pool with
  | Some impl => Ok (Stack.m_top impl)
  | None => AssertFailed
  end.

Definition StackMemoryPool_resetUsingSnapshot (pool : StackMemoryPool) (s : Z)
  : Result StackMemoryPool :=
  ANKI_ASSERT (bool_decide (is_Some (m_impl pool))) ;;
  match m_impl pool with
  | Some impl =>
      ANKI_ASSERT (Stack.m_memory impl <=? s) ;;
      ANKI_ASSERT (s <? Stack.m_memory impl + Stack.m_memsize impl) ;;
      Ok (mkPool (Some (Stack.mkImpl
            (Stack.m_alignmentBytes impl) (Stack.m_headerSize impl)
            (Stack.m_memory impl) (Stack.m_memsize impl)
            s (Stack.m_allocationsCount impl) (Stack.m_bytes impl))))
  | None => AssertFailed
  end.

(** ** Pool objects that share an implementation

    [operator=], [clear], [create] and [getUsersCount] of
    [StackMemoryPool]; [operator=] and [clear] of the heap pool and of
    the chain pool read the same.  The pool objects of a program are numbered: [w_handles]
    lists the [m_impl] pointer of each (0 when null).  [w_impls] holds
    the [m_refcount] of every implementation object that exists, by
    address; an implementation given back to the callback is no longer
    in it.  Reading the count of an implementation that no longer
    exists has no defined behaviour in C++; the model stops such a call
    like a failed assertion. *)

Module Shared.

Record World : Type := mkWorld {
  w_handles : list Z;
  w_impls : gmap Z Z
}.

Definition m_impl (w : World) (this : nat) : Z :=
  default 0 (w_handles w !! this).

Definition m_refcount (w : World) (impl : Z) : Result Z :=
  match w_impls w !! impl with
  | Some refcount => Ok refcount
  | None => AssertFailed
  end.

(** [create]: [mem] is what the callback returns for the implementation
    object and [chunk] what it returns for the memory of the stack. *)
Definition create (w : World) (this : nat) (mem chunk : Z)
  : Result (Stack.ErrorCode * World) :=
  ANKI_ASSERT (m_impl w this =? 0) ;;
  if negb (mem =? 0) then
    let w' := mkWorld (<[this := mem]> (w_handles w))
                      (<[mem := 1]> (w_impls w)) in
    Ok (if chunk =? 0 then Stack.OUT_OF_MEMORY else Stack.NONE, w')
  else Ok (Stack.OUT_OF_MEMORY, w).

Definition clear (w : World) (this : nat) : Result World :=
  if negb (m_impl w this =? 0) then
    old ← m_refcount w (m_impl w this);
    let refcount := wrap32 (old - 1) in
    let impls :=
      if refcount =? 0
      then delete (m_impl w this) (w_impls w)
      else <[m_impl w this := refcount]> (w_impls w) in
    Ok (mkWorld (<[this := 0]> (w_handles w)) impls)
  else Ok w.

(** [operator=]: [this] and [other] may be the same object. *)
Definition assign (w : World) (this other : nat) : Result World :=
  w ← clear w this;
  if negb (m_impl w other =? 0) then
    old ← m_refcount w (m_impl w other);
    Ok (mkWorld (<[this := m_impl w other]> (w_handles w))
                (<[m_impl w other := wrap32 (old + 1)]> (w_impls w)))
  else Ok w.

Definition getUsersCount (w : World) (this : nat) : Result Z :=
  ANKI_ASSERT (negb (m_impl w this =? 0)) ;;
  m_refcount w (m_impl w this).

(** The pool objects that point to an implementation. *)
Fixpoint users (impl : Z) (handles : list Z) : Z :=
  match handles with
  | [] => 0
  | h :: handles' => (if h =? impl then 1 else 0) + users impl handles'
  end.

(** Calls on pool objects that exist; [create] gets from the callback
    an address that holds no implementation yet. *)
Inductive step : World -> World -> Prop :=
| step_create w this mem chunk e w' :
    (this < length (w_handles w))%nat ->
    w_impls w !! mem = None ->
    create w this mem chunk = Ok (e, w') ->
    step w w'
| step_assign w this other w' :
    (this < length (w_handles w))%nat ->
    (other < length (w_handles w))%nat ->
    assign w this other = Ok w' ->
    step w w'
| step_clear w this w' :
    (this < length (w_handles w))%nat ->
    clear w this = Ok w' ->
    step w w'.

(** A program with [n] pool objects, all null at first. *)
Inductive reachable (n : nat) : World -> Prop :=
| reach_init : reachable n (mkWorld (replicate n 0) ∅)
| reach_step w w' : reachable n w -> step w w' -> reachable n w'.

(** The count of every implementation is the number of pool objects
    that point to it, and an implementation exists as long as that
    number is not zero. *)
Definition wf (n : nat) (w : World) : Prop :=
  length (w_handles w) = n /\
  Z.of_nat n <= MAX_U32 /\
  w_impls w !! 0 = None /\
  forall impl, impl <> 0 ->
    match w_impls w !! impl with
    | Some refcount => refcount = users impl (w_handles w) /\ 0 < refcount
    | None => users impl (w_handles w) = 0
    end.

End Shared.

(** ** StackAllocator<T>

    [mpool] is the shared pointer to the pool.  [allocate] turns a null
    result of the pool into an exception.  The pool call of the
    allocator leaves the alignment argument to a default declared in
    Memory.h, which is not among the sources; it is an argument here. *)

Record StackAllocator : Type := mkAlloc {
  mpool : option StackMemoryPool
}.

Definition StackAllocator_allocate (a : StackAllocator)
    (n sizeof_value_type alignment : Z) : Result (Z * StackAllocator) :=
  ANKI_ASSERT (bool_decide (is_Some (mpool a))) ;;
  match mpool a with
  | Some pool =>
      let size := wrapPtr (n * sizeof_value_type) in
      r ← StackMemoryPool_allocate pool size alignment;
      if negb (r.1 =? 0)
      then Ok (r.1, mkAlloc (Some r.2))
      else Thrown
  | None => AssertFailed
  end.

(** [newArray<U>(n)] and [newInstance<U>()] rebind the allocator and call
    [allocate] before they construct anything. *)
Definition StackAllocator_newArray (a : StackAllocator)
    (n sizeof_U alignof_U : Z) : Result (Z * StackAllocator) :=
  StackAllocator_allocate a n sizeof_U alignof_U.

Definition StackAllocator_newInstance (a : StackAllocator)
    (sizeof_U alignof_U : Z) : Result (Z * StackAllocator) :=
  StackAllocator_allocate a 1 sizeof_U alignof_U.

Definition StackAllocator_reset (a : StackAllocator) : Result StackAllocator :=
  ANKI_ASSERT (bool_decide (is_Some (mpool a))) ;;
  match mpool a with
  | Some pool =>
      pool' ← StackMemoryPool_reset pool;
      Ok (mkAlloc (Some pool'))
  | None => AssertFailed
  end.

(** [deallocate]: the pool is asked to free only when the template
    argument [deallocationFlag] is set; a refusal of the pool becomes an
    exception. *)
Definition StackAllocator_deallocate (deallocationFlag : bool)
    (a : StackAllocator) (p n : Z) : Result StackAllocator :=
  ANKI_ASSERT (bool_decide (is_Some (mpool a))) ;;
  match mpool a with
  | Some pool =>
      if deallocationFlag then
        r ← StackMemoryPool_free pool p;
        if negb r.1 then Thrown else Ok (mkAlloc (Some r.2))
      else Ok a
  | None => AssertFailed
  end.

(** The implementation behind an allocator, when there is one. *)
Definition arena (a : StackAllocator) : option Stack.Implementation :=
  pool ← mpool a; m_impl pool.

(** ** HeapMemoryPool::Implementation

    The members are those of the build with signatures
    ([ANKI_MEM_SIGNATURES] is [ANKI_DEBUG], the build in which the
    assertions check).  The user callback is an argument of each call:
    the address it returns. *)

(** [memcmp] of four bytes of memory against the bytes of a [U32];
    [true] when [memcmp] answers 0. *)
Definition memcmp_U32_equal (m : Memory) (addr v : Z) : bool :=
  (m addr =? v mod 256) &&
  (m (addr + 1) =? (v / 256) mod 256) &&
  (m (addr + 2) =? (v / 65536) mod 256) &&
  (m (addr + 3) =? (v / 16777216) mod 256).

Module Heap.

Definition sizeof_Signature : Z := sizeof_U32.

Definition computeSignature (ptr : Z) : Result Z :=
  ANKI_ASSERT (negb (ptr =? 0)) ;;
  let sig64 := ptr in
  let sig := wrap32 sig64 in
  let sig := Z.lxor sig 1540483477 in
  let sig := Z.lxor sig (wrap32 (Z.shiftl sig 24)) in
  Ok sig.

Record Implementation : Type := mkImpl {
  m_allocationsCount : Z;
  m_signature : Z;
  m_headerSize : Z;
  m_bytes : Memory
}.

Definition MAX_ALIGNMENT : Z := 16.

(** [create]: [this] is the address of the implementation object. *)
Definition create (this : Z) (bytes : Memory) : Result Implementation :=
  sig ← computeSignature this;
  Ok (mkImpl 0 sig (wrap32 (getAlignedRoundUp MAX_ALIGNMENT sizeof_Signature))
             bytes).

(** What a call leaves behind: the pointer returned, whether a message
    went to the error log, and the pool. *)
Record Allocated : Type := mkAllocated {
  a_mem : Z;
  a_logged : bool;
  a_pool : Implementation
}.

(** [allocate]: [mem] is what the callback returns for
    [size + m_headerSize] bytes. *)
Definition allocate (p : Implementation) (mem : Z) (size alignment : Z)
  : Result Allocated :=
  ANKI_ASSERT (alignment <=? MAX_ALIGNMENT) ;;
  if negb (mem =? 0) then
    let count := wrap32 (m_allocationsCount p + 1) in
    let bytes := memset (m_bytes p) mem 0 (m_headerSize p) in
    let bytes := memcpy_from_U32 bytes mem (m_signature p) in
    let memU8 := mem + m_headerSize p in
    Ok (mkAllocated memU8 false
          (mkImpl count (m_signature p) (m_headerSize p) bytes))
  else
    Ok (mkAllocated mem true p).

(** What [free] leaves behind: its answer, whether "Signature
    missmatch on free" was logged, the address given back to the
    callback, and the pool. *)
Record Freed : Type := mkFreed {
  f_result : bool;
  f_logged : bool;
  f_released : Z;
  f_pool : Implementation
}.

Definition free (p : Implementation) (ptr : Z) : Freed :=
  let memU8 := ptr - m_headerSize p in
  let logged := negb (memcmp_U32_equal (m_bytes p) memU8 (m_signature p)) in
  let ptr := memU8 in
  let count := wrap32 (m_allocationsCount p - 1) in
  mkFreed true logged ptr
          (mkImpl count (m_signature p) (m_headerSize p) (m_bytes p)).

(** What [create] sets up and [allocate] and [free] keep. *)
Definition pool_wf (p : Implementation) : Prop :=
  (exists this, computeSignature this = Ok (m_signature p)) /\
  m_headerSize p = 16.

End Heap.

(** ** ChainMemoryPool::Implementation

    The chunks from [m_headChunk] to [m_tailChunk], linked by [m_next],
    are a list: the head is its first element and the tail its last. *)

Module Chain.

(** Declared in Memory.h, which is not among the sources; the three
    names are those Memory.cpp uses. *)
Inductive ChunkGrowMethod : Type := FIXED | ADD | MULTIPLY.

Record Chunk : Type := mkChunk {
  m_pool : Stack.Implementation;
  m_allocationsCount : Z
}.

Record Implementation : Type := mkImpl {
  m_alignmentBytes : Z;
  m_chunks : list Chunk;
  m_initSize : Z;
  m_maxSize : Z;
  m_step : Z;
  m_method : ChunkGrowMethod
}.

Definition with_chunks (p : Implementation) (chunks : list Chunk)
  : Implementation :=
  mkImpl (m_alignmentBytes p) chunks (m_initSize p) (m_maxSize p)
         (m_step p) (m_method p).

Definition m_tailChunk (p : Implementation) : option Chunk :=
  last (m_chunks p).

(** The constructor. *)
Definition construct (initialChunkSize maxChunkSize : Z)
    (chunkAllocStepMethod : ChunkGrowMethod) (chunkAllocStep alignmentBytes : Z)
  : Result Implementation :=
  let step := wrap32 chunkAllocStep in
  ANKI_ASSERT (0 <? initialChunkSize) ;;
  ANKI_ASSERT (match chunkAllocStepMethod with
               | FIXED => step =? 0
               | _ => true
               end) ;;
  ANKI_ASSERT (match chunkAllocStepMethod with
               | FIXED => initialChunkSize =? maxChunkSize
               | _ => true
               end) ;;
  ANKI_ASSERT (match chunkAllocStepMethod with
               | FIXED => true
               | _ => initialChunkSize <? maxChunkSize
               end) ;;
  Ok (mkImpl alignmentBytes [] initialChunkSize maxChunkSize step
             chunkAllocStepMethod).

(** The first part of [createNewChunk]: the preferred size of the next
    chunk. *)
Definition crntMaxSize (p : Implementation) : Result Z :=
  match m_method p with
  | FIXED => Ok (m_initSize p)
  | method =>
      let crnt :=
        match m_tailChunk p with
        | Some tail =>
            let crnt := Stack.getTotalSize (m_pool tail) in
            match method with
            | MULTIPLY => wrapPtr (crnt * m_step p)
            | _ => wrapPtr (crnt + m_step p)
            end
        | None => m_initSize p
        end in
      ANKI_ASSERT (0 <? crnt) ;;
      Ok (Z.min crnt (m_maxSize p))
  end.

(** What the user callback returns during one [allocate]: the address
    of the new [Chunk] object, the address of the memory of its pool
    (0 when the callback fails) and what that memory holds. *)
Record Callback : Type := mkCb {
  cb_chunk : Z;
  cb_memory : Z;
  cb_bytes : Memory
}.

(** [createNewChunk]: the chunk it returns is the new tail. *)
Definition createNewChunk (p : Implementation) (cb : Callback) (size : Z)
  : Result (option Chunk * Implementation) :=
  crnt ← crntMaxSize p;
  let size := wrapPtr (Z.max crnt size + 16) in
  if negb (cb_chunk cb =? 0) then
    r ← Stack.create (cb_memory cb) (cb_bytes cb) size (m_alignmentBytes p);
    match r.1 with
    | Stack.NONE =>
        let chunk := mkChunk r.2 0 in
        Ok (Some chunk, with_chunks p (m_chunks p ++ [chunk]))
    | Stack.OUT_OF_MEMORY => Ok (None, p)
    end
  else Ok (None, p).

Definition allocateFromChunk (p : Implementation) (ch : Chunk)
    (size alignment : Z) : Result (Z * Chunk) :=
  ANKI_ASSERT (size <=? m_maxSize p) ;;
  r ← Stack.allocate (m_pool ch) size alignment;
  if negb (r.1 =? 0)
  then Ok (r.1, mkChunk r.2 (wrap32 (m_allocationsCount ch + 1)))
  else Ok (r.1, mkChunk r.2 (m_allocationsCount ch)).

(** The tail chunk after a call changed it in place. *)
Definition set_tail (p : Implementation) (ch : Chunk) : Implementation :=
  with_chunks p (removelast (m_chunks p) ++ [ch]).

Definition allocate (p : Implementation) (cb : Callback) (size alignment : Z)
  : Result (Z * Implementation) :=
  ANKI_ASSERT (size <=? m_maxSize p) ;;
  first ← match m_tailChunk p with
          | None => Ok (0, p)
          | Some ch =>
              r ← allocateFromChunk p ch size alignment;
              Ok (r.1, set_tail p r.2)
          end;
  if first.1 =? 0 then
    created ← createNewChunk first.2 cb size;
    match created.1 with
    | None => Ok (0, created.2)
    | Some ch =>
        r ← allocateFromChunk created.2 ch size alignment;
        ANKI_ASSERT (negb (r.1 =? 0)) ;;
        Ok (r.1, set_tail created.2 r.2)
    end
  else Ok first.

(** The loop of [free]: the first chunk whose memory holds [ptr], with
    the chunks before it and after it. *)
Fixpoint locate (ptr : Z) (prev chunks : list Chunk)
  : Result (option (list Chunk * Chunk * list Chunk)) :=
  match chunks with
  | [] => Ok None
  | chunk :: next =>
      from ← Stack.getBaseAddress (m_pool chunk);
      let to := from + Stack.getTotalSize (m_pool chunk) in
      if (from <=? ptr) && (ptr <? to)
      then Ok (Some (prev, chunk, next))
      else locate ptr (prev ++ [chunk]) next
  end.

Definition free (p : Implementation) (ptr : Z) : Result (bool * Implementation) :=
  found ← locate ptr [] (m_chunks p);
  match found with
  | None => AssertFailed
  | Some (prev, chunk, next) =>
      ANKI_ASSERT (0 <? m_allocationsCount chunk) ;;
      let count := wrap32 (m_allocationsCount chunk - 1) in
      if count =? 0
      then Ok (true, with_chunks p (prev ++ next))
      else Ok (true, with_chunks p (prev ++ mkChunk (m_pool chunk) count :: next))
  end.

Fixpoint sumAllocatedSize (sum : Z) (chunks : list Chunk) : Result Z :=
  match chunks with
  | [] => Ok sum
  | ch :: next =>
      size ← Stack.getAllocatedSize (m_pool ch);
      sumAllocatedSize (wrapPtr (sum + size)) next
  end.

Definition getAllocatedSize (p : Implementation) : Result Z :=
  sumAllocatedSize 0 (m_chunks p).

Definition getChunksCount (p : Implementation) : Z :=
  Z.of_nat (length (m_chunks p)).

(** What the chunks of a pool satisfy between calls: each has the
    alignment of the pool, a stack in order and sizes within 32 bits. *)
Definition chunk_wf (p : Implementation) (ch : Chunk) : Prop :=
  Stack.pool_wf (m_pool ch) /\
  Stack.m_alignmentBytes (m_pool ch) = m_alignmentBytes p /\
  0 < Stack.m_memsize (m_pool ch) <= MAX_U32 /\
  0 <= m_allocationsCount ch <= MAX_U32.

(** A pool whose sizes leave room for the headers within 32 bits and
    whose chunks are in order; a pool that multiplies has a step. *)
Definition pool_wf (p : Implementation) : Prop :=
  0 < m_alignmentBytes p /\
  0 < m_initSize p <= m_maxSize p /\
  m_maxSize p + 2 * m_alignmentBytes p + 16 <= MAX_U32 /\
  0 <= m_step p <= MAX_U32 /\
  (m_method p = MULTIPLY -> 0 < m_step p) /\
  Forall (chunk_wf p) (m_chunks p).

(** The callback gave a chunk object and aligned memory. *)
Definition callback_ok (p : Implementation) (cb : Callback) : Prop :=
  cb_chunk cb <> 0 /\ 0 < cb_memory cb /\
  isAligned (m_alignmentBytes p) (cb_memory cb) = true.

(** [ptr] lies in the memory of the chunk. *)
Definition holds (ch : Chunk) (ptr : Z) : Prop :=
  Stack.m_memory (m_pool ch) <= ptr <
  Stack.m_memory (m_pool ch) + Stack.m_memsize (m_pool ch).

End Chain.

(** ** ThreadHive.h *)

(** *** ThreadHiveSemaphore *)

Record ThreadHiveSemaphore : Type := mkSem {
  m_atomic : Z
}.

Definition sizeof_ThreadHiveSemaphore : Z := sizeof_U32.
Definition alignof_ThreadHiveSemaphore : Z := sizeof_U32.
Definition sizeof_U8 : Z := 1.

(** Modelled from the spec: anki/util/Atomic.h is not among the sources.
    [fetchAdd] and [fetchSub] add to and subtract from the unsigned
    counter, which wraps at 32 bits; [set] stores a value. *)
Definition fetchAdd (s : ThreadHiveSemaphore) (a : Z) : ThreadHiveSemaphore :=
  mkSem (wrap32 (m_atomic s + a)).

(** Modelled from the spec: [fetchSub] of the same header. *)
Definition fetchSub (s : ThreadHiveSemaphore) (a : Z) : ThreadHiveSemaphore :=
  mkSem (wrap32 (m_atomic s - a)).

(** [ThreadHiveSemaphore::increaseSemaphore] *)
Definition increaseSemaphore (s : ThreadHiveSemaphore) : ThreadHiveSemaphore :=
  fetchAdd s 1.

(** *** ThreadHiveTask

    A semaphore pointer is [None] when null, otherwise the address of
    the semaphore in the arena.  Callbacks and arguments are addresses. *)

Record ThreadHiveTask : Type := mkTask {
  m_callback : Z;
  m_argument : Z;
  m_waitSemaphore : option Z;
  m_signalSemaphore : option Z
}.

(** A default-constructed task: the two [ANKI_DBG_NULLIFY] members are
    null in the checking build, the semaphores are null by their member
    initialisers. *)
Definition ThreadHiveTask_default : ThreadHiveTask := mkTask 0 0 None None.

Definition set_m_callback (t : ThreadHiveTask) (cb : Z) : ThreadHiveTask :=
  mkTask cb (m_argument t) (m_waitSemaphore t) (m_signalSemaphore t).

Definition set_m_argument (t : ThreadHiveTask) (arg : Z) : ThreadHiveTask :=
  mkTask (m_callback t) arg (m_waitSemaphore t) (m_signalSemaphore t).

(** *** ThreadHive *)

Module Hive.

(** Modelled from the spec: the scheduler's own copy of a submitted
    task ("logically copied into scheduler-owned storage"); [t_handle]
    tells the copies apart, it counts the submissions. *)
Record Task : Type := mkHTask {
  t_handle : nat;
  t_task : ThreadHiveTask
}.

#[global] Instance ThreadHiveTask_eq_dec : EqDecision ThreadHiveTask.
Proof. solve_decision. Defined.

#[global] Instance Task_eq_dec : EqDecision Task.
Proof. solve_decision. Defined.

(** The members of the class.  [m_queue] is the list from [m_head] to
    [m_tail].  [m_semaphores] holds the semaphore objects that live in
    the arena, by address.  Modelled from the spec, for what
    ThreadHive.cpp keeps and the header does not show: [m_waiting], the
    tasks registered against a wait semaphore; [m_running], the task
    each worker is executing; [m_submitted], the number of tasks copied
    into the scheduler's storage so far. *)
Record ThreadHive : Type := mkHive {
  m_alloc : StackAllocator;
  m_semaphores : gmap Z ThreadHiveSemaphore;
  m_threadCount : nat;
  m_queue : list Task;
  m_waiting : list Task;
  m_running : gmap nat Task;
  m_quit : bool;
  m_pendingTasks : Z;
  m_submitted : nat
}.

Definition MAX_THREADS : nat := 32.

Definition with_alloc (h : ThreadHive) a sems : ThreadHive :=
  mkHive a sems (m_threadCount h) (m_queue h) (m_waiting h) (m_running h)
         (m_quit h) (m_pendingTasks h) (m_submitted h).

Definition with_semaphores (h : ThreadHive) sems : ThreadHive :=
  with_alloc h (m_alloc h) sems.

Definition with_lists (h : ThreadHive) queue waiting : ThreadHive :=
  mkHive (m_alloc h) (m_semaphores h) (m_threadCount h) queue waiting
         (m_running h) (m_quit h) (m_pendingTasks h) (m_submitted h).

Definition with_running (h : ThreadHive) running : ThreadHive :=
  mkHive (m_alloc h) (m_semaphores h) (m_threadCount h) (m_queue h)
         (m_waiting h) running (m_quit h) (m_pendingTasks h) (m_submitted h).

Definition with_pendingTasks (h : ThreadHive) pending : ThreadHive :=
  mkHive (m_alloc h) (m_semaphores h) (m_threadCount h) (m_queue h)
         (m_waiting h) (m_running h) (m_quit h) pending (m_submitted h).

Definition with_submitted (h : ThreadHive) n : ThreadHive :=
  mkHive (m_alloc h) (m_semaphores h) (m_threadCount h) (m_queue h)
         (m_waiting h) (m_running h) (m_quit h) (m_pendingTasks h) n.

(** [ThreadHive::newSemaphore] (ThreadHive.h).  [m_alloc] is a
    [StackAllocator<U8>]: the request is for [sizeof(ThreadHiveSemaphore)]
    elements of one byte. *)
Definition newSemaphore (h : ThreadHive) (initialValue : Z)
  : Result (Z * ThreadHive) :=
  ANKI_ASSERT (0 <? initialValue) ;;
  let alignment := alignof_ThreadHiveSemaphore in
  r ← StackAllocator_allocate (m_alloc h) sizeof_ThreadHiveSemaphore
        sizeof_U8 alignment;
  let sem := r.1 in
  Ok (sem, with_alloc h r.2 (<[sem := mkSem initialValue]> (m_semaphores h))).

(** [increaseSemaphore] called on the semaphore at address [sem]. *)
Definition increase (h : ThreadHive) (sem : Z) : ThreadHive :=
  with_semaphores h (alter increaseSemaphore sem (m_semaphores h)).

(** The bytes [newSemaphore] asks its allocator for. *)
Definition semaphore_request : Z :=
  wrapPtr (sizeof_ThreadHiveSemaphore * sizeof_U8).

(** The value of the counter of a semaphore. *)
Definition load (h : ThreadHive) (sem : Z) : Z :=
  from_option m_atomic 0 (m_semaphores h !! sem).

(** Modelled from the spec: ThreadHive.cpp, which holds the bodies of
    [submitTasks], [waitAllTasks], [threadRun], [waitForWork],
    [getNewTask] and [completeTask], is not among the sources.  What
    follows takes section 4 of the specification at its word.

    A task is ready when "it has no wait-gate, or its wait-gate's
    current counter is already 0". *)
Definition gate_open (h : ThreadHive) (t : ThreadHiveTask) : bool :=
  match m_waitSemaphore t with
  | None => true
  | Some sem => load h sem =? 0
  end.

(** The task names [sem] as its wait semaphore. *)
Definition waits_on (sem : Z) (t : Task) : bool :=
  bool_decide (m_waitSemaphore (t_task t) = Some sem).

(** Modelled from the spec: one task of [submitTasks].  It is copied
    into the scheduler's storage and then "place[d] directly at the
    tail of the ready queue" or "register[ed] against its wait-gate". *)
Definition place (h : ThreadHive) (t : ThreadHiveTask) : ThreadHive :=
  let copy := mkHTask (m_submitted h) t in
  let h' := with_submitted h (S (m_submitted h)) in
  if gate_open h t
  then with_lists h' (m_queue h ++ [copy]) (m_waiting h)
  else with_lists h' (m_queue h) (m_waiting h ++ [copy]).

(** Modelled from the spec: what [submitTasks] does to the lists once
    the copies exist; the array and its count are one list.  The
    pending counter is the "count of tasks submitted but not yet
    completed". *)
Definition placeTasks (h : ThreadHive) (tasks : list ThreadHiveTask) : ThreadHive :=
  let h' := foldl place h tasks in
  with_pendingTasks h' (wrap32 (m_pendingTasks h' + Z.of_nat (length tasks))).

(** Modelled from the spec: the scheduler's copy of a task, "served by
    an arena allocator", holds the four members of the descriptor and
    the link of the list that [m_head] and [m_tail] delimit, a pointer
    each. *)
Definition sizeof_Task : Z := 40.
Definition alignof_Task : Z := 8.

(** Modelled from the spec: [submitTasks(tasks, count)].  The storage
    of the copies comes from [m_alloc], as one array ("logically copied
    into scheduler-owned storage"); when the arena has no room the
    exception of the allocator ends the call and nothing is placed
    ("surfaced as an allocation failure to the caller of [...]
    submission"). *)
Definition submitTasks (h : ThreadHive) (tasks : list ThreadHiveTask)
  : Result ThreadHive :=
  r ← StackAllocator_newArray (m_alloc h) (Z.of_nat (length tasks))
        sizeof_Task alignof_Task;
  Ok (placeTasks (with_alloc h r.2 (m_semaphores h)) tasks).

(** The bytes [submitTasks] asks its allocator for. *)
Definition tasks_request (tasks : list ThreadHiveTask) : Z :=
  wrapPtr (Z.of_nat (length tasks) * sizeof_Task).

(** [ThreadHive::submitTask] (ThreadHive.h). *)
Definition submitTask (h : ThreadHive) (callback arg : Z) : Result ThreadHive :=
  let task := ThreadHiveTask_default in
  let task := set_m_callback task callback in
  let task := set_m_argument task arg in
  submitTasks h [task].

(** Modelled from the spec: [getNewTask] "pop[s] one task from the head
    of the queue". *)
Definition getNewTask (h : ThreadHive) : option (Task * ThreadHive) :=
  match m_queue h with
  | [] => None
  | t :: rest => Some (t, with_lists h rest (m_waiting h))
  end.

(** Modelled from the spec: the worker [threadId] takes a task and runs
    its callback with the lock released. *)
Definition takeTask (h : ThreadHive) (threadId : nat) : option (Task * ThreadHive) :=
  match getNewTask h with
  | None => None
  | Some (t, h') => Some (t, with_running h' (<[threadId := t]> (m_running h')))
  end.

(** Modelled from the spec: the wake-scan "move[s] every task whose
    wait-gate is this semaphore from blocked to ready"; they go to the
    tail of the queue. *)
Definition wake (h : ThreadHive) (sem : Z) : ThreadHive :=
  with_lists h
    (m_queue h ++ filter (fun t => waits_on sem t = true) (m_waiting h))
    (filter (fun t => waits_on sem t <> true) (m_waiting h)).

(** Modelled from the spec: the automatic decrement of the signal gate,
    "performing the associated wake-scan if it transitions to 0". *)
Definition signal (h : ThreadHive) (sem : Z) : ThreadHive :=
  let h' := with_semaphores h (alter (fun s => fetchSub s 1) sem (m_semaphores h)) in
  if load h' sem =? 0 then wake h' sem else h'.

(** Modelled from the spec: after the callback returned the worker
    "reacquire[s] the lock to: decrement the signal-gate (if any) [...]
    decrement the pending counter, and broadcast". *)
Definition completeTask (h : ThreadHive) (threadId : nat) : ThreadHive :=
  match m_running h !! threadId with
  | None => h
  | Some t =>
      let h1 := match m_signalSemaphore (t_task t) with
                | Some sem => signal h sem
                | None => h
                end in
      let h2 := with_pendingTasks h1 (wrap32 (m_pendingTasks h1 - 1)) in
      with_running h2 (delete threadId (m_running h2))
  end.

(** Modelled from the spec: [waitAllTasks] "blocks the calling thread
    [...] until the pending counter is 0".  [None]: the caller stays
    blocked on the condition variable. *)
Definition waitAllTasks (h : ThreadHive) : option ThreadHive :=
  if m_pendingTasks h =? 0 then Some h else None.

(** Modelled from the spec: the constructor; the arena is the one the
    scheduler owns. *)
Definition create (threadCount : nat) (alloc : StackAllocator) : ThreadHive :=
  mkHive alloc ∅ threadCount [] [] ∅ false 0 0.

(** *** Executions

    Modelled from the spec: the scheduler's critical sections ("acquire
    the queue lock [...] reacquire the lock") and the atomic operations
    on semaphores are the steps, and an execution is any interleaving of
    them.  Between [EvTake] and [EvComplete] a worker runs a callback;
    [EvNewSemaphore], [EvSubmit] and [EvIncrease] may come from the
    driver or from any running callback.  [EvComplete] records the
    tasks its wake-scan moved. *)

Inductive Event : Type :=
| EvNewSemaphore (initialValue sem : Z)
| EvSubmit (tasks : list ThreadHiveTask)
| EvTake (threadId : nat) (t : Task)
| EvComplete (threadId : nat) (t : Task) (woken : list Task)
| EvIncrease (sem : Z)
| EvWaitReturn.

(** The semaphores a task names exist. *)
Definition known (h : ThreadHive) (osem : option Z) : Prop :=
  match osem with
  | None => True
  | Some sem => is_Some (m_semaphores h !! sem)
  end.

Definition task_valid (h : ThreadHive) (t : ThreadHiveTask) : Prop :=
  known h (m_waitSemaphore t) /\ known h (m_signalSemaphore t).

(** Modelled from the spec: the tasks that leave the waiting list when
    [t] completes. *)
Definition woken_by (h : ThreadHive) (t : Task) : list Task :=
  match m_signalSemaphore (t_task t) with
  | Some sem =>
      if load (signal h sem) sem =? 0
      then filter (fun c => waits_on sem c = true) (m_waiting h)
      else []
  | None => []
  end.

(** Modelled from the spec: one step of the scheduler.  A semaphore
    is created with a [U32] value; a batch names semaphores that exist,
    its copies take fewer than 2^32 bytes and the arena has room for
    them; a worker takes a task when it runs none; [waitAllTasks]
    returns when it is not blocked. *)
Inductive step : ThreadHive -> Event -> ThreadHive -> Prop :=
| step_newSemaphore h v sem h' :
    isU32 v ->
    newSemaphore h v = Ok (sem, h') ->
    step h (EvNewSemaphore v sem) h'
| step_submit h tasks h' :
    Forall (task_valid h) tasks ->
    Z.of_nat (length tasks) * sizeof_Task <= MAX_U32 ->
    submitTasks h tasks = Ok h' ->
    step h (EvSubmit tasks) h'
| step_take h threadId t h' :
    (threadId < m_threadCount h)%nat ->
    m_running h !! threadId = None ->
    takeTask h threadId = Some (t, h') ->
    step h (EvTake threadId t) h'
| step_complete h threadId t :
    m_running h !! threadId = Some t ->
    step h (EvComplete threadId t (woken_by h t)) (completeTask h threadId)
| step_increase h sem :
    is_Some (m_semaphores h !! sem) ->
    step h (EvIncrease sem) (increase h sem)
| step_waitReturn h :
    waitAllTasks h = Some h ->
    step h EvWaitReturn h.

Inductive trace : ThreadHive -> list Event -> ThreadHive -> Prop :=
| trace_nil h : trace h [] h
| trace_snoc h evs h' ev h'' :
    trace h evs h' -> step h' ev h'' -> trace h (evs ++ [ev]) h''.

(** The states of a scheduler built over a usable arena. *)
Definition initial (h : ThreadHive) : Prop :=
  exists threadCount alloc p,
    (threadCount <= MAX_THREADS)%nat /\
    arena alloc = Some p /\ Stack.pool_wf p /\
    h = create threadCount alloc.

Definition reachable (h : ThreadHive) : Prop :=
  exists h0 evs, initial h0 /\ trace h0 evs h.

(** *** What the claims speak about *)

(** The copies [submitTasks] makes of a batch, in order. *)
Fixpoint stamp (n : nat) (tasks : list ThreadHiveTask) : list Task :=
  match tasks with
  | [] => []
  | t :: ts => mkHTask n t :: stamp (S n) ts
  end.

Definition ready (h : ThreadHive) (c : Task) : Prop :=
  gate_open h (t_task c) = true.

#[global] Instance ready_dec h c : Decision (ready h c).
Proof. unfold ready. apply _. Defined.

(** Submitted and not yet taken by a worker. *)
Definition queued (h : ThreadHive) (c : Task) : Prop :=
  c ∈ m_queue h \/ c ∈ m_waiting h.

(** Submitted and not yet completed. *)
Definition outstanding (h : ThreadHive) (c : Task) : Prop :=
  queued h c \/ exists threadId, m_running h !! threadId = Some c.

(** The invariant of the queue with "has reached 0" read as "is 0
    now": of the tasks the scheduler holds for later, the ready queue
    has those that are ready and no others. *)
Definition queue_invariant (h : ThreadHive) : Prop :=
  forall c, queued h c -> (c ∈ m_queue h <-> ready h c).

(** The wait semaphore of [c] "has reached 0": in some state of the
    execution [evs], from [h0] to [h], in which the scheduler held [c]
    for later, the counter of that semaphore was 0. *)
Definition reached_zero (h0 : ThreadHive) (evs : list Event) (h : ThreadHive)
    (c : Task) : Prop :=
  exists sem evs1 h1 evs2,
    m_waitSemaphore (t_task c) = Some sem /\
    evs = evs1 ++ evs2 /\ trace h0 evs1 h1 /\ trace h1 evs2 h /\
    queued h1 c /\ load h1 sem = 0.

(** The invariant of the queue over an execution: of the tasks the
    scheduler holds for later, the ready queue has those with no wait
    semaphore and those whose wait semaphore has reached 0, and no
    others. *)
Definition queue_invariant_reached (h0 : ThreadHive) (evs : list Event)
    (h : ThreadHive) : Prop :=
  forall c, queued h c ->
    (c ∈ m_queue h <->
     m_waitSemaphore (t_task c) = None \/ reached_zero h0 evs h c).

(** An increase that takes to 0 a counter at 2^32-1 that a registered
    task waits for. *)
Definition wraps_waited_gate (h : ThreadHive) (ev : Event) : Prop :=
  match ev with
  | EvIncrease sem =>
      load h sem = MAX_U32 /\
      exists c, c ∈ m_waiting h /\ m_waitSemaphore (t_task c) = Some sem
  | _ => False
  end.

(** Executions without such an increase. *)
Inductive steady_trace : ThreadHive -> list Event -> ThreadHive -> Prop :=
| steady_nil h : steady_trace h [] h
| steady_snoc h evs h' ev h'' :
    steady_trace h evs h' -> ~ wraps_waited_gate h' ev -> step h' ev h'' ->
    steady_trace h (evs ++ [ev]) h''.

(** The number of tasks submitted and not yet completed. *)
Definition outstanding_count (h : ThreadHive) : Z :=
  Z.of_nat (length (m_queue h) + length (m_waiting h) + size (m_running h)).

(** What an execution did. *)
Definition completed (ev : Event) : list Task :=
  match ev with EvComplete _ t _ => [t] | _ => [] end.

Definition woken (ev : Event) : list Task :=
  match ev with EvComplete _ _ w => w | _ => [] end.

Definition taken (ev : Event) : list Task :=
  match ev with EvTake _ t => [t] | _ => [] end.

Definition signals (sem : Z) (ev : Event) : Z :=
  match ev with
  | EvComplete _ t _ =>
      if bool_decide (m_signalSemaphore (t_task t) = Some sem) then 1 else 0
  | _ => 0
  end.

Definition increases (sem : Z) (ev : Event) : Z :=
  match ev with
  | EvIncrease sem' => if bool_decide (sem' = sem) then 1 else 0
  | _ => 0
  end.

Definition completions (evs : list Event) : list Task := flat_map completed evs.

Definition wakes (evs : list Event) : list Task := flat_map woken evs.

Definition takes (evs : list Event) : list Task := flat_map taken evs.

Definition total (f : Event -> Z) (evs : list Event) : Z :=
  foldr (fun ev acc => f ev + acc) 0 evs.

Definition worker_event (ev : Event) : bool :=
  match ev with EvTake _ _ | EvComplete _ _ _ => true | _ => false end.

(** One worker serving a list of tasks that wake nobody. *)
Definition serial (threadId : nat) (cs : list Task) : list Event :=
  flat_map (fun c => [EvTake threadId c; EvComplete threadId c []]) cs.

Definition ungated (t : ThreadHiveTask) : Prop :=
  m_waitSemaphore t = None /\ m_signalSemaphore t = None.

Definition idle (h : ThreadHive) : Prop :=
  m_queue h = [] /\ m_waiting h = [] /\ m_running h = ∅.

(** Where the one worker stands after it served the first [k] tasks of
    [batch]: between two tasks, or inside the callback of the next. *)
Definition serving (batch : list Task) (evs : list Event) (h : ThreadHive) : Prop :=
  m_waiting h = [] /\ m_threadCount h = 1%nat /\
  exists k,
    (m_running h = ∅ /\ m_queue h = drop k batch /\
     evs = serial 0 (take k batch))
    \/
    (exists c, batch !! k = Some c /\ m_running h = {[ 0%nat := c ]} /\
               m_queue h = drop (S k) batch /\
               evs = serial 0 (take k batch) ++ [EvTake 0 c]).

(** The handles of the tasks the scheduler holds. *)
Definition hive_handles (h : ThreadHive) : list nat :=
  (t_handle <$> m_queue h) ++ (t_handle <$> m_waiting h) ++
  (t_handle <$> (map_to_list (m_running h)).*2).

(** What an execution leaves behind: no task completed twice, none
    woken twice, and neither kind is held by the scheduler any longer. *)
Definition history_ok (evs : list Event) (h : ThreadHive) : Prop :=
  NoDup (t_handle <$> completions evs) /\
  (forall n, n ∈ t_handle <$> completions evs ->
             (n < m_submitted h)%nat /\ (n ∉ hive_handles h)) /\
  NoDup (t_handle <$> wakes evs) /\
  (forall n, n ∈ t_handle <$> wakes evs ->
             (n < m_submitted h)%nat /\ (n ∉ t_handle <$> m_waiting h)).


(** What holds of every reachable scheduler. *)
Record hive_wf (h : ThreadHive) : Prop := mkWf {
  wf_arena : exists p, arena (m_alloc h) = Some p /\ Stack.pool_wf p /\
                       forall sem, is_Some (m_semaphores h !! sem) -> sem < Stack.m_top p;
  wf_counters : forall sem s, m_semaphores h !! sem = Some s -> isU32 (m_atomic s);
  wf_valid : forall c, outstanding h c -> task_valid h (t_task c);
  wf_nodup : NoDup (hive_handles h);
  wf_bound : Forall (fun n => (n < m_submitted h)%nat) (hive_handles h);
  wf_pending : m_pendingTasks h = wrap32 (outstanding_count h)
}.

End Hive.

(** ** Sample pools and schedulers *)

Definition zero_memory : Memory := fun _ => 0.

Definition allocator_of (p : Stack.Implementation) : StackAllocator :=
  mkAlloc (Some (mkPool (Some p))).

(** What [create 4096 zero_memory 16 16] builds: sixteen bytes, all of
    which one header takes. *)
Definition tiny_pool : Stack.Implementation :=
  Stack.mkImpl 16 16 4096 16 4096 0 (memset zero_memory 4096 INVALID_BYTE 16).

(** What [create 4096 zero_memory 256 16] builds. *)
Definition small_pool : Stack.Implementation :=
  Stack.mkImpl 16 16 4096 256 4096 0 (memset zero_memory 4096 INVALID_BYTE 256).

Definition tiny_hive : Hive.ThreadHive := Hive.create 1 (allocator_of tiny_pool).

Definition small_hive : Hive.ThreadHive := Hive.create 1 (allocator_of small_pool).

(** Two blocks of eight bytes taken from [small_pool], and the record of
    them. *)
Definition pool_A : Stack.Implementation :=
  match Stack.allocate small_pool 8 8 with Ok (_, p) => p | _ => small_pool end.

Definition pool_AB : Stack.Implementation :=
  match Stack.allocate pool_A 8 8 with Ok (_, p) => p | _ => pool_A end.

Definition blocks_AB : list Stack.Block :=
  [Stack.mkBlock 4144 32 true; Stack.mkBlock 4112 32 true].

(** [pool_A] after a request of 1024 bytes, which it cannot serve. *)
Definition pool_A_failed : Stack.Implementation :=
  match Stack.allocate pool_A 1024 8 with Ok (_, p) => p | _ => pool_A end.

(** [small_pool] after a request of a thousand bytes, which it cannot
    serve. *)
Definition pool_failed : Stack.Implementation :=
  match Stack.allocate small_pool 1000 8 with
  | Ok (_, p) => p
  | _ => small_pool
  end.

(** Two heap pools, whose implementation objects are at 4096 and at
    8192. *)
Definition heap_A : Heap.Implementation :=
  match Heap.create 4096 zero_memory with
  | Ok p => p
  | _ => Heap.mkImpl 0 0 0 zero_memory
  end.

Definition heap_B : Heap.Implementation :=
  match Heap.create 8192 zero_memory with
  | Ok p => p
  | _ => Heap.mkImpl 0 0 0 zero_memory
  end.

(** A block of a hundred bytes that [heap_A] allocates in memory at
    65536, and [heap_B] looking at the memory that holds it. *)
Definition heap_A_block : Heap.Allocated :=
  match Heap.allocate heap_A 65536 100 16 with
  | Ok r => r
  | _ => Heap.mkAllocated 0 true heap_A
  end.

Definition heap_B_shared : Heap.Implementation :=
  Heap.mkImpl (Heap.m_allocationsCount heap_B) (Heap.m_signature heap_B)
              (Heap.m_headerSize heap_B)
              (Heap.m_bytes (Heap.a_pool heap_A_block)).

(** Two pool objects: both null; the first created, with its
    implementation at 4096; the second assigned from the first. *)
Definition world_0 : Shared.World := Shared.mkWorld (replicate 2 0) ∅.

Definition world_1 : Shared.World :=
  match Shared.create world_0 0 4096 8192 with
  | Ok (_, w) => w
  | _ => world_0
  end.

Definition world_2 : Shared.World :=
  match Shared.assign world_1 1 0 with
  | Ok w => w
  | _ => world_1
  end.

(** A chain pool that grows its chunks by sixty-four bytes, before its
    first allocation, and a callback that delivers. *)
Definition chain_pool : Chain.Implementation :=
  Chain.mkImpl 16 [] 64 256 64 Chain.ADD.

Definition callback_A : Chain.Callback := Chain.mkCb 65536 4096 zero_memory.

(** [chain_pool] after one request of thirty-two bytes, and its chunk. *)
Definition chain_pool_1 : Chain.Implementation :=
  match Chain.allocate chain_pool callback_A 32 8 with
  | Ok (_, p) => p
  | _ => chain_pool
  end.

Definition chunk_1 : Chain.Chunk :=
  match Chain.m_chunks chain_pool_1 with
  | c :: _ => c
  | [] => Chain.mkChunk small_pool 0
  end.

(** A callback that has no memory left. *)
Definition callback_null : Chain.Callback := Chain.mkCb 0 0 zero_memory.

(** A semaphore of value 1, a task that signals it and a task that
    waits for it. *)
Definition sem_g : Z := 4112.

Definition after {A} (d : Hive.ThreadHive) (r : Result (A * Hive.ThreadHive))
  : Hive.ThreadHive :=
  match r with Ok (_, h) => h | _ => d end.

Definition after_take (h : Hive.ThreadHive) (threadId : nat) : Hive.ThreadHive :=
  match Hive.takeTask h threadId with Some (_, h') => h' | None => h end.

Definition after_submit (h : Hive.ThreadHive) (tasks : list ThreadHiveTask)
  : Hive.ThreadHive :=
  match Hive.submitTasks h tasks with Ok h' => h' | _ => h end.

Definition hive_g : Hive.ThreadHive :=
  after small_hive (Hive.newSemaphore small_hive 1).

(** The arena of [hive_g]. *)
Definition pool_g : Stack.Implementation :=
  match arena (Hive.m_alloc hive_g) with Some p => p | None => small_pool end.

Definition taskA : ThreadHiveTask := mkTask 1 0 None (Some sem_g).
Definition taskA2 : ThreadHiveTask := mkTask 3 0 None (Some sem_g).
Definition taskB : ThreadHiveTask := mkTask 2 0 (Some sem_g) None.

(** [taskA] then [taskB]: the worker takes [taskA] and completes it. *)
Definition hive_submitted : Hive.ThreadHive := after_submit hive_g [taskA; taskB].
Definition hive_running : Hive.ThreadHive := after_take hive_submitted 0.
Definition hive_completed : Hive.ThreadHive := Hive.completeTask hive_running 0.

(** Two signalling tasks for a semaphore of value 1. *)
Definition over_submitted : Hive.ThreadHive :=
  after_submit hive_g [taskA; taskA2; taskB].
Definition over_running : Hive.ThreadHive := after_take over_submitted 0.
Definition over_completed : Hive.ThreadHive := Hive.completeTask over_running 0.
Definition over_running2 : Hive.ThreadHive := after_take over_completed 0.
Definition over_signalled : Hive.ThreadHive := Hive.completeTask over_running2 0.

(** While [taskA] runs, its callback submits a child; then [taskA]
    completes. *)
Definition child : ThreadHiveTask := mkTask 9 0 None None.
Definition hive_child : Hive.ThreadHive := after_submit hive_running [child].
Definition hive_parent_done : Hive.ThreadHive := Hive.completeTask hive_child 0.

(** Two tasks without semaphores submitted to [small_hive]. *)
Definition hive_pair : Hive.ThreadHive :=
  after_submit small_hive [child; mkTask 8 0 None None].

(** A semaphore created at 2^32-1, a task that waits for it, and an
    increase that wraps its counter to 0. *)
Definition hive_max : Hive.ThreadHive :=
  after small_hive (Hive.newSemaphore small_hive MAX_U32).
Definition hive_max_blocked : Hive.ThreadHive := after_submit hive_max [taskB].
Definition hive_wrapped : Hive.ThreadHive := Hive.increase hive_max_blocked sem_g.

(** A task that waits for a semaphore nobody signals. *)
Definition hive_blocked : Hive.ThreadHive := after_submit hive_g [taskB].

(** * Facts *)

(** ** Arithmetic of the helpers *)

Lemma wrap32_small z : 0 <= z <= MAX_U32 -> wrap32 z = z.
Proof. unfold wrap32, MAX_U32. intros H. apply Z.mod_small. lia. Qed.

Lemma wrap32_range z : 0 <= wrap32 z <= MAX_U32.
Proof.
  unfold wrap32, MAX_U32.
  pose proof (Z.mod_pos_bound z 4294967296). lia.
Qed.

Lemma wrap32_add_l a b : wrap32 (wrap32 a + b) = wrap32 (a + b).
Proof. unfold wrap32. now rewrite Zplus_mod_idemp_l. Qed.

Lemma getAlignedRoundUp_ge a v : 0 < a -> v <= getAlignedRoundUp a v.
Proof.
  intros Ha. unfold getAlignedRoundUp.
  pose proof (Z.div_mod (v + a - 1) a ltac:(lia)) as Hd.
  pose proof (Z.mod_pos_bound (v + a - 1) a Ha) as Hm.
  lia.
Qed.

Lemma isAligned_divide a x : 0 < a -> isAligned a x = true <-> (a | x).
Proof.
  intros Ha. unfold isAligned. rewrite Z.eqb_eq.
  apply Z.mod_divide. lia.
Qed.

Lemma getAlignedRoundUp_aligned a v :
  0 < a -> isAligned a (getAlignedRoundUp a v) = true.
Proof.
  intros Ha. apply isAligned_divide; [assumption|].
  unfold getAlignedRoundUp. apply Z.divide_factor_r.
Qed.

Lemma isAligned_add a x y :
  0 < a -> isAligned a x = true -> isAligned a y = true ->
  isAligned a (x + y) = true.
Proof.
  intros Ha Hx Hy. apply isAligned_divide in Hx, Hy; try assumption.
  apply isAligned_divide; [assumption|]. now apply Z.divide_add_r.
Qed.

Lemma isAligned_sub a x y :
  0 < a -> isAligned a x = true -> isAligned a y = true ->
  isAligned a (x - y) = true.
Proof.
  intros Ha Hx Hy. apply isAligned_divide in Hx, Hy; try assumption.
  apply isAligned_divide; [assumption|]. now apply Z.divide_sub_r.
Qed.

(** ** The header survives its round trip through memory *)

Ltac storeU8_cases :=
  unfold memcpy_to_U32, memcpy_from_U32, storeU8;
  repeat match goal with
         | |- context [?x =? ?y] => destruct (Z.eqb_spec x y); try lia
         end.

Lemma memcpy_U32_same m a v :
  0 <= v <= MAX_U32 -> memcpy_to_U32 (memcpy_from_U32 m a v) a = v.
Proof.
  unfold MAX_U32. intros Hv. storeU8_cases.
  replace (v / 65536) with (v / 256 / 256)
    by (rewrite Z.div_div by lia; reflexivity).
  replace (v / 16777216) with (v / 256 / 256 / 256)
    by (rewrite !Z.div_div by lia; reflexivity).
  set (q1 := v / 256). set (q2 := q1 / 256). set (q3 := q2 / 256).
  pose proof (Z.div_mod v 256 ltac:(lia)) as H0.
  pose proof (Z.div_mod q1 256 ltac:(lia)) as H1.
  pose proof (Z.div_mod q2 256 ltac:(lia)) as H2.
  pose proof (Z.mod_pos_bound v 256 ltac:(lia)) as B0.
  pose proof (Z.mod_pos_bound q1 256 ltac:(lia)) as B1.
  pose proof (Z.mod_pos_bound q2 256 ltac:(lia)) as B2.
  fold q1 in H0. fold q2 in H1. fold q3 in H2.
  assert (E3 : q3 mod 256 = q3).
  { apply Z.mod_small. lia. }
  rewrite E3. lia.
Qed.

Lemma memcpy_U32_other m a v a' :
  a' + 4 <= a \/ a + 4 <= a' ->
  memcpy_to_U32 (memcpy_from_U32 m a v) a' = memcpy_to_U32 m a'.
Proof. intros H. storeU8_cases. Qed.

(** Filling a range leaves a word outside of it as it was. *)
Lemma memset_U32_other m dst v n a :
  a + 4 <= dst \/ dst + n <= a ->
  memcpy_to_U32 (memset m dst v n) a = memcpy_to_U32 m a.
Proof.
  intros H. unfold memcpy_to_U32, memset.
  repeat match goal with
         | |- context [(?x <=? ?y) && (?z <? ?w)] =>
             destruct (Z.leb_spec x y); destruct (Z.ltb_spec z w);
             simpl; try lia
         end.
Qed.

Lemma wrapPtr_small z : 0 <= z <= MAX_PTR_SIZE -> wrapPtr z = z.
Proof. unfold wrapPtr, MAX_PTR_SIZE. intros H. apply Z.mod_small. lia. Qed.

Lemma wrapPtr_range z : 0 <= wrapPtr z <= MAX_PTR_SIZE.
Proof.
  unfold wrapPtr, MAX_PTR_SIZE.
  pose proof (Z.mod_pos_bound z 18446744073709551616). lia.
Qed.

(** ** Facts about the stack pool *)

Module StackFacts.
Import Stack.

Lemma assert_bind_Ok {A} (c : bool) (k : Result A) (x : A) :
  (ANKI_ASSERT c ;; k) = Ok x <-> c = true /\ k = Ok x.
Proof.
  unfold mbind, Result_bind, ANKI_ASSERT. destruct c; split.
  - intros H. split; [reflexivity | exact H].
  - intros [_ H]. exact H.
  - intros H. discriminate H.
  - intros [H _]. discriminate H.
Qed.

Lemma assert_bind_true {A} (c : bool) (k : Result A) :
  c = true -> (ANKI_ASSERT c ;; k) = k.
Proof. intros ->. reflexivity. Qed.

(** What a returning [allocate] did. *)
Lemma allocate_Ok p size alignment out p' :
  allocate p size alignment = Ok (out, p') ->
  m_memory p <> 0 /\ alignment <= m_alignmentBytes p /\
  rounded p size < MAX_U32 /\
  m_alignmentBytes p' = m_alignmentBytes p /\
  m_headerSize p' = m_headerSize p /\
  m_memory p' = m_memory p /\
  m_memsize p' = m_memsize p /\
  m_top p' = m_top p + rounded p size /\
  ((fits p size /\ out = m_top p + m_headerSize p /\
    isAligned (m_alignmentBytes p) out = true /\
    m_allocationsCount p' = wrap32 (m_allocationsCount p + 1) /\
    m_bytes p' = memcpy_from_U32
                   (memset (m_bytes p) (m_top p) INVALID_BYTE (rounded p size))
                   (m_top p) (wrap32 (rounded p size)))
   \/
   (~ fits p size /\ out = 0 /\
    m_allocationsCount p' = m_allocationsCount p /\
    m_bytes p' = m_bytes p)).
Proof.
  unfold allocate. fold (rounded p size). unfold fits. intros H.
  apply assert_bind_Ok in H as [H1 H].
  apply assert_bind_Ok in H as [H2 H].
  apply assert_bind_Ok in H as [H3 H].
  apply negb_true_iff, Z.eqb_neq in H1.
  apply Z.leb_le in H2. apply Z.ltb_lt in H3.
  destruct (Z.leb_spec (m_top p + rounded p size)
                       (m_memory p + m_memsize p)) as [Hfit|Hfit].
  - apply assert_bind_Ok in H as [H4 H]. injection H as <- <-. simpl.
    repeat split; try assumption; try reflexivity.
    left. repeat split; try assumption; reflexivity.
  - injection H as <- <-. simpl.
    repeat split; try assumption; try reflexivity.
    right. repeat split; try reflexivity. lia.
Qed.

(** What a returning [free] did. *)
Lemma free_Ok p ptr exchange p' :
  free p ptr = Ok (exchange, p') ->
  ptr <> 0 /\ isAligned (m_alignmentBytes p) ptr = true /\
  m_memory p <= ptr - m_headerSize p /\
  block_end p ptr <= m_memory p + m_memsize p /\
  exchange = (m_top p =? block_end p ptr) /\
  m_alignmentBytes p' = m_alignmentBytes p /\
  m_headerSize p' = m_headerSize p /\
  m_memory p' = m_memory p /\
  m_memsize p' = m_memsize p /\
  m_top p' = (if exchange then ptr - m_headerSize p else m_top p) /\
  m_allocationsCount p' = wrap32 (m_allocationsCount p - 1) /\
  m_bytes p' = m_bytes p.
Proof.
  unfold free, block_end. intros H.
  apply assert_bind_Ok in H as [H1 H].
  apply assert_bind_Ok in H as [H2 H].
  apply assert_bind_Ok in H as [H3 H].
  apply assert_bind_Ok in H as [H4 H].
  apply andb_true_iff in H1 as [H1 H1'].
  apply negb_true_iff, Z.eqb_neq in H1.
  apply Z.leb_le in H3. apply Z.leb_le in H4.
  injection H as <- <-. simpl.
  repeat split; try assumption; reflexivity.
Qed.

Lemma reset_Ok p p' :
  reset p = Ok p' ->
  m_alignmentBytes p' = m_alignmentBytes p /\
  m_headerSize p' = m_headerSize p /\
  m_memory p' = m_memory p /\
  m_memsize p' = m_memsize p /\
  m_top p' = m_memory p /\
  m_allocationsCount p' = m_allocationsCount p /\
  m_bytes p' = memset (m_bytes p) (m_memory p) INVALID_BYTE (m_memsize p).
Proof.
  unfold reset. intros H. apply assert_bind_Ok in H as [_ H].
  injection H as <-. simpl. repeat split; reflexivity.
Qed.
(** *** The record of blocks is a stack *)

Lemma chain_mono p limit limit' bs :
  limit <= limit' -> chain p limit bs -> chain p limit' bs.
Proof.
  destruct bs as [|b bs]; simpl; [tauto|].
  intros Hle (He & Hs & Hc). repeat split; try assumption. lia.
Qed.

Lemma chain_ext p p' limit bs :
  m_headerSize p' = m_headerSize p -> chain p limit bs -> chain p' limit bs.
Proof.
  intros Hh. revert limit. induction bs as [|b bs IH]; simpl; [tauto|].
  intros limit (He & Hs & Hc). unfold b_end, b_start in *. rewrite Hh.
  repeat split; try assumption. apply IH. exact Hc.
Qed.

Lemma chain_In p limit bs b :
  chain p limit bs -> In b bs -> b_end p b <= limit /\ 0 < b_size b.
Proof.
  revert limit. induction bs as [|b0 bs IH]; simpl; [tauto|].
  intros limit (He & Hs & Hc) [<-|Hin]; [tauto|].
  destruct (IH _ Hc Hin) as [He' Hs']. split; [|assumption].
  unfold b_end in He. lia.
Qed.

Lemma chain_below_head p limit b0 bs b :
  chain p limit (b0 :: bs) -> In b bs -> b_end p b <= b_start p b0.
Proof. simpl. intros (_ & _ & Hc) Hin. exact (proj1 (chain_In _ _ _ _ Hc Hin)). Qed.

Lemma chain_ptr_unique p limit bs b1 b2 :
  chain p limit bs -> In b1 bs -> In b2 bs -> b_ptr b1 = b_ptr b2 -> b1 = b2.
Proof.
  revert limit. induction bs as [|b0 bs IH]; simpl; [tauto|].
  intros limit (He & Hs & Hc) [E1|H1] [E2|H2] Hp.
  - congruence.
  - subst b0. destruct (chain_In _ _ _ _ Hc H2) as [Hb Hpos].
    unfold b_end, b_start in *. lia.
  - subst b0. destruct (chain_In _ _ _ _ Hc H1) as [Hb Hpos].
    unfold b_end, b_start in *. lia.
  - exact (IH _ Hc H1 H2 Hp).
Qed.

Lemma chain_retire_kept p limit ptr bs :
  chain p limit bs -> chain p limit (retire ptr false bs).
Proof.
  revert limit. induction bs as [|b bs IH]; simpl; [tauto|].
  intros limit (He & Hs & Hc). destruct (b_ptr b =? ptr); simpl.
  - repeat split; assumption.
  - repeat split; try assumption. apply IH. exact Hc.
Qed.

Lemma In_retire_other ptr popped bs d :
  In d bs -> b_ptr d <> ptr -> In d (retire ptr popped bs).
Proof.
  induction bs as [|b bs IH]; simpl; [tauto|].
  intros [->|Hin] Hne.
  - destruct (Z.eqb_spec (b_ptr d) ptr); [contradiction|]. now left.
  - destruct (b_ptr b =? ptr); [destruct popped|].
    + exact Hin.
    + now right.
    + right. now apply IH.
Qed.

Lemma In_retire_inv ptr popped bs d :
  In d (retire ptr popped bs) -> In d bs \/ exists b, In b bs /\ d = kill b.
Proof.
  induction bs as [|b bs IH]; simpl; [tauto|].
  destruct (b_ptr b =? ptr); [destruct popped|]; simpl.
  - intros H. left. now right.
  - intros [<-|H]; [right; exists b; split; [now left|reflexivity]|left; now right].
  - intros [<-|H]; [left; now left|].
    destruct (IH H) as [H'|(b' & Hb' & ->)]; [left; now right|].
    right. exists b'. split; [now right|reflexivity].
Qed.

Lemma block_ok_kill p b : block_ok p b -> block_ok p (kill b).
Proof.
  unfold block_ok, kill, b_end, b_start. simpl.
  intros (H1 & H2 & H3 & H4 & _). repeat split; try assumption. discriminate.
Qed.

Lemma block_ok_ext p p' b :
  m_alignmentBytes p' = m_alignmentBytes p ->
  m_headerSize p' = m_headerSize p ->
  m_memory p' = m_memory p ->
  m_memsize p' = m_memsize p ->
  (b_live b = true ->
   memcpy_to_U32 (m_bytes p') (b_start p b) = memcpy_to_U32 (m_bytes p) (b_start p b)) ->
  block_ok p b -> block_ok p' b.
Proof.
  unfold block_ok, b_end, b_start. intros Ha Hh Hm Hs Hb (H1 & H2 & H3 & H4 & H5).
  rewrite Ha, Hh, Hm, Hs. repeat split; try assumption.
  intros Hl. rewrite <- (H5 Hl). now apply Hb.
Qed.

Lemma headerSize_ge p : pool_wf p -> sizeof_MemoryBlockHeader <= m_headerSize p.
Proof. intros (Ha & _ & -> & _). now apply getAlignedRoundUp_ge. Qed.

Lemma headerSize_aligned p :
  pool_wf p -> isAligned (m_alignmentBytes p) (m_headerSize p) = true.
Proof. intros (Ha & _ & -> & _). now apply getAlignedRoundUp_aligned. Qed.

Lemma getAlignedRoundUp_le a v : 0 < a -> getAlignedRoundUp a v <= v + a - 1.
Proof.
  intros Ha. unfold getAlignedRoundUp.
  pose proof (Z.mul_div_le (v + a - 1) a Ha). lia.
Qed.

Lemma headerSize_le p : pool_wf p -> m_headerSize p <= MAX_U32 + 3.
Proof.
  intros (Ha & _ & -> & _ & _ & _ & Hmax).
  pose proof (getAlignedRoundUp_le (m_alignmentBytes p) sizeof_MemoryBlockHeader Ha).
  unfold sizeof_MemoryBlockHeader, sizeof_U32 in *. lia.
Qed.

(** Away from 2^64 the size [allocate] takes is the round-up of the
    request and its header. *)
Lemma rounded_no_wrap p size :
  pool_wf p -> no_wrap p size ->
  rounded p size
  = getAlignedRoundUp (m_alignmentBytes p) (size + m_headerSize p).
Proof.
  intros Hwf [Hs Hmax]. unfold rounded.
  pose proof (headerSize_ge _ Hwf) as Hhs.
  unfold sizeof_MemoryBlockHeader, sizeof_U32 in Hhs.
  pose proof (getAlignedRoundUp_ge (m_alignmentBytes p)
                (size + m_headerSize p) (proj1 Hwf)) as Hge.
  rewrite (wrapPtr_small (size + m_headerSize p)) by lia.
  apply wrapPtr_small. lia.
Qed.

Lemma rounded_ge p size :
  pool_wf p -> no_wrap p size -> size + m_headerSize p <= rounded p size.
Proof.
  intros Hwf Hnw. rewrite (rounded_no_wrap p size Hwf Hnw).
  exact (getAlignedRoundUp_ge (m_alignmentBytes p) (size + m_headerSize p)
           (proj1 Hwf)).
Qed.

Lemma rounded_aligned p size :
  pool_wf p -> no_wrap p size ->
  isAligned (m_alignmentBytes p) (rounded p size) = true.
Proof.
  intros Hwf Hnw. rewrite (rounded_no_wrap p size Hwf Hnw).
  apply getAlignedRoundUp_aligned, Hwf.
Qed.

(** A round-up of sizes below 2^32 does not wrap. *)
Lemma no_wrap_small p size :
  pool_wf p -> 0 <= size <= MAX_U32 -> no_wrap p size.
Proof.
  intros Hwf Hs. split; [lia|].
  pose proof (getAlignedRoundUp_le (m_alignmentBytes p) (size + m_headerSize p)
                (proj1 Hwf)) as Hle.
  pose proof (headerSize_le _ Hwf) as Hh.
  destruct Hwf as (_ & _ & _ & _ & _ & _ & Wmax).
  unfold MAX_U32, MAX_PTR_SIZE in *. lia.
Qed.
(** *** Every call keeps the record faithful *)

Lemma live_block p bs ptr :
  tracks (p, bs) -> live bs ptr ->
  exists b, In b bs /\ b_ptr b = ptr /\ b_live b = true /\
            block_ok p b /\ block_end p ptr = b_end p b.
Proof.
  intros (Hwf & Hc & Hok) (b & Hin & Hp & Hl). simpl in *.
  exists b. pose proof (proj1 (List.Forall_forall _ _) Hok b Hin) as Hb.
  split; [exact Hin|]. split; [exact Hp|]. split; [exact Hl|].
  split; [exact Hb|].
  destruct Hb as (_ & _ & _ & _ & Hh).
  unfold block_end, b_end, b_start in *. subst ptr. now rewrite (Hh Hl).
Qed.

Lemma top_block_is_head p limit b0 bs b :
  chain p limit (b0 :: bs) -> In b (b0 :: bs) -> limit = b_end p b -> b = b0.
Proof.
  intros Hc [E|Hin] Hl; [congruence|].
  pose proof (chain_below_head _ _ _ _ _ Hc Hin) as Hlow.
  simpl in Hc. destruct Hc as (He & Hs & _).
  unfold b_end in *. lia.
Qed.

Lemma tracks_create chunk bytes size alignmentBytes p :
  chunk > 0 -> alignmentBytes <= MAX_U32 ->
  isAligned alignmentBytes chunk = true ->
  create chunk bytes size alignmentBytes = Ok (NONE, p) ->
  tracks (p, []).
Proof.
  unfold create. intros Hc Hmax Hal H.
  apply assert_bind_Ok in H as [H1 H].
  apply assert_bind_Ok in H as [H2 H].
  apply Z.ltb_lt in H1, H2.
  destruct (Z.eqb_spec chunk 0); [discriminate|].
  injection H as <-.
  split; [|split]; simpl; [|exact I|constructor].
  pose proof (getAlignedRoundUp_ge alignmentBytes sizeof_MemoryBlockHeader H2).
  pose proof (getAlignedRoundUp_le alignmentBytes sizeof_MemoryBlockHeader H2).
  unfold pool_wf; simpl.
  rewrite wrapPtr_small
    by (unfold sizeof_MemoryBlockHeader, sizeof_U32, MAX_U32, MAX_PTR_SIZE in *;
        lia).
  repeat split; try assumption; lia.
Qed.

Lemma tracks_step op t t' : tracks t -> op_step op t t' -> tracks t'.
Proof.
  intros Ht Hstep. destruct Hstep as
    [p bs size al out p' Hnw Hal Hout
    |p bs size al p' Hnw Hal
    |p bs ptr ex p' Hlive Hfree
    |p bs p' Hreset].
  - (* a block was handed out *)
    destruct Ht as (Hwf & Hc & Hok). simpl in *.
    pose proof (headerSize_ge _ Hwf) as Hhs.
    pose proof (rounded_ge _ _ Hwf Hnw) as Hr.
    pose proof (rounded_aligned _ _ Hwf Hnw) as Hra.
    pose proof (proj1 Hnw) as Hsize.
    unfold sizeof_MemoryBlockHeader, sizeof_U32 in Hhs.
    apply allocate_Ok in Hal as
      (Hm & Ha & Hmax & Ea & Eh & Em & Es & Et & [(Hfit & Eo & Hao & Ec & Eb)|(_ & Eo & _)]);
      [|contradiction].
    destruct Hwf as (Wa & Wm & Wh & Wam & Wat & Wmt & Wmax).
    split; [|split]; simpl.
    + unfold pool_wf. rewrite Ea, Eh, Em, Et. repeat split; try assumption; [|lia].
      apply isAligned_add; assumption.
    + unfold b_end, b_start. simpl. rewrite Eh, Et, Eo.
      repeat split; [lia|lia|].
      replace (m_top p + m_headerSize p - m_headerSize p) with (m_top p) by lia.
      now apply (chain_ext p).
    + constructor.
      * unfold block_ok, b_end, b_start. simpl. rewrite Ea, Eh, Em, Es, Eb, Eo.
        replace (m_top p + m_headerSize p - m_headerSize p) with (m_top p) by lia.
        unfold fits in Hfit. repeat split; try lia.
        -- now subst out.
        -- intros _. rewrite memcpy_U32_same by apply wrap32_range.
           apply wrap32_small. lia.
      * apply List.Forall_forall. intros b Hin.
        pose proof (proj1 (List.Forall_forall _ _) Hok b Hin) as Hb.
        apply (block_ok_ext p); try assumption.
        intros _. rewrite Eb.
        destruct (chain_In _ _ _ _ Hc Hin) as [He _].
        destruct Hb as (_ & _ & Hbs & _). unfold b_end in He.
        rewrite memcpy_U32_other by (left; lia).
        apply memset_U32_other. left. lia.
  - (* the request did not fit *)
    destruct Ht as (Hwf & Hc & Hok). simpl in *.
    pose proof (headerSize_ge _ Hwf) as Hhs.
    pose proof (rounded_ge _ _ Hwf Hnw) as Hr.
    pose proof (rounded_aligned _ _ Hwf Hnw) as Hra.
    pose proof (proj1 Hnw) as Hsize.
    unfold sizeof_MemoryBlockHeader, sizeof_U32 in Hhs.
    apply allocate_Ok in Hal as
      (Hm & Ha & Hmax & Ea & Eh & Em & Es & Et & [(_ & Eo & _)|(Hnf & _ & Ec & Eb)]).
    { destruct Hwf as (_ & Wm & _ & _ & _ & Wmt & Wmax). lia. }
    destruct Hwf as (Wa & Wm & Wh & Wam & Wat & Wmt & Wmax).
    split; [|split]; simpl.
    + unfold pool_wf. rewrite Ea, Eh, Em, Et. repeat split; try assumption; [|lia].
      apply isAligned_add; assumption.
    + apply (chain_ext p); [assumption|].
      apply (chain_mono p (m_top p)); [lia|assumption].
    + apply List.Forall_forall. intros b Hin.
      pose proof (proj1 (List.Forall_forall _ _) Hok b Hin) as Hb.
      apply (block_ok_ext p); try assumption. intros _. now rewrite Eb.
  - (* a block was given back *)
    destruct (live_block _ _ _ Ht Hlive) as (b & Hin & Hp & Hl & Hb & Hend).
    destruct Ht as (Hwf & Hc & Hok). simpl in *.
    pose proof (headerSize_aligned _ Hwf) as Hha.
    apply free_Ok in Hfree as
      (Hnz & Hpa & Hlow & Hhigh & Eex & Ea & Eh & Em & Es & Et & Ec & Eb).
    destruct Hwf as (Wa & Wm & Wh & Wam & Wat & Wmt & Wmax).
    destruct ex.
    + (* it was the top: the stack is popped *)
      symmetry in Eex. apply Z.eqb_eq in Eex. rewrite Hend in Eex.
      destruct bs as [|b0 rest]; [contradiction|].
      pose proof (top_block_is_head _ _ _ _ _ Hc Hin Eex) as ->.
      simpl. rewrite Hp, Z.eqb_refl.
      simpl in Hc. destruct Hc as (_ & _ & Hc).
      inversion Hok as [|? ? _ Hrest]; subst.
      split; [|split]; simpl.
      * unfold pool_wf. rewrite Ea, Eh, Em, Et. repeat split; try assumption.
        now apply isAligned_sub.
      * rewrite Et. now apply (chain_ext p).
      * apply List.Forall_forall. intros b Hinb.
        pose proof (proj1 (List.Forall_forall _ _) Hrest b Hinb) as Hbb.
        apply (block_ok_ext p); try assumption. intros _. now rewrite Eb.
    + (* it was not: the block stays where it is *)
      split; [|split]; simpl.
      * unfold pool_wf. rewrite Ea, Eh, Em, Et. repeat split; assumption.
      * rewrite Et. apply (chain_ext p); [assumption|].
        now apply chain_retire_kept.
      * apply List.Forall_forall. intros d Hd.
        assert (Hd' : block_ok p d).
        { destruct (In_retire_inv _ _ _ _ Hd) as [Hd'|(b' & Hb' & ->)].
          - exact (proj1 (List.Forall_forall _ _) Hok d Hd').
          - apply block_ok_kill. exact (proj1 (List.Forall_forall _ _) Hok b' Hb'). }
        apply (block_ok_ext p); try assumption. intros _. now rewrite Eb.
  - (* reset *)
    destruct Ht as (Hwf & Hc & Hok). simpl in *.
    apply reset_Ok in Hreset as (Ea & Eh & Em & Es & Et & Ec & Eb).
    destruct Hwf as (Wa & Wm & Wh & Wam & Wat & Wmt & Wmax).
    split; [|split]; simpl; [|exact I|constructor].
    unfold pool_wf. rewrite Ea, Eh, Em, Et. repeat split; try assumption. lia.
Qed.

Lemma reachable_tracks t : reachable t -> tracks t.
Proof.
  induction 1 as [chunk bytes size a p Hc Hmax Ha Hcr|op t t' _ IH Hstep].
  - exact (tracks_create _ _ _ _ _ Hc Hmax Ha Hcr).
  - exact (tracks_step _ _ _ IH Hstep).
Qed.
(** *** Blocks freed out of order stay on the stack *)

Lemma In_retire_kill p limit bs b :
  chain p limit bs -> In b bs -> In (kill b) (retire (b_ptr b) false bs).
Proof.
  revert limit. induction bs as [|b0 bs IH]; simpl; [tauto|].
  intros limit Hc Hin.
  destruct (Z.eqb_spec (b_ptr b0) (b_ptr b)) as [E|E].
  - assert (b0 = b) as ->.
    { apply (chain_ptr_unique p limit (b0 :: bs)); simpl; auto. }
    now left.
  - destruct Hin as [->|Hin]; [contradiction|].
    right. destruct Hc as (_ & _ & Hc). exact (IH _ Hc Hin).
Qed.

Lemma op_step_headerSize op t t' :
  op_step op t t' -> m_headerSize (fst t') = m_headerSize (fst t).
Proof.
  destruct 1 as [p bs size al out p' _ Hal _|p bs size al p' _ Hal
                |p bs ptr ex p' _ Hfree|p bs p' Hreset]; simpl.
  - apply allocate_Ok in Hal. tauto.
  - apply allocate_Ok in Hal. tauto.
  - apply free_Ok in Hfree. tauto.
  - apply reset_Ok in Hreset. tauto.
Qed.

Lemma dead_block_stays op t t' d :
  tracks t -> op_step op t t' -> is_reset op = false ->
  In d (snd t) -> b_live d = false -> In d (snd t').
Proof.
  intros Ht Hstep Hop Hin Hdead.
  destruct Hstep as [p bs size al out p' _ _ _|p bs size al p' _ _
                    |p bs ptr ex p' Hlive _|p bs p' _]; simpl in *.
  - now right.
  - exact Hin.
  - apply In_retire_other; [exact Hin|].
    intros Hp. destruct Hlive as (b & Hb & Hbp & Hbl).
    destruct Ht as (_ & Hc & _). simpl in Hc.
    assert (d = b) by (apply (chain_ptr_unique p (m_top p) bs); congruence).
    congruence.
  - discriminate.
Qed.

Lemma no_reset_steps_keep t t' d :
  no_reset_steps t t' -> tracks t -> In d (snd t) -> b_live d = false ->
  tracks t' /\ In d (snd t') /\ m_headerSize (fst t') = m_headerSize (fst t).
Proof.
  induction 1 as [t|op t t' t'' _ IH Hop Hstep]; intros Ht Hin Hdead.
  - auto.
  - destruct (IH Ht Hin Hdead) as (Ht' & Hin' & Hh).
    split; [exact (tracks_step _ _ _ Ht' Hstep)|]. split.
    + exact (dead_block_stays _ _ _ _ Ht' Hstep Hop Hin' Hdead).
    + rewrite (op_step_headerSize _ _ _ Hstep). exact Hh.
Qed.

(** *** [allocate] when the request fits and when it does not *)

Lemma allocate_fits p size alignment :
  pool_wf p -> alignment <= m_alignmentBytes p ->
  rounded p size < MAX_U32 -> fits p size ->
  exists p',
    allocate p size alignment = Ok (m_top p + m_headerSize p, p') /\
    m_top p' = m_top p + rounded p size /\
    m_allocationsCount p' = wrap32 (m_allocationsCount p + 1).
Proof.
  intros Hwf Ha Hmax Hfit.
  pose proof (headerSize_aligned _ Hwf) as Hha.
  destruct Hwf as (Wa & Wm & Wh & Wam & Wat & Wmt & Wmax).
  unfold allocate. fold (rounded p size).
  rewrite assert_bind_true by (apply negb_true_iff, Z.eqb_neq; lia).
  rewrite assert_bind_true by (now apply Z.leb_le).
  rewrite assert_bind_true by (now apply Z.ltb_lt).
  unfold fits in Hfit.
  destruct (Z.leb_spec (m_top p + rounded p size) (m_memory p + m_memsize p));
    [|lia].
  rewrite assert_bind_true by (now apply isAligned_add).
  eexists. split; [reflexivity|]. simpl. split; reflexivity.
Qed.

Lemma allocate_exhausted p size alignment :
  m_memory p <> 0 -> alignment <= m_alignmentBytes p ->
  rounded p size < MAX_U32 -> ~ fits p size ->
  exists p', allocate p size alignment = Ok (0, p') /\
             m_allocationsCount p' = m_allocationsCount p.
Proof.
  intros Hm Ha Hmax Hfit.
  unfold allocate. fold (rounded p size).
  rewrite assert_bind_true by (now apply negb_true_iff, Z.eqb_neq).
  rewrite assert_bind_true by (now apply Z.leb_le).
  rewrite assert_bind_true by (now apply Z.ltb_lt).
  unfold fits in Hfit.
  destruct (Z.leb_spec (m_top p + rounded p size) (m_memory p + m_memsize p));
    [lia|].
  eexists. split; reflexivity.
Qed.

(** [free] of a live pointer passes every assertion. *)
Lemma free_live_returns p bs ptr :
  tracks (p, bs) -> live bs ptr -> exists exchange p', free p ptr = Ok (exchange, p').
Proof.
  intros Ht Hlive.
  destruct (live_block _ _ _ Ht Hlive) as (b & Hin & Hp & Hl & Hb & Hend).
  destruct Ht as (Hwf & Hc & Hok). simpl in *.
  pose proof (headerSize_ge _ Hwf) as Hhs.
  unfold sizeof_MemoryBlockHeader, sizeof_U32 in Hhs.
  destruct Hwf as (Wa & Wm & Wh & Wam & Wat & Wmt & Wmax).
  destruct Hb as (B1 & B2 & B3 & B4 & B5).
  unfold block_end in Hend. unfold b_end, b_start in *. subst ptr.
  unfold free.
  rewrite assert_bind_true.
  2:{ apply andb_true_iff. split; [|assumption].
      apply negb_true_iff, Z.eqb_neq. lia. }
  rewrite assert_bind_true by (apply negb_true_iff, Z.eqb_neq; lia).
  rewrite assert_bind_true by (now apply Z.leb_le).
  rewrite assert_bind_true by (apply Z.leb_le; lia).
  eexists _, _. reflexivity.
Qed.
(** *** The claims about the pool *)

(** C10, amended.  Take a pool built by [create] and used with
    requests that do not wrap around 2^64 ([no_wrap]), and let [ptr] be
    a pointer that [allocate] returned and that has not been freed
    since.  Then [free ptr] returns; it decrements the allocation count
    by one (as a [U32]); it answers [true] exactly when the block of
    [ptr] ends at the top of the stack, which is what the
    compare-exchange tests, and not whenever the block is the most
    recent one outstanding.  On [true] the top is rolled back to the
    start of the block, and the block was the most recent one on the
    stack.  On [false] the top stays, and as long as [reset] is not
    called every block that [allocate] hands out begins at or after the
    end of the freed block: its memory is not used again. *)
Theorem free_top_of_stack p bs ptr :
  reachable (p, bs) -> live bs ptr ->
  exists exchange p',
    free p ptr = Ok (exchange, p') /\
    m_allocationsCount p' = wrap32 (m_allocationsCount p - 1) /\
    (exchange = true <-> block_end p ptr = m_top p) /\
    (exchange = true ->
       m_top p' = ptr - m_headerSize p /\ m_top p' < m_top p /\
       exists b rest, bs = b :: rest /\ b_ptr b = ptr) /\
    (exchange = false ->
       m_top p' = m_top p /\
       forall q bs_q size alignment out q',
         no_reset_steps (p', retire ptr false bs) (q, bs_q) ->
         allocate q size alignment = Ok (out, q') -> out <> 0 ->
         block_end p ptr <= out - m_headerSize q).
Proof.
  intros Hreach Hlive.
  pose proof (reachable_tracks _ Hreach) as Ht.
  destruct (free_live_returns _ _ _ Ht Hlive) as (ex & p' & Hfree).
  exists ex, p'. split; [exact Hfree|].
  assert (Hstep : op_step (OpFree ptr) (p, bs) (p', retire ptr ex bs))
    by (now constructor).
  pose proof (tracks_step _ _ _ Ht Hstep) as Ht'.
  destruct (live_block _ _ _ Ht Hlive) as (b & Hin & Hp & Hl & Hb & Hend).
  pose proof (free_Ok _ _ _ _ Hfree) as
    (Hnz & Hpa & Hlow & Hhigh & Eex & Ea & Eh & Em & Es & Et & Ec & Eb).
  split; [exact Ec|]. split; [|split].
  - rewrite Eex. rewrite Z.eqb_eq. split; congruence.
  - intros ->. rewrite Et. split; [reflexivity|].
    symmetry in Eex. apply Z.eqb_eq in Eex.
    destruct Ht as (Hwf & Hc & Hok). simpl in *.
    destruct (chain_In _ _ _ _ Hc Hin) as [_ Hpos].
    split.
    + rewrite Eex, Hend. unfold b_end, b_start. lia.
    + destruct bs as [|b0 rest]; [contradiction|].
      rewrite Hend in Eex.
      pose proof (top_block_is_head _ _ _ _ _ Hc Hin Eex) as <-.
      now exists b, rest.
  - intros ->. rewrite Et. split; [reflexivity|].
    intros q bs_q size al out q' Hsteps Hal Hout.
    assert (Hk : In (kill b) (retire ptr false bs)).
    { subst ptr. destruct Ht as (_ & Hc & _). simpl in Hc.
      exact (In_retire_kill _ _ _ _ Hc Hin). }
    destruct (no_reset_steps_keep _ _ (kill b) Hsteps Ht' Hk eq_refl)
      as ((Hwfq & Hcq & _) & Hinq & Hhq).
    simpl in *.
    destruct (chain_In _ _ _ _ Hcq Hinq) as [Hle _].
    apply allocate_Ok in Hal as
      (_ & _ & _ & _ & _ & _ & _ & _ & [(_ & Eo & _)|(_ & Eo & _)]);
      [|contradiction].
    rewrite Hend. unfold b_end, b_start in *. simpl in Hle.
    rewrite Hhq, Eh in *. lia.
Qed.

(** A request that does not fit in what is left of the memory makes [Implementation::allocate] return the null pointer,
    and [StackMemoryPool::allocate] hands that null pointer on; the
    allocator then throws from [allocate], and so from [newArray] and
    [newInstance], which call it first. *)
Lemma exhausted_arena_throws a pool p n sizeof_value alignment :
  mpool a = Some pool -> m_impl pool = Some p ->
  m_memory p <> 0 -> alignment <= m_alignmentBytes p ->
  rounded p (wrapPtr (n * sizeof_value)) < MAX_U32 -> ~ fits p (wrapPtr (n * sizeof_value)) ->
  (exists p', allocate p (wrapPtr (n * sizeof_value)) alignment = Ok (0, p')) /\
  (exists pool', StackMemoryPool_allocate pool (wrapPtr (n * sizeof_value)) alignment
                 = Ok (0, pool')) /\
  StackAllocator_allocate a n sizeof_value alignment = Thrown /\
  StackAllocator_newArray a n sizeof_value alignment = Thrown.
Proof.
  intros Ha Hp Hm Hal Hmax Hfit.
  destruct (allocate_exhausted _ _ _ Hm Hal Hmax Hfit) as (p' & Hp' & _).
  assert (Hpool : StackMemoryPool_allocate pool (wrapPtr (n * sizeof_value)) alignment
                  = Ok (0, mkPool (Some p'))).
  { unfold StackMemoryPool_allocate. rewrite Hp. simpl. rewrite Hp'. reflexivity. }
  assert (Hthrow : StackAllocator_allocate a n sizeof_value alignment = Thrown).
  { unfold StackAllocator_allocate. rewrite Ha. simpl. rewrite Hpool. reflexivity. }
  split; [now exists p'|]. split; [eexists; exact Hpool|]. split; [exact Hthrow|].
  exact Hthrow.
Qed.

End StackFacts.

(** ** Facts about the thread hive *)

Module HiveFacts.
Import Stack StackFacts Hive.

(** *** The arena and [newSemaphore] *)

Lemma arena_Some a p :
  arena a = Some p <-> exists pool, mpool a = Some pool /\ m_impl pool = Some p.
Proof.
  unfold arena. destruct (mpool a) as [pool|]; simpl.
  - split; [intros H; now exists pool|intros (pool' & E & H); congruence].
  - split; [discriminate|intros (pool' & E & _); discriminate].
Qed.

Lemma StackAllocator_allocate_Ok a n sz al out a' :
  StackAllocator_allocate a n sz al = Ok (out, a') ->
  out <> 0 /\
  exists p p', arena a = Some p /\ arena a' = Some p' /\
               allocate p (wrapPtr (n * sz)) al = Ok (out, p').
Proof.
  unfold StackAllocator_allocate, StackMemoryPool_allocate. intros H.
  apply assert_bind_Ok in H as [_ H].
  destruct (mpool a) as [pool|] eqn:Ea; [|discriminate].
  unfold mbind at 1, Result_bind at 1 in H.
  destruct (ANKI_ASSERT _ ;; _) as [[out' pool']| |] eqn:Hpool; try discriminate.
  apply assert_bind_Ok in Hpool as [_ Hpool].
  destruct (m_impl pool) as [p|] eqn:Ep; [|discriminate].
  unfold mbind, Result_bind in Hpool.
  destruct (allocate p (wrapPtr (n * sz)) al) as [[o p']| |] eqn:Hal; try discriminate.
  injection Hpool as <- <-. simpl in H.
  destruct (Z.eqb_spec o 0); simpl in H; [discriminate|].
  injection H as <- <-. split; [assumption|].
  exists p, p'. split; [apply arena_Some; now exists pool|].
  split; [reflexivity|exact Hal].
Qed.

Lemma StackAllocator_allocate_fits a p n sz al :
  arena a = Some p -> pool_wf p -> al <= m_alignmentBytes p ->
  rounded p (wrapPtr (n * sz)) < MAX_U32 -> fits p (wrapPtr (n * sz)) ->
  exists a' p',
    StackAllocator_allocate a n sz al = Ok (m_top p + m_headerSize p, a') /\
    arena a' = Some p' /\ allocate p (wrapPtr (n * sz)) al = Ok (m_top p + m_headerSize p, p').
Proof.
  intros Ha Hwf Hal Hmax Hfit.
  apply arena_Some in Ha as (pool & Ea & Ep).
  destruct (allocate_fits _ _ _ Hwf Hal Hmax Hfit) as (p' & Hp' & _).
  pose proof (headerSize_ge _ Hwf) as Hhs.
  unfold sizeof_MemoryBlockHeader, sizeof_U32 in Hhs.
  destruct Hwf as (Wa & Wm & Wh & Wam & Wat & Wmt & Wmax).
  exists (mkAlloc (Some (mkPool (Some p')))), p'.
  split; [|split; [reflexivity|exact Hp']].
  unfold StackAllocator_allocate, StackMemoryPool_allocate.
  rewrite Ea. simpl. rewrite Ep. simpl. rewrite Hp'. simpl.
  destruct (Z.eqb_spec (m_top p + m_headerSize p) 0); [lia|]. reflexivity.
Qed.

Lemma newSemaphore_Ok h v sem h' :
  newSemaphore h v = Ok (sem, h') ->
  0 < v /\ sem <> 0 /\
  exists a' p p',
    arena (m_alloc h) = Some p /\ arena a' = Some p' /\
    allocate p semaphore_request alignof_ThreadHiveSemaphore = Ok (sem, p') /\
    h' = with_alloc h a' (<[sem := mkSem v]> (m_semaphores h)).
Proof.
  unfold newSemaphore. intros H.
  apply assert_bind_Ok in H as [Hv H]. apply Z.ltb_lt in Hv.
  unfold mbind, Result_bind in H.
  destruct (StackAllocator_allocate _ _ _ _) as [[out a']| |] eqn:Hal;
    try discriminate.
  injection H as <- <-. simpl.
  apply StackAllocator_allocate_Ok in Hal as (Hnz & p & p' & Hp & Hp' & Hal).
  split; [assumption|]. split; [assumption|].
  exists a', p, p'. repeat split; assumption.
Qed.
Lemma tiny_pool_wf : pool_wf tiny_pool.
Proof.
  unfold pool_wf, tiny_pool, MAX_U32. simpl. repeat split; try lia; reflexivity.
Qed.

Lemma small_pool_wf : pool_wf small_pool.
Proof.
  unfold pool_wf, small_pool, MAX_U32. simpl. repeat split; try lia; reflexivity.
Qed.

Example tiny_pool_created :
  Stack.create 4096 zero_memory 16 16 = Ok (Stack.NONE, tiny_pool).
Proof. reflexivity. Qed.

Example small_pool_created :
  Stack.create 4096 zero_memory 256 16 = Ok (Stack.NONE, small_pool).
Proof. reflexivity. Qed.

Lemma tiny_hive_initial : initial tiny_hive.
Proof.
  exists 1%nat, (allocator_of tiny_pool), tiny_pool.
  split; [unfold MAX_THREADS; lia|]. split; [reflexivity|].
  split; [exact tiny_pool_wf|reflexivity].
Qed.

Lemma small_hive_initial : initial small_hive.
Proof.
  exists 1%nat, (allocator_of small_pool), small_pool.
  split; [unfold MAX_THREADS; lia|]. split; [reflexivity|].
  split; [exact small_pool_wf|reflexivity].
Qed.

Lemma initial_reachable h : initial h -> reachable h.
Proof. intros H. exists h, []. split; [exact H|constructor]. Qed.

(** C5, as stated, fails: on a scheduler whose arena has no room left
    [newSemaphore 1] returns no handle. *)
Lemma newSemaphore_full_arena :
  ~ (forall h v, reachable h -> 0 < v -> isU32 v ->
       exists sem h', newSemaphore h v = Ok (sem, h') /\ load h' sem = v).
Proof.
  intros H.
  destruct (H tiny_hive 1 (initial_reachable _ tiny_hive_initial))
    as (sem & h' & E & _); [lia|unfold isU32, MAX_U32; lia|].
  vm_compute in E. discriminate E.
Qed.

(** C5, amended.  [newSemaphore 0] fails its assertion.  For every
    [initialValue > 0], when the arena has room for the block of a
    semaphore, [newSemaphore] takes that block from the top of the
    arena and returns its address, and the counter found there equals
    [initialValue]; when the arena has no room, the call ends with the
    exception of the allocator. *)
Theorem newSemaphore_contract h p v :
  arena (m_alloc h) = Some p -> pool_wf p ->
  alignof_ThreadHiveSemaphore <= m_alignmentBytes p ->
  rounded p semaphore_request < MAX_U32 ->
  newSemaphore h 0 = AssertFailed /\
  (0 < v -> fits p semaphore_request ->
   exists sem h' p',
     newSemaphore h v = Ok (sem, h') /\
     sem = m_top p + m_headerSize p /\
     arena (m_alloc h') = Some p' /\
     m_top p' = m_top p + rounded p semaphore_request /\
     m_semaphores h' !! sem = Some (mkSem v) /\
     load h' sem = v) /\
  (0 < v -> ~ fits p semaphore_request -> newSemaphore h v = Thrown).
Proof.
  intros Ha Hwf Hal Hmax. split; [reflexivity|]. split.
  - intros Hv Hfit.
    destruct (StackAllocator_allocate_fits _ _ sizeof_ThreadHiveSemaphore sizeof_U8 _
                Ha Hwf Hal Hmax Hfit) as (a' & p' & Hall & Ha' & Hp').
    apply allocate_Ok in Hp' as (_ & _ & _ & _ & _ & _ & _ & Et & _).
    exists (m_top p + m_headerSize p),
           (with_alloc h a' (<[m_top p + m_headerSize p := mkSem v]> (m_semaphores h))),
           p'.
    split.
    { unfold newSemaphore.
      rewrite assert_bind_true by (now apply Z.ltb_lt).
      rewrite Hall. reflexivity. }
    split; [reflexivity|]. split; [exact Ha'|]. split; [exact Et|].
    unfold load. simpl. rewrite lookup_insert_eq. split; reflexivity.
  - intros Hv Hfit.
    apply arena_Some in Ha as (pool & Ea & Ep).
    destruct Hwf as (_ & Wm & _).
    destruct (exhausted_arena_throws (m_alloc h) pool p
                sizeof_ThreadHiveSemaphore sizeof_U8 alignof_ThreadHiveSemaphore
                Ea Ep ltac:(lia) Hal Hmax Hfit) as (_ & _ & Hthrow & _).
    unfold newSemaphore.
    rewrite assert_bind_true by (now apply Z.ltb_lt).
    rewrite Hthrow. reflexivity.
Qed.

Lemma newSemaphore_contract_witness :
  arena (m_alloc small_hive) = Some small_pool /\ pool_wf small_pool /\
  alignof_ThreadHiveSemaphore <= m_alignmentBytes small_pool /\
  rounded small_pool semaphore_request < MAX_U32 /\
  0 < 3 /\ fits small_pool semaphore_request /\
  newSemaphore small_hive 0 = AssertFailed /\
  exists sem h', newSemaphore small_hive 3 = Ok (sem, h') /\ load h' sem = 3.
Proof.
  assert (H1 : arena (m_alloc small_hive) = Some small_pool) by reflexivity.
  assert (H2 : alignof_ThreadHiveSemaphore <= m_alignmentBytes small_pool)
    by (vm_compute; discriminate).
  assert (H3 : rounded small_pool semaphore_request < MAX_U32) by reflexivity.
  assert (H4 : 0 < 3) by lia.
  assert (H5 : fits small_pool semaphore_request) by (vm_compute; discriminate).
  split; [exact H1|]. split; [exact small_pool_wf|].
  split; [exact H2|]. split; [exact H3|]. split; [exact H4|]. split; [exact H5|].
  destruct (newSemaphore_contract small_hive small_pool 3 H1 small_pool_wf H2 H3)
    as (Hzero & Hpos & _).
  split; [exact Hzero|].
  destruct (Hpos H4 H5) as (sem & h' & p' & E & _ & _ & _ & _ & L).
  exists sem, h'. split; [exact E|exact L].
Defined.

(** *** Semaphores *)

Lemma load_lookup h sem s : m_semaphores h !! sem = Some s -> load h sem = m_atomic s.
Proof. unfold load. now intros ->. Qed.

Lemma load_increase h sem s :
  m_semaphores h !! sem = Some s ->
  load (increase h sem) sem = wrap32 (m_atomic s + 1).
Proof.
  intros Hs. unfold load, increase. simpl. now rewrite lookup_alter_eq, Hs.
Qed.

(** C9.  [increaseSemaphore] adds one to the 32-bit unsigned counter of
    the semaphore it is called on, wrapping at 2^32; the result is a
    [U32], so never below 0; the other semaphores and every other member
    of the scheduler are as before. *)
Theorem increaseSemaphore_adds_one h sem s :
  m_semaphores h !! sem = Some s -> isU32 (m_atomic s) ->
  m_atomic (increaseSemaphore s) = wrap32 (m_atomic s + 1) /\
  (m_atomic s < MAX_U32 -> m_atomic (increaseSemaphore s) = m_atomic s + 1) /\
  (m_atomic s = MAX_U32 -> m_atomic (increaseSemaphore s) = 0) /\
  load (increase h sem) sem = m_atomic (increaseSemaphore s) /\
  0 <= load (increase h sem) sem <= MAX_U32 /\
  (forall sem', sem' <> sem ->
     m_semaphores (increase h sem) !! sem' = m_semaphores h !! sem') /\
  dom (m_semaphores (increase h sem)) = dom (m_semaphores h) /\
  m_alloc (increase h sem) = m_alloc h /\
  m_threadCount (increase h sem) = m_threadCount h /\
  m_queue (increase h sem) = m_queue h /\
  m_waiting (increase h sem) = m_waiting h /\
  m_running (increase h sem) = m_running h /\
  m_quit (increase h sem) = m_quit h /\
  m_pendingTasks (increase h sem) = m_pendingTasks h /\
  m_submitted (increase h sem) = m_submitted h.
Proof.
  intros Hs Hr. unfold isU32, MAX_U32 in *.
  pose proof (load_increase _ _ _ Hs) as Hl.
  split; [reflexivity|]. split; [|split; [|split; [|split; [|split; [|split]]]]].
  - intros Hlt. unfold increaseSemaphore, fetchAdd. simpl.
    apply wrap32_small. unfold MAX_U32. lia.
  - intros E. unfold increaseSemaphore, fetchAdd. simpl. rewrite E. reflexivity.
  - exact Hl.
  - rewrite Hl. apply wrap32_range.
  - intros sem' Hne. unfold increase. simpl. now apply lookup_alter_ne.
  - unfold increase. simpl. apply dom_alter_L.
  - repeat split; reflexivity.
Qed.

Lemma increaseSemaphore_adds_one_witness :
  let h := with_semaphores small_hive {[ 4112 := mkSem MAX_U32 ]} in
  m_semaphores h !! 4112 = Some (mkSem MAX_U32) /\ isU32 MAX_U32 /\
  load (increase h 4112) 4112 = 0.
Proof.
  intros h.
  assert (H1 : m_semaphores h !! 4112 = Some (mkSem MAX_U32)) by reflexivity.
  assert (H2 : isU32 (m_atomic (mkSem MAX_U32)))
    by (unfold isU32, MAX_U32; simpl; lia).
  split; [exact H1|]. split; [exact H2|].
  destruct (increaseSemaphore_adds_one h 4112 _ H1 H2) as (_ & _ & Hmax & Hl & _).
  rewrite Hl. apply Hmax. reflexivity.
Defined.

(** *** Submission *)

Lemma gate_open_semaphores h h' t :
  m_semaphores h' = m_semaphores h -> gate_open h' t = gate_open h t.
Proof. unfold gate_open, load. now intros ->. Qed.

Lemma foldl_place h tasks :
  let h' := foldl place h tasks in
  m_queue h' = m_queue h ++ filter (ready h) (stamp (m_submitted h) tasks) /\
  m_waiting h' =
    m_waiting h ++ filter (fun c => ~ ready h c) (stamp (m_submitted h) tasks) /\
  m_submitted h' = (m_submitted h + length tasks)%nat /\
  m_alloc h' = m_alloc h /\ m_semaphores h' = m_semaphores h /\
  m_threadCount h' = m_threadCount h /\ m_running h' = m_running h /\
  m_quit h' = m_quit h /\ m_pendingTasks h' = m_pendingTasks h.
Proof.
  revert h. induction tasks as [|t ts IH]; intros h; simpl.
  - rewrite !app_nil_r, Nat.add_0_r. repeat split; reflexivity.
  - destruct (IH (place h t)) as (HQ & HW & HN & HA & HM & HT & HR & HU & HP).
    assert (Hg : forall c, ready (place h t) c <-> ready h c).
    { intros c. unfold ready. rewrite (gate_open_semaphores h (place h t)); [tauto|].
      unfold place. destruct (gate_open h t); reflexivity. }
    assert (Hg' : forall c, ~ ready (place h t) c <-> ~ ready h c).
    { intros c. now rewrite Hg. }
    rewrite HQ, HW, HN, HA, HM, HT, HR, HU, HP.
    rewrite (list_filter_iff _ _ _ Hg), (list_filter_iff _ _ _ Hg').
    rewrite !filter_cons.
    assert (Hn : m_submitted (place h t) = S (m_submitted h)).
    { unfold place. destruct (gate_open h t); reflexivity. }
    rewrite Hn.
    destruct (decide (ready h (mkHTask (m_submitted h) t))) as [Hr|Hr];
      destruct (decide (~ ready h (mkHTask (m_submitted h) t))) as [Hr'|Hr'];
      try tauto; unfold ready in Hr; simpl in Hr; unfold place.
    + rewrite Hr. simpl. rewrite <- !app_assoc. simpl.
      repeat split; try reflexivity. lia.
    + apply not_true_is_false in Hr. rewrite Hr. simpl.
      rewrite <- !app_assoc. simpl.
      repeat split; try reflexivity. lia.
Qed.

(** What [placeTasks] does to each member of the scheduler. *)
Lemma placeTasks_spec h tasks :
  let h' := placeTasks h tasks in
  m_queue h' = m_queue h ++ filter (ready h) (stamp (m_submitted h) tasks) /\
  m_waiting h' =
    m_waiting h ++ filter (fun c => ~ ready h c) (stamp (m_submitted h) tasks) /\
  m_submitted h' = (m_submitted h + length tasks)%nat /\
  m_alloc h' = m_alloc h /\ m_semaphores h' = m_semaphores h /\
  m_threadCount h' = m_threadCount h /\ m_running h' = m_running h /\
  m_quit h' = m_quit h /\
  m_pendingTasks h' = wrap32 (m_pendingTasks h + Z.of_nat (length tasks)).
Proof.
  destruct (foldl_place h tasks) as (Q & W & S & A & M & T & R & U & P).
  unfold placeTasks. simpl. rewrite P.
  repeat split; assumption.
Qed.

(** A submission that returns took the storage of its copies from the
    arena and then placed the batch. *)
Lemma submitTasks_Ok h tasks h' :
  submitTasks h tasks = Ok h' ->
  exists out a' p p',
    out <> 0 /\ arena (m_alloc h) = Some p /\ arena a' = Some p' /\
    allocate p (tasks_request tasks) alignof_Task = Ok (out, p') /\
    h' = placeTasks (with_alloc h a' (m_semaphores h)) tasks.
Proof.
  unfold submitTasks, StackAllocator_newArray. intros H.
  unfold mbind, Result_bind in H.
  destruct (StackAllocator_allocate _ _ _ _) as [[out a']| |] eqn:Hal;
    try discriminate.
  injection H as <-. simpl.
  apply StackAllocator_allocate_Ok in Hal as (Hnz & p & p' & Hp & Hp' & Hal).
  exists out, a', p, p'. repeat split; assumption.
Qed.

(** What a submission that returns does to each member of the
    scheduler. *)
Lemma submitTasks_spec h tasks h' :
  submitTasks h tasks = Ok h' ->
  m_queue h' = m_queue h ++ filter (ready h) (stamp (m_submitted h) tasks) /\
  m_waiting h' =
    m_waiting h ++ filter (fun c => ~ ready h c) (stamp (m_submitted h) tasks) /\
  m_submitted h' = (m_submitted h + length tasks)%nat /\
  (exists out p p',
     out <> 0 /\ arena (m_alloc h) = Some p /\ arena (m_alloc h') = Some p' /\
     allocate p (tasks_request tasks) alignof_Task = Ok (out, p')) /\
  m_semaphores h' = m_semaphores h /\
  m_threadCount h' = m_threadCount h /\ m_running h' = m_running h /\
  m_quit h' = m_quit h /\
  m_pendingTasks h' = wrap32 (m_pendingTasks h + Z.of_nat (length tasks)).
Proof.
  intros H.
  apply submitTasks_Ok in H as (out & a' & p & p' & Hnz & Hp & Hp' & Hal & ->).
  destruct (placeTasks_spec (with_alloc h a' (m_semaphores h)) tasks)
    as (Q & W & S & A & M & T & R & U & P).
  split; [exact Q|]. split; [exact W|]. split; [exact S|].
  split; [exists out, p, p'; rewrite A; repeat split; assumption|].
  split; [exact M|]. split; [exact T|]. split; [exact R|]. split; [exact U|].
  exact P.
Qed.

(** A submission returns when the arena has room for the copies, and
    ends with the exception of the allocator when it has not. *)
Lemma submitTasks_fits h p tasks :
  arena (m_alloc h) = Some p -> pool_wf p ->
  alignof_Task <= m_alignmentBytes p ->
  rounded p (tasks_request tasks) < MAX_U32 ->
  (fits p (tasks_request tasks) -> exists h', submitTasks h tasks = Ok h') /\
  (~ fits p (tasks_request tasks) -> submitTasks h tasks = Thrown).
Proof.
  intros Ha Hwf Hal Hmax. split; intros Hfit.
  - destruct (StackAllocator_allocate_fits _ _ (Z.of_nat (length tasks)) sizeof_Task _
                Ha Hwf Hal Hmax Hfit) as (a' & p' & Hall & _).
    unfold submitTasks, StackAllocator_newArray. rewrite Hall.
    eexists. reflexivity.
  - apply arena_Some in Ha as (pool & Ea & Ep).
    destruct Hwf as (_ & Wm & _).
    destruct (exhausted_arena_throws (m_alloc h) pool p
                (Z.of_nat (length tasks)) sizeof_Task alignof_Task
                Ea Ep ltac:(lia) Hal Hmax Hfit) as (_ & _ & Hthrow & _).
    unfold submitTasks, StackAllocator_newArray. rewrite Hthrow. reflexivity.
Qed.

(** C7.  [submitTask callback arg] is [submitTasks] on the one-element
    array that holds the task with that callback, that argument and
    both semaphores null; when it returns, the task is at the tail of
    the queue and the pending counter has gone up by one. *)
Theorem submitTask_is_submitTasks h callback arg :
  submitTask h callback arg = submitTasks h [mkTask callback arg None None] /\
  (forall h',
     submitTask h callback arg = Ok h' ->
     m_queue h' =
       m_queue h ++ [mkHTask (m_submitted h) (mkTask callback arg None None)] /\
     m_waiting h' = m_waiting h /\
     m_pendingTasks h' = wrap32 (m_pendingTasks h + 1)).
Proof.
  split; [reflexivity|]. intros h' Hsub.
  change (submitTask h callback arg)
    with (submitTasks h [mkTask callback arg None None]) in Hsub.
  destruct (submitTasks_spec _ _ _ Hsub)
    as (HQ & HW & _ & _ & _ & _ & _ & _ & HP).
  rewrite HQ, HW, HP. simpl. rewrite filter_cons, filter_nil.
  destruct (decide _) as [_|Hn]; [|exfalso; apply Hn; reflexivity].
  rewrite filter_cons, filter_nil.
  destruct (decide _) as [Hn|_]; [exfalso; apply Hn; reflexivity|].
  rewrite app_nil_r. repeat split; reflexivity.
Qed.
(** *** Exhaustion of the arena *)

(** C8, as stated, fails at the pool: a request so large that its size
    and the header wrap around 2^64 cannot fit in what is left of the
    memory, and [allocate] answers it with a pointer that is not
    null. *)
Lemma huge_request_not_null :
  ~ (forall p size alignment,
       pool_wf p -> 0 <= size <= MAX_PTR_SIZE ->
       alignment <= m_alignmentBytes p ->
       m_memory p + m_memsize p < m_top p + m_headerSize p + size ->
       exists p', allocate p size alignment = Ok (0, p')).
Proof.
  intros H.
  destruct (H small_pool (MAX_PTR_SIZE - 7) 1 small_pool_wf) as (p' & E).
  - unfold MAX_PTR_SIZE. lia.
  - vm_compute. discriminate.
  - vm_compute. reflexivity.
  - vm_compute in E. discriminate E.
Qed.

Lemma needed_rounded p size :
  pool_wf p -> 0 <= size -> needed p size < MAX_U32 ->
  no_wrap p size /\ rounded p size = needed p size /\ wrapPtr size = size.
Proof.
  intros Hwf Hs Hmax.
  assert (Hnw : no_wrap p size).
  { split; [exact Hs|]. unfold needed, MAX_U32, MAX_PTR_SIZE in *. lia. }
  split; [exact Hnw|]. split; [exact (rounded_no_wrap p size Hwf Hnw)|].
  pose proof (rounded_ge p size Hwf Hnw) as Hge.
  rewrite (rounded_no_wrap p size Hwf Hnw) in Hge.
  pose proof (headerSize_ge _ Hwf) as Hhs.
  unfold sizeof_MemoryBlockHeader, sizeof_U32 in Hhs.
  apply wrapPtr_small. unfold needed, MAX_U32, MAX_PTR_SIZE in *. lia.
Qed.

(** C8, amended.  Take a request whose size with header and padding
    ([needed]) is below 2^32, the sizes [allocate] accepts.  When that
    does not fit in what is left of the arena, the pool's [allocate]
    returns the null pointer, the pool handle passes it on, and the
    allocator turns it into an exception, which ends [allocate] and
    [newArray]; [newSemaphore] ends with that exception when the arena
    has no room for a semaphore, [submitTasks] and [submitTask] end
    with it when the arena has no room for the copies of the tasks.  No
    call returns a pointer or a scheduler in these cases. *)
Theorem allocation_failure_reaches_caller h pool p :
  mpool (m_alloc h) = Some pool -> m_impl pool = Some p -> pool_wf p ->
  (forall size alignment,
     alignment <= m_alignmentBytes p -> 0 <= size ->
     needed p size < MAX_U32 ->
     m_memory p + m_memsize p < m_top p + needed p size ->
     (exists p', allocate p size alignment = Ok (0, p')) /\
     (exists pool', StackMemoryPool_allocate pool size alignment = Ok (0, pool')) /\
     (forall n sizeof_value,
        n * sizeof_value = size ->
        StackAllocator_allocate (m_alloc h) n sizeof_value alignment = Thrown /\
        StackAllocator_newArray (m_alloc h) n sizeof_value alignment = Thrown)) /\
  (forall initialValue,
     0 < initialValue ->
     alignof_ThreadHiveSemaphore <= m_alignmentBytes p ->
     needed p sizeof_ThreadHiveSemaphore < MAX_U32 ->
     m_memory p + m_memsize p < m_top p + needed p sizeof_ThreadHiveSemaphore ->
     newSemaphore h initialValue = Thrown) /\
  (forall tasks,
     alignof_Task <= m_alignmentBytes p ->
     needed p (Z.of_nat (length tasks) * sizeof_Task) < MAX_U32 ->
     m_memory p + m_memsize p
       < m_top p + needed p (Z.of_nat (length tasks) * sizeof_Task) ->
     submitTasks h tasks = Thrown) /\
  (forall callback arg,
     alignof_Task <= m_alignmentBytes p ->
     needed p sizeof_Task < MAX_U32 ->
     m_memory p + m_memsize p < m_top p + needed p sizeof_Task ->
     submitTask h callback arg = Thrown).
Proof.
  intros Ea Ep Hwf.
  assert (Hm : m_memory p <> 0) by (destruct Hwf as (_ & Wm & _); lia).
  assert (Hgen : forall n sizeof_value alignment,
            alignment <= m_alignmentBytes p -> 0 <= n * sizeof_value ->
            needed p (n * sizeof_value) < MAX_U32 ->
            m_memory p + m_memsize p < m_top p + needed p (n * sizeof_value) ->
            (exists p', allocate p (n * sizeof_value) alignment = Ok (0, p')) /\
            (exists pool', StackMemoryPool_allocate pool (n * sizeof_value) alignment
                           = Ok (0, pool')) /\
            StackAllocator_allocate (m_alloc h) n sizeof_value alignment = Thrown /\
            StackAllocator_newArray (m_alloc h) n sizeof_value alignment = Thrown).
  { intros n sz al Hal Hs Hmax Hfull.
    destruct (needed_rounded p _ Hwf Hs Hmax) as (_ & Hr & Hw).
    pose proof (exhausted_arena_throws (m_alloc h) pool p n sz al Ea Ep Hm Hal) as X.
    rewrite Hw in X. apply X.
    - rewrite Hr. exact Hmax.
    - unfold fits. rewrite Hr. lia. }
  split; [|split; [|split]].
  - intros size al Hal Hs Hmax Hfull.
    destruct (Hgen size 1 al Hal) as (H1 & H2 & _);
      rewrite ?Z.mul_1_r; try assumption.
    rewrite Z.mul_1_r in H1, H2.
    split; [exact H1|]. split; [exact H2|].
    intros n sz E. subst size.
    destruct (Hgen n sz al Hal Hs Hmax Hfull) as (_ & _ & H3 & H4).
    split; assumption.
  - intros v Hv Hal Hmax Hfull.
    destruct (Hgen sizeof_ThreadHiveSemaphore sizeof_U8 alignof_ThreadHiveSemaphore Hal)
      as (_ & _ & Hthrow & _);
      try (change (sizeof_ThreadHiveSemaphore * sizeof_U8)
             with sizeof_ThreadHiveSemaphore; assumption).
    { vm_compute. discriminate. }
    unfold newSemaphore.
    rewrite assert_bind_true by (now apply Z.ltb_lt).
    rewrite Hthrow. reflexivity.
  - intros tasks Hal Hmax Hfull.
    destruct (Hgen (Z.of_nat (length tasks)) sizeof_Task alignof_Task Hal)
      as (_ & _ & _ & Hthrow); try assumption.
    { unfold sizeof_Task. lia. }
    unfold submitTasks. rewrite Hthrow. reflexivity.
  - intros callback arg Hal Hmax Hfull.
    destruct (Hgen 1 sizeof_Task alignof_Task Hal)
      as (_ & _ & _ & Hthrow);
      try (change (1 * sizeof_Task) with sizeof_Task; assumption).
    { vm_compute. discriminate. }
    unfold submitTask, submitTasks. simpl length.
    change (Z.of_nat 1) with 1. rewrite Hthrow. reflexivity.
Qed.

Lemma allocation_failure_reaches_caller_witness :
  mpool (m_alloc tiny_hive) = Some (mkPool (Some tiny_pool)) /\
  m_impl (mkPool (Some tiny_pool)) = Some tiny_pool /\
  pool_wf tiny_pool /\
  newSemaphore tiny_hive 7 = Thrown /\
  submitTasks tiny_hive [child] = Thrown.
Proof.
  assert (H1 : mpool (m_alloc tiny_hive) = Some (mkPool (Some tiny_pool)))
    by reflexivity.
  assert (H2 : m_impl (mkPool (Some tiny_pool)) = Some tiny_pool) by reflexivity.
  split; [exact H1|]. split; [exact H2|]. split; [exact tiny_pool_wf|].
  destruct (allocation_failure_reaches_caller tiny_hive _ _ H1 H2 tiny_pool_wf)
    as (_ & Hsem & Hsub & _).
  split.
  - apply Hsem.
    + lia.
    + vm_compute. discriminate.
    + vm_compute. reflexivity.
    + vm_compute. reflexivity.
  - apply Hsub.
    + vm_compute. discriminate.
    + vm_compute. reflexivity.
    + vm_compute. reflexivity.
Defined.

Lemma submitTask_is_submitTasks_witness :
  exists h',
    submitTask small_hive 9 0 = Ok h' /\
    m_queue h' = [mkHTask 0 (mkTask 9 0 None None)].
Proof.
  assert (H : submitTask small_hive 9 0 = Ok (after_submit small_hive [child]))
    by reflexivity.
  exists (after_submit small_hive [child]). split; [exact H|].
  exact (proj1 (proj2 (submitTask_is_submitTasks small_hive 9 0) _ H)).
Defined.

(** *** What each operation does to the members *)

Lemma stamp_handles n tasks : t_handle <$> stamp n tasks = seq n (length tasks).
Proof.
  revert n. induction tasks as [|t ts IH]; intros n; simpl; [reflexivity|].
  now rewrite <- IH.
Qed.

Lemma elem_of_stamp n tasks c :
  c ∈ stamp n tasks ->
  t_task c ∈ tasks /\ (n <= t_handle c < n + length tasks)%nat.
Proof.
  revert n. induction tasks as [|t ts IH]; intros n; simpl.
  - intros H. inversion H.
  - intros H. apply elem_of_cons in H as [->|H]; simpl.
    + split; [left|lia].
    + destruct (IH _ H) as [H1 H2]. split; [now right|lia].
Qed.

Lemma stamp_tasks n tasks : t_task <$> stamp n tasks = tasks.
Proof.
  revert n. induction tasks as [|t ts IH]; intros n; [reflexivity|].
  cbn [stamp]. rewrite fmap_cons. cbn [t_task]. f_equal. apply IH.
Qed.

Lemma length_stamp n tasks : length (stamp n tasks) = length tasks.
Proof. revert n. induction tasks; intros n; simpl; [|rewrite IHtasks]; reflexivity. Qed.

Lemma takeTask_spec h threadId t h' :
  takeTask h threadId = Some (t, h') ->
  m_queue h = t :: m_queue h' /\
  m_running h' = <[threadId := t]> (m_running h) /\
  m_waiting h' = m_waiting h /\
  m_alloc h' = m_alloc h /\ m_semaphores h' = m_semaphores h /\
  m_threadCount h' = m_threadCount h /\ m_quit h' = m_quit h /\
  m_pendingTasks h' = m_pendingTasks h /\ m_submitted h' = m_submitted h.
Proof.
  unfold takeTask, getNewTask. destruct (m_queue h) as [|c rest] eqn:Eq;
    [discriminate|].
  intros H. injection H as <- <-. simpl. repeat split; reflexivity.
Qed.

Lemma signal_spec h sem :
  let h' := signal h sem in
  m_semaphores h' = alter (fun s => fetchSub s 1) sem (m_semaphores h) /\
  m_alloc h' = m_alloc h /\ m_threadCount h' = m_threadCount h /\
  m_running h' = m_running h /\ m_quit h' = m_quit h /\
  m_pendingTasks h' = m_pendingTasks h /\ m_submitted h' = m_submitted h /\
  ((load h' sem = 0 /\
    m_queue h' = m_queue h ++ filter (fun c => waits_on sem c = true) (m_waiting h) /\
    m_waiting h' = filter (fun c => waits_on sem c <> true) (m_waiting h))
   \/
   (load h' sem <> 0 /\ m_queue h' = m_queue h /\ m_waiting h' = m_waiting h)).
Proof.
  unfold signal.
  set (hd := with_semaphores h (alter (fun s => fetchSub s 1) sem (m_semaphores h))).
  destruct (Z.eqb_spec (load hd sem) 0) as [E|E]; simpl.
  - repeat split; try reflexivity. left. repeat split; try reflexivity. exact E.
  - repeat split; try reflexivity. right. repeat split; try reflexivity. exact E.
Qed.

Lemma completeTask_spec h threadId t :
  m_running h !! threadId = Some t ->
  let h1 := match m_signalSemaphore (t_task t) with
            | Some sem => signal h sem
            | None => h
            end in
  let h' := completeTask h threadId in
  m_queue h' = m_queue h1 /\ m_waiting h' = m_waiting h1 /\
  m_semaphores h' = m_semaphores h1 /\
  m_running h' = delete threadId (m_running h) /\
  m_pendingTasks h' = wrap32 (m_pendingTasks h - 1) /\
  m_alloc h' = m_alloc h /\ m_threadCount h' = m_threadCount h /\
  m_quit h' = m_quit h /\ m_submitted h' = m_submitted h.
Proof.
  intros Hr. unfold completeTask. rewrite Hr. simpl.
  destruct (m_signalSemaphore (t_task t)) as [sem|]; simpl.
  - destruct (signal_spec h sem) as (_ & A & T & R & Q & P & N & _).
    rewrite A, T, R, Q, P, N. repeat split; reflexivity.
  - repeat split; reflexivity.
Qed.

(** The wake-scan splits the waiting list in two and moves one part. *)
Lemma signal_lists h sem :
  m_queue (signal h sem) ++ m_waiting (signal h sem) ≡ₚ m_queue h ++ m_waiting h.
Proof.
  destruct (signal_spec h sem) as (_ & _ & _ & _ & _ & _ & _ & [(_ & Q & W)|(_ & Q & W)]);
    rewrite Q, W; [|reflexivity].
  rewrite <- app_assoc. apply Permutation_app_head.
  apply (filter_app_complement (fun c => waits_on sem c = true)).
Qed.

Lemma complete_lists h threadId t :
  m_running h !! threadId = Some t ->
  m_queue (completeTask h threadId) ++ m_waiting (completeTask h threadId)
  ≡ₚ m_queue h ++ m_waiting h.
Proof.
  intros Hr. destruct (completeTask_spec h threadId t Hr) as (Q & W & _).
  rewrite Q, W. destruct (m_signalSemaphore (t_task t)); [|reflexivity].
  apply signal_lists.
Qed.

Lemma submit_lists h tasks h' :
  submitTasks h tasks = Ok h' ->
  m_queue h' ++ m_waiting h'
  ≡ₚ (m_queue h ++ m_waiting h) ++ stamp (m_submitted h) tasks.
Proof.
  intros Hsub.
  destruct (submitTasks_spec _ _ _ Hsub) as (Q & W & _). rewrite Q, W.
  rewrite <- (filter_app_complement (ready h) (stamp (m_submitted h) tasks)) at 3.
  rewrite <- !app_assoc. apply Permutation_app_head.
  rewrite !app_assoc. apply Permutation_app_tail. apply Permutation_app_comm.
Qed.

Lemma hive_handles_lists h :
  hive_handles h =
  (t_handle <$> (m_queue h ++ m_waiting h)) ++
  (t_handle <$> (map_to_list (m_running h)).*2).
Proof. unfold hive_handles. now rewrite fmap_app, app_assoc. Qed.

Lemma submit_handles h tasks h' :
  submitTasks h tasks = Ok h' ->
  hive_handles h'
  ≡ₚ hive_handles h ++ seq (m_submitted h) (length tasks).
Proof.
  intros Hsub. rewrite !hive_handles_lists, (submit_lists _ _ _ Hsub).
  destruct (submitTasks_spec _ _ _ Hsub) as (_ & _ & _ & _ & _ & _ & R & _).
  rewrite R, fmap_app, stamp_handles.
  rewrite <- !app_assoc. apply Permutation_app_head. apply Permutation_app_comm.
Qed.

Lemma take_handles h threadId t h' :
  m_running h !! threadId = None ->
  takeTask h threadId = Some (t, h') ->
  hive_handles h' ≡ₚ hive_handles h.
Proof.
  intros Hidle Htake.
  destruct (takeTask_spec _ _ _ _ Htake) as (Q & R & W & _).
  unfold hive_handles. rewrite Q, R, W.
  rewrite (map_to_list_insert _ _ _ Hidle). rewrite !fmap_cons. cbn [snd].
  rewrite <- app_comm_cons.
  rewrite <- (Permutation_middle (t_handle <$> m_waiting h)).
  rewrite <- (Permutation_middle (t_handle <$> m_queue h')). reflexivity.
Qed.

Lemma complete_handles h threadId t :
  m_running h !! threadId = Some t ->
  hive_handles h ≡ₚ t_handle t :: hive_handles (completeTask h threadId).
Proof.
  intros Hr. rewrite !hive_handles_lists.
  rewrite (complete_lists _ _ _ Hr).
  destruct (completeTask_spec h threadId t Hr) as (_ & _ & _ & R & _).
  rewrite R. rewrite <- (map_to_list_delete _ _ _ Hr).
  rewrite !fmap_cons. cbn [snd]. symmetry. apply Permutation_middle.
Qed.
(** *** Who is outstanding after a step *)

Lemma outstanding_submit h tasks h' c :
  submitTasks h tasks = Ok h' ->
  outstanding h' c ->
  outstanding h c \/ c ∈ stamp (m_submitted h) tasks.
Proof.
  intros Hsub.
  destruct (submitTasks_spec _ _ _ Hsub) as (Q & W & _ & _ & _ & _ & R & _).
  unfold outstanding, queued. rewrite Q, W, R.
  rewrite !elem_of_app, !list_elem_of_filter. tauto.
Qed.

Lemma outstanding_take h threadId t h' c :
  takeTask h threadId = Some (t, h') -> outstanding h' c -> outstanding h c.
Proof.
  intros Htake. destruct (takeTask_spec _ _ _ _ Htake) as (Q & R & W & _).
  unfold outstanding, queued. rewrite Q, R, W.
  intros [[H|H]|(w & H)].
  - left. left. now right.
  - left. now right.
  - rewrite lookup_insert in H. destruct (decide (threadId = w)).
    + injection H as <-. left. left. now left.
    + right. now exists w.
Qed.

Lemma queued_signal h sem c : queued (signal h sem) c <-> queued h c.
Proof.
  unfold queued. rewrite <- !elem_of_app. now rewrite (signal_lists h sem).
Qed.

Lemma outstanding_complete h threadId t c :
  m_running h !! threadId = Some t ->
  outstanding (completeTask h threadId) c -> outstanding h c.
Proof.
  intros Hr. destruct (completeTask_spec h threadId t Hr) as (_ & _ & _ & R & _).
  unfold outstanding. rewrite R. intros [H|(w & H)].
  - left. unfold queued in *. rewrite <- elem_of_app in *.
    now rewrite (complete_lists _ _ _ Hr) in H.
  - right. exists w. apply lookup_delete_Some in H. tauto.
Qed.

(** A task leaves the scheduler only by completing. *)
Lemma outstanding_step h ev h' c :
  step h ev h' -> outstanding h c ->
  outstanding h' c \/ exists threadId w, ev = EvComplete threadId c w.
Proof.
  intros Hstep Hout.
  destruct Hstep as [h v sem h' Hv Hnew|h tasks h' Hvalid Hlen Hsub|h w t h' Hw Hidle Htake
                    |h w t Hr|h sem Hsem|h Hwait].
  - left. apply newSemaphore_Ok in Hnew as (_ & _ & a' & p & p' & _ & _ & _ & ->).
    exact Hout.
  - left. destruct (submitTasks_spec _ _ _ Hsub) as (Q & W & _ & _ & _ & _ & R & _).
    unfold outstanding, queued in *. rewrite Q, W, R, !elem_of_app. tauto.
  - left. destruct (takeTask_spec _ _ _ _ Htake) as (Q & R & W & _).
    unfold outstanding, queued in *. rewrite R, W. rewrite Q in Hout.
    destruct Hout as [[H|H]|(w' & H)].
    + apply elem_of_cons in H as [->|H]; [|now left; left].
      right. exists w. apply lookup_insert_eq.
    + left. now right.
    + right. exists w'. rewrite lookup_insert_ne; [exact H|]. congruence.
  - destruct (completeTask_spec h w t Hr) as (_ & _ & _ & R & _).
    unfold outstanding in *. rewrite R.
    destruct Hout as [H|(w' & H)].
    + left. left. unfold queued in *. rewrite <- elem_of_app in *.
      now rewrite (complete_lists _ _ _ Hr).
    + destruct (decide (w' = w)) as [->|Hne].
      * right. exists w, (woken_by h t). congruence.
      * left. right. exists w'. now rewrite lookup_delete_ne.
  - left. exact Hout.
  - left. exact Hout.
Qed.

(** *** Counting the outstanding tasks *)

Lemma outstanding_count_lists h :
  outstanding_count h =
  Z.of_nat (length (m_queue h ++ m_waiting h) + size (m_running h)).
Proof. unfold outstanding_count. now rewrite length_app. Qed.

Lemma count_submit h tasks h' :
  submitTasks h tasks = Ok h' ->
  outstanding_count h'
  = outstanding_count h + Z.of_nat (length tasks).
Proof.
  intros Hsub. rewrite !outstanding_count_lists, (submit_lists _ _ _ Hsub).
  destruct (submitTasks_spec _ _ _ Hsub) as (_ & _ & _ & _ & _ & _ & R & _).
  rewrite R, length_app, length_stamp. lia.
Qed.

Lemma count_take h threadId t h' :
  m_running h !! threadId = None ->
  takeTask h threadId = Some (t, h') ->
  outstanding_count h' = outstanding_count h.
Proof.
  intros Hidle Htake.
  destruct (takeTask_spec _ _ _ _ Htake) as (Q & R & W & _).
  unfold outstanding_count. rewrite Q, R, W.
  rewrite (map_size_insert_None _ _ _ Hidle). simpl. lia.
Qed.

Lemma count_complete h threadId t :
  m_running h !! threadId = Some t ->
  outstanding_count h = outstanding_count (completeTask h threadId) + 1.
Proof.
  intros Hr. rewrite !outstanding_count_lists, (complete_lists _ _ _ Hr).
  destruct (completeTask_spec h threadId t Hr) as (_ & _ & _ & R & _).
  rewrite R, map_size_delete, Hr.
  assert (size (m_running h) <> 0%nat).
  { intros E. apply map_size_empty_inv in E. rewrite E in Hr. discriminate. }
  simpl. lia.
Qed.

Lemma wrap32_sub_l a b : wrap32 (wrap32 a - b) = wrap32 (a - b).
Proof. unfold wrap32. now rewrite Zminus_mod_idemp_l. Qed.
(** *** Every step keeps the scheduler well formed *)

Lemma semaphores_complete h threadId t :
  m_running h !! threadId = Some t ->
  m_semaphores (completeTask h threadId) =
  match m_signalSemaphore (t_task t) with
  | Some sem => alter (fun s => fetchSub s 1) sem (m_semaphores h)
  | None => m_semaphores h
  end.
Proof.
  intros Hr. destruct (completeTask_spec h threadId t Hr) as (_ & _ & M & _).
  rewrite M. destruct (m_signalSemaphore (t_task t)) as [sem|]; [|reflexivity].
  now destruct (signal_spec h sem) as (-> & _).
Qed.

Lemma known_step h ev h' sem :
  step h ev h' ->
  is_Some (m_semaphores h !! sem) -> is_Some (m_semaphores h' !! sem).
Proof.
  intros Hstep Hk.
  destruct Hstep as [h v sem' h' Hv Hnew|h tasks h' Hvalid Hlen Hsub|h w t h' Hw Hidle Htake
                    |h w t Hr|h sem' Hsem|h Hwait].
  - apply newSemaphore_Ok in Hnew as (_ & _ & a' & p & p' & _ & _ & _ & ->).
    simpl. apply lookup_insert_is_Some. destruct (decide (sem' = sem)); auto.
  - now destruct (submitTasks_spec _ _ _ Hsub) as (_ & _ & _ & _ & -> & _).
  - now destruct (takeTask_spec _ _ _ _ Htake) as (_ & _ & _ & _ & -> & _).
  - rewrite (semaphores_complete _ _ _ Hr).
    destruct (m_signalSemaphore (t_task t)); [|exact Hk].
    now apply lookup_alter_is_Some.
  - unfold increase. simpl. now apply lookup_alter_is_Some.
  - exact Hk.
Qed.

Lemma task_valid_step h ev h' t :
  step h ev h' -> task_valid h t -> task_valid h' t.
Proof.
  intros Hstep [Hw Hs]. unfold task_valid, known in *.
  destruct (m_waitSemaphore t), (m_signalSemaphore t);
    repeat split; eauto using known_step.
Qed.

Lemma alter_counters (f : ThreadHiveSemaphore -> ThreadHiveSemaphore)
    (m : gmap Z ThreadHiveSemaphore) sem :
  (forall s, isU32 (m_atomic (f s))) ->
  (forall i s, m !! i = Some s -> isU32 (m_atomic s)) ->
  forall i s, alter f sem m !! i = Some s -> isU32 (m_atomic s).
Proof.
  intros Hf Hm i s. rewrite lookup_alter. destruct (decide (sem = i)) as [->|].
  - destruct (m !! i); simpl; [|discriminate]. intros H. injection H as <-. apply Hf.
  - apply Hm.
Qed.

Lemma initial_wf h : initial h -> hive_wf h.
Proof.
  intros (n & a & p & Hn & Ha & Hp & ->). constructor; simpl.
  - exists p. split; [exact Ha|]. split; [exact Hp|].
    intros sem [s Hs]. rewrite lookup_empty in Hs. discriminate.
  - intros sem s Hs. rewrite lookup_empty in Hs. discriminate.
  - intros c [[H|H]|(w & H)]; simpl in H.
    + inversion H.
    + inversion H.
    + rewrite lookup_empty in H. discriminate.
  - unfold hive_handles. simpl. rewrite map_to_list_empty. constructor.
  - unfold hive_handles. simpl. rewrite map_to_list_empty. constructor.
  - reflexivity.
Qed.

Lemma step_wf h ev h' : hive_wf h -> step h ev h' -> hive_wf h'.
Proof.
  intros [(p & Ha & Hp & Htop) Hc Hv Hnd Hb Hpe] Hstep.
  pose proof Hstep as Hstep'.
  destruct Hstep as [h v sem h' Hu Hnew|h tasks h' Hvalid Hlen Hsub|h w t h' Hw Hidle Htake
                    |h w t Hr|h sem Hsem|h Hwait].
  - (* newSemaphore *)
    apply newSemaphore_Ok in Hnew as (_ & Hnz & a' & p0 & p' & Ha0 & Ha' & Hal & ->).
    assert (p0 = p) as -> by congruence.
    assert (Hnw : no_wrap p semaphore_request).
    { apply no_wrap_small; [exact Hp|].
      change semaphore_request with 4. unfold MAX_U32. lia. }
    assert (Hstack : op_step (OpAllocate semaphore_request alignof_ThreadHiveSemaphore)
                       (p, []) (p', [mkBlock sem (rounded p semaphore_request) true])).
    { apply step_allocate_ok; [|exact Hal|exact Hnz].
      exact Hnw. }
    assert (Ht : tracks (p, [])) by (split; [exact Hp|split; [exact I|constructor]]).
    pose proof (tracks_step _ _ _ Ht Hstack) as (Hp' & (Hend & Hpos & _) & _).
    simpl in Hp', Hend, Hpos. unfold b_end, b_start in Hend. simpl in Hend.
    pose proof (headerSize_ge _ Hp) as Hhs.
    unfold sizeof_MemoryBlockHeader, sizeof_U32 in Hhs.
    pose proof (headerSize_le _ Hp) as Hle.
    pose proof (rounded_ge p semaphore_request Hp Hnw) as Hrd.
    change semaphore_request with 4 in Hrd at 1.
    apply allocate_Ok in Hal as (_ & _ & _ & _ & Eh & _ & _ & Et & _).
    constructor; simpl.
    + exists p'. split; [exact Ha'|]. split; [exact Hp'|].
      intros s Hs. apply lookup_insert_is_Some in Hs as [<-|[_ Hs]].
      * rewrite Eh in Hend. lia.
      * specialize (Htop _ Hs). lia.
    + intros s x. rewrite lookup_insert. destruct (decide (sem = s)).
      * intros H. injection H as <-. exact Hu.
      * apply Hc.
    + intros c Hout. apply (task_valid_step _ _ _ _ Hstep'). now apply Hv.
    + exact Hnd.
    + exact Hb.
    + exact Hpe.
  - (* submitTasks *)
    destruct (submitTasks_spec _ _ _ Hsub) as (Q & W & N & A & M & T & R & U & P).
    destruct A as (out & p0 & p' & Hnz & Ha0 & Ha' & Hal).
    assert (p0 = p) as -> by congruence.
    assert (Hnw : no_wrap p (tasks_request tasks)).
    { apply no_wrap_small; [exact Hp|]. unfold tasks_request.
      rewrite wrapPtr_small; unfold sizeof_Task, MAX_U32, MAX_PTR_SIZE in *; lia. }
    assert (Hstack : op_step (OpAllocate (tasks_request tasks) alignof_Task)
                       (p, []) (p', [mkBlock out (rounded p (tasks_request tasks)) true])).
    { apply step_allocate_ok; [exact Hnw|exact Hal|exact Hnz]. }
    assert (Ht : tracks (p, [])) by (split; [exact Hp|split; [exact I|constructor]]).
    pose proof (tracks_step _ _ _ Ht Hstack) as (Hp' & _).
    simpl in Hp'.
    pose proof (rounded_ge p (tasks_request tasks) Hp Hnw) as Hrd.
    pose proof (headerSize_ge _ Hp) as Hhs.
    unfold sizeof_MemoryBlockHeader, sizeof_U32 in Hhs.
    apply allocate_Ok in Hal as (_ & _ & _ & _ & _ & _ & _ & Et & _).
    constructor.
    + exists p'. split; [exact Ha'|]. split; [exact Hp'|].
      intros s Hs. rewrite M in Hs. specialize (Htop _ Hs).
      destruct Hnw as [Hnw _]. lia.
    + now rewrite M.
    + intros c Hout. destruct (outstanding_submit _ _ _ _ Hsub Hout) as [H|H].
      * apply (task_valid_step _ _ _ _ Hstep'). now apply Hv.
      * apply (task_valid_step _ _ _ _ Hstep').
        apply elem_of_stamp in H as [H _].
        exact (proj1 (Forall_forall _ _) Hvalid _ H).
    + rewrite (submit_handles _ _ _ Hsub). apply NoDup_app. split; [exact Hnd|].
      split; [|apply NoDup_seq].
      intros n Hn Hs. apply elem_of_seq in Hs.
      pose proof (proj1 (Forall_forall _ _) Hb _ Hn). simpl in *. lia.
    + rewrite (submit_handles _ _ _ Hsub), N. apply Forall_app. split.
      * eapply Forall_impl; [exact Hb|]. simpl. intros; lia.
      * apply Forall_forall. intros n Hs. apply elem_of_seq in Hs. lia.
    + rewrite P, Hpe, (count_submit _ _ _ Hsub). apply wrap32_add_l.
  - (* a worker takes a task *)
    destruct (takeTask_spec _ _ _ _ Htake) as (Q & R & W & A & M & T & U & P & N).
    constructor.
    + rewrite A, M. now exists p.
    + now rewrite M.
    + intros c Hout. apply (task_valid_step _ _ _ _ Hstep').
      apply Hv. exact (outstanding_take _ _ _ _ _ Htake Hout).
    + now rewrite (take_handles _ _ _ _ Hidle Htake).
    + now rewrite (take_handles _ _ _ _ Hidle Htake), N.
    + rewrite P, Hpe. now rewrite (count_take _ _ _ _ Hidle Htake).
  - (* a worker completes a task *)
    destruct (completeTask_spec h w t Hr) as (_ & _ & _ & R & P & A & T & U & N).
    pose proof (complete_handles _ _ _ Hr) as Hperm.
    constructor.
    + rewrite A. exists p. split; [exact Ha|]. split; [exact Hp|].
      intros sem Hs. apply Htop. rewrite (semaphores_complete _ _ _ Hr) in Hs.
      destruct (m_signalSemaphore (t_task t)); [|exact Hs].
      now apply lookup_alter_is_Some in Hs.
    + rewrite (semaphores_complete _ _ _ Hr).
      destruct (m_signalSemaphore (t_task t)); [|exact Hc].
      apply alter_counters; [|exact Hc]. intros s. apply wrap32_range.
    + intros c Hout. apply (task_valid_step _ _ _ _ Hstep').
      apply Hv. exact (outstanding_complete _ _ _ _ Hr Hout).
    + rewrite Hperm in Hnd. now apply NoDup_cons in Hnd as [_ Hnd].
    + rewrite Hperm in Hb. apply Forall_cons in Hb as [_ Hb]. now rewrite N.
    + rewrite P, Hpe, (count_complete _ _ _ Hr).
      rewrite wrap32_sub_l. f_equal. lia.
  - (* increaseSemaphore *)
    constructor; simpl.
    + exists p. split; [exact Ha|]. split; [exact Hp|].
      intros s Hs. apply Htop. now apply lookup_alter_is_Some in Hs.
    + apply alter_counters; [|exact Hc]. intros s. apply wrap32_range.
    + intros c Hout. apply (task_valid_step _ _ _ _ Hstep'). now apply Hv.
    + exact Hnd.
    + exact Hb.
    + exact Hpe.
  - (* waitAllTasks returns *)
    constructor; eauto.
Qed.

Lemma trace_wf h evs h' : hive_wf h -> trace h evs h' -> hive_wf h'.
Proof.
  intros Hwf. induction 1 as [h|h evs h' ev h'' _ IH Hstep]; [exact Hwf|].
  exact (step_wf _ _ _ (IH Hwf) Hstep).
Qed.

Lemma reachable_wf h : reachable h -> hive_wf h.
Proof.
  intros (h0 & evs & Hinit & Htr).
  exact (trace_wf _ _ _ (initial_wf _ Hinit) Htr).
Qed.
(** *** The sample executions *)

Lemma reachable_step h ev h' : reachable h -> step h ev h' -> reachable h'.
Proof.
  intros (h0 & evs & Hinit & Htr) Hstep.
  exists h0, (evs ++ [ev]). split; [exact Hinit|].
  exact (trace_snoc _ _ _ _ _ Htr Hstep).
Qed.

Lemma trace_one h ev h' : step h ev h' -> trace h [ev] h'.
Proof. intros H. exact (trace_snoc h [] h ev h' (trace_nil h) H). Qed.

Lemma trace_app h evs h' evs' h'' :
  trace h evs h' -> trace h' evs' h'' -> trace h (evs ++ evs') h''.
Proof.
  intros H1 H2. induction H2 as [h'|h' evs' h2 ev h3 _ IH Hstep].
  - now rewrite app_nil_r.
  - rewrite app_assoc. exact (trace_snoc _ _ _ _ _ (IH H1) Hstep).
Qed.

Lemma trace_cons h ev h' evs h'' :
  step h ev h' -> trace h' evs h'' -> trace h (ev :: evs) h''.
Proof. intros H1 H2. exact (trace_app _ [ev] _ _ _ (trace_one _ _ _ H1) H2). Qed.

Lemma step_g : step small_hive (EvNewSemaphore 1 sem_g) hive_g.
Proof. apply step_newSemaphore; [unfold isU32, MAX_U32; lia|reflexivity]. Qed.

Lemma known_g : is_Some (m_semaphores hive_g !! sem_g).
Proof. exists (mkSem 1). reflexivity. Qed.

Lemma valid_g t :
  (m_waitSemaphore t = None \/ m_waitSemaphore t = Some sem_g) ->
  (m_signalSemaphore t = None \/ m_signalSemaphore t = Some sem_g) ->
  task_valid hive_g t.
Proof.
  intros [Hw|Hw] [Hs|Hs]; unfold task_valid, known; rewrite Hw, Hs;
    split; try exact I; exact known_g.
Qed.

(** A submission to [hive_g] of tasks that name no other semaphore. *)
Ltac submit_to_hive_g :=
  apply step_submit;
  [repeat constructor; apply valid_g; simpl; auto
  |vm_compute; discriminate
  |reflexivity].

Lemma step_submitted : step hive_g (EvSubmit [taskA; taskB]) hive_submitted.
Proof. submit_to_hive_g. Qed.

Lemma step_running :
  step hive_submitted (EvTake 0 (mkHTask 0 taskA)) hive_running.
Proof. apply step_take; [vm_compute; lia|reflexivity|reflexivity]. Qed.

Lemma step_completed :
  step hive_running (EvComplete 0 (mkHTask 0 taskA) [mkHTask 1 taskB]) hive_completed.
Proof.
  exact (step_complete hive_running 0 (mkHTask 0 taskA) eq_refl).
Qed.

Lemma reachable_running : reachable hive_running.
Proof.
  eapply reachable_step; [|exact step_running].
  eapply reachable_step; [|exact step_submitted].
  eapply reachable_step; [|exact step_g].
  exact (initial_reachable _ small_hive_initial).
Qed.
(** *** Submission and wake *)

Lemma ready_iff h c :
  ready h c <->
  m_waitSemaphore (t_task c) = None \/
  exists sem, m_waitSemaphore (t_task c) = Some sem /\ load h sem = 0.
Proof.
  unfold ready, gate_open. destruct (m_waitSemaphore (t_task c)) as [sem|].
  - rewrite Z.eqb_eq. split.
    + intros H. right. now exists sem.
    + intros [H|(sem' & H & E)]; [discriminate|congruence].
  - split; [now left|reflexivity].
Qed.

Lemma waits_on_iff sem c :
  waits_on sem c = true <-> m_waitSemaphore (t_task c) = Some sem.
Proof. unfold waits_on. apply bool_decide_eq_true. Qed.

Lemma queue_waiting_disjoint h c :
  hive_wf h -> c ∈ m_queue h -> c ∈ m_waiting h -> False.
Proof.
  intros Hwf Hq Hw. pose proof (wf_nodup _ Hwf) as Hnd.
  unfold hive_handles in Hnd. apply NoDup_app in Hnd as (_ & Hd & _).
  apply (Hd (t_handle c)).
  - now apply list_elem_of_fmap_2.
  - apply elem_of_app. left. now apply list_elem_of_fmap_2.
Qed.

(** The decrement of a signal gate that exists. *)
Lemma load_signal h sem s :
  m_semaphores h !! sem = Some s ->
  load (signal h sem) sem = wrap32 (m_atomic s - 1).
Proof.
  intros Hs. destruct (signal_spec h sem) as (M & _).
  unfold load. rewrite M, lookup_alter_eq, Hs. reflexivity.
Qed.

Lemma wrap32_pred_zero z : isU32 z -> wrap32 (z - 1) = 0 -> z = 1.
Proof.
  unfold isU32, MAX_U32, wrap32. intros Hz H.
  destruct (Z.eq_dec z 0) as [->|Hne]; [discriminate H|].
  rewrite Z.mod_small in H by lia. lia.
Qed.

(** A task leaves the waiting list only in the wake-scan of a
    completion that brought its gate from 1 to 0. *)
Lemma leaves_waiting h ev h' c :
  hive_wf h -> step h ev h' ->
  c ∈ m_waiting h -> c ∉ m_waiting h' ->
  exists threadId t sem,
    ev = EvComplete threadId t (woken_by h t) /\
    m_signalSemaphore (t_task t) = Some sem /\
    m_waitSemaphore (t_task c) = Some sem /\
    load h sem = 1 /\ load h' sem = 0 /\
    c ∈ woken_by h t /\ c ∈ m_queue h'.
Proof.
  intros Hwf Hstep Hin Hout.
  destruct Hstep as [h v sem h' Hv Hnew|h tasks h' Hvalid Hlen Hsub|h w t h' Hw Hidle Htake
                    |h w t Hr|h sem Hsem|h Hwait].
  - apply newSemaphore_Ok in Hnew as (_ & _ & a' & p & p' & _ & _ & _ & ->).
    contradiction.
  - destruct (submitTasks_spec _ _ _ Hsub) as (_ & W & _).
    rewrite W, elem_of_app in Hout. tauto.
  - destruct (takeTask_spec _ _ _ _ Htake) as (_ & _ & W & _).
    rewrite W in Hout. contradiction.
  - destruct (completeTask_spec h w t Hr) as (Q & W & M & _).
    assert (Hval : task_valid h (t_task t)).
    { apply (wf_valid _ Hwf). right. now exists w. }
    unfold woken_by. rewrite Q, W in *.
    destruct (m_signalSemaphore (t_task t)) as [sem|] eqn:Es; [|contradiction].
    unfold task_valid, known in Hval. rewrite Es in Hval.
    destruct Hval as [_ [s Hs]].
    pose proof (load_signal _ _ _ Hs) as Hl.
    destruct (signal_spec h sem) as (_ & _ & _ & _ & _ & _ & _ & [(Hz & Q' & W')|(Hz & Q' & W')]).
    2:{ rewrite W' in Hout. contradiction. }
    rewrite W' in Hout. rewrite list_elem_of_filter in Hout.
    assert (Hc : waits_on sem c = true).
    { destruct (waits_on sem c); [reflexivity|]. exfalso. apply Hout.
      split; [discriminate|exact Hin]. }
    exists w, t, sem. rewrite Es.
    assert (Hone : m_atomic s = 1).
    { apply wrap32_pred_zero; [exact (wf_counters _ Hwf _ _ Hs)|congruence]. }
    assert (Hl' : load (completeTask h w) sem = load (signal h sem) sem)
      by (unfold load; now rewrite M).
    rewrite Hl', Hz, Z.eqb_refl, Q'.
    split; [reflexivity|]. split; [reflexivity|].
    split; [now apply waits_on_iff|].
    split; [now rewrite (load_lookup _ _ _ Hs)|].
    split; [reflexivity|].
    assert (c ∈ filter (fun c0 => waits_on sem c0 = true) (m_waiting h))
      by (apply list_elem_of_filter; tauto).
    split; [assumption|]. apply elem_of_app. now right.
  - contradiction.
  - contradiction.
Qed.

(** C1, as stated, fails: on a scheduler whose arena has no room left
    a task without wait semaphore is not placed in the ready queue, the
    submission ends with the exception of the allocator. *)
Lemma submitTasks_full_arena :
  ~ (forall h t, reachable h -> m_waitSemaphore t = None ->
       known h (m_signalSemaphore t) ->
       exists h', submitTasks h [t] = Ok h' /\
                  m_queue h' = m_queue h ++ [mkHTask (m_submitted h) t]).
Proof.
  intros H.
  destruct (H tiny_hive child (initial_reachable _ tiny_hive_initial)
              eq_refl I) as (h' & E & _).
  vm_compute in E. discriminate E.
Qed.

(** C1, amended.  [submitTasks] first takes the storage of its copies
    from the arena.  When the arena has no room for them the call ends
    with the exception of the allocator and no task is placed.  When it
    has room the call returns, and then it has appended to the ready
    queue, in order, the tasks of the batch that have no wait semaphore
    or whose wait semaphore holds 0 at that time, and it has registered
    the others, in order, in the waiting list.  A task of the waiting
    list reaches the ready queue only in the step that completes a task
    signalling its wait semaphore and brings that counter from 1 to
    0. *)
Theorem submitTasks_places_tasks h p tasks :
  hive_wf h -> arena (m_alloc h) = Some p ->
  alignof_Task <= m_alignmentBytes p ->
  rounded p (tasks_request tasks) < MAX_U32 ->
  let batch := stamp (m_submitted h) tasks in
  (~ fits p (tasks_request tasks) -> submitTasks h tasks = Thrown) /\
  (fits p (tasks_request tasks) -> exists h1, submitTasks h tasks = Ok h1) /\
  (forall h1, submitTasks h tasks = Ok h1 ->
     m_queue h1 = m_queue h ++ filter (ready h) batch /\
     m_waiting h1 = m_waiting h ++ filter (fun c => ~ ready h c) batch /\
     t_task <$> batch = tasks /\
     (forall c, c ∈ batch ->
        (m_waitSemaphore (t_task c) = None \/
         (exists sem, m_waitSemaphore (t_task c) = Some sem /\ load h sem = 0) ->
         c ∈ m_queue h1 /\ c ∉ m_waiting h1) /\
        (forall sem, m_waitSemaphore (t_task c) = Some sem -> load h sem <> 0 ->
         c ∈ m_waiting h1 /\ waits_on sem c = true /\ c ∉ m_queue h1))) /\
  (forall h2 ev h3 c,
     hive_wf h2 -> step h2 ev h3 -> c ∈ m_waiting h2 -> c ∈ m_queue h3 ->
     exists threadId t sem,
       ev = EvComplete threadId t (woken_by h2 t) /\
       m_signalSemaphore (t_task t) = Some sem /\
       m_waitSemaphore (t_task c) = Some sem /\
       load h2 sem = 1 /\ load h3 sem = 0 /\ c ∉ m_waiting h3).
Proof.
  intros Hwf Ha Hal Hmax batch. subst batch.
  assert (Hp : pool_wf p).
  { destruct (wf_arena _ Hwf) as (p0 & Ha0 & Hp0 & _). congruence. }
  destruct (submitTasks_fits h p tasks Ha Hp Hal Hmax) as [Hfit Hfull].
  split; [exact Hfull|]. split; [exact Hfit|]. split.
  - intros h1 Hsub.
    destruct (submitTasks_spec _ _ _ Hsub) as (Q & W & _).
    split; [exact Q|]. split; [exact W|]. split; [apply stamp_tasks|].
    intros c Hc.
    assert (Hfresh : (c ∉ m_queue h) /\ (c ∉ m_waiting h)).
    { apply elem_of_stamp in Hc as [_ Hn].
      pose proof (wf_bound _ Hwf) as Hb. unfold hive_handles in Hb.
      rewrite !Forall_app in Hb. destruct Hb as (Hbq & Hbw & _).
      split; intros Hin.
      - pose proof (proj1 (Forall_forall _ _) Hbq (t_handle c)
                      (list_elem_of_fmap_2 _ _ _ Hin)). simpl in *. lia.
      - pose proof (proj1 (Forall_forall _ _) Hbw (t_handle c)
                      (list_elem_of_fmap_2 _ _ _ Hin)). simpl in *. lia. }
    rewrite Q, W. rewrite !elem_of_app, !list_elem_of_filter. split.
    + intros Hr. apply ready_iff in Hr. tauto.
    + intros sem Hs Hl.
      assert (~ (ready h c)).
      { rewrite ready_iff. intros [H|(sem' & H & E)]; congruence. }
      rewrite !elem_of_app, !list_elem_of_filter.
      split; [tauto|]. split; [now apply waits_on_iff|tauto].
  - intros h2 ev h3 c Hwf2 Hstep Hin Hq.
    assert (Hout : c ∉ m_waiting h3).
    { intros Hw3. exact (queue_waiting_disjoint _ _ (step_wf _ _ _ Hwf2 Hstep) Hq Hw3). }
    destruct (leaves_waiting _ _ _ _ Hwf2 Hstep Hin Hout)
      as (w & t & sem & E1 & E2 & E3 & E4 & E5 & _).
    exists w, t, sem. repeat split; assumption.
Qed.

Lemma submitTasks_places_tasks_witness :
  hive_wf hive_g /\ arena (m_alloc hive_g) = Some pool_g /\
  alignof_Task <= m_alignmentBytes pool_g /\
  rounded pool_g (tasks_request [taskA; taskB]) < MAX_U32 /\
  submitTasks hive_g [taskA; taskB] = Ok hive_submitted /\
  m_queue hive_submitted = [mkHTask 0 taskA] /\
  m_waiting hive_submitted = [mkHTask 1 taskB].
Proof.
  assert (H : hive_wf hive_g).
  { apply reachable_wf. eapply reachable_step; [|exact step_g].
    exact (initial_reachable _ small_hive_initial). }
  assert (H1 : arena (m_alloc hive_g) = Some pool_g) by reflexivity.
  assert (H2 : alignof_Task <= m_alignmentBytes pool_g)
    by (vm_compute; discriminate).
  assert (H3 : rounded pool_g (tasks_request [taskA; taskB]) < MAX_U32)
    by reflexivity.
  assert (H4 : submitTasks hive_g [taskA; taskB] = Ok hive_submitted)
    by reflexivity.
  split; [exact H|]. split; [exact H1|]. split; [exact H2|]. split; [exact H3|].
  split; [exact H4|].
  pose proof (submitTasks_places_tasks hive_g pool_g [taskA; taskB] H H1 H2 H3) as X.
  cbv zeta in X. destruct X as (_ & _ & X & _).
  destruct (X _ H4) as (Q & W & _).
  split; [rewrite Q|rewrite W]; reflexivity.
Defined.

(** *** The invariant of the ready queue *)

Lemma ready_same_loads h h' c :
  (forall sem, m_waitSemaphore (t_task c) = Some sem -> load h' sem = load h sem) ->
  (ready h' c <-> ready h c).
Proof.
  intros Hl. rewrite !ready_iff. split; intros [H|(g & Hg & E)]; try (now left);
    right; exists g; (split; [exact Hg|]).
  - now rewrite <- Hl.
  - now rewrite Hl.
Qed.

Lemma load_alter_ne h h' f sem sem' :
  m_semaphores h' = alter f sem (m_semaphores h) -> sem' <> sem ->
  load h' sem' = load h sem'.
Proof. intros M Hne. unfold load. rewrite M, lookup_alter_ne; congruence. Qed.

(** An event leads to one state. *)
Lemma step_det h ev h1 h2 : step h ev h1 -> step h ev h2 -> h1 = h2.
Proof.
  intros H1 H2. inversion H1; subst; inversion H2; subst; congruence.
Qed.

Lemma trace_nil_inv h h' : trace h [] h' -> h' = h.
Proof.
  intros H. inversion H; subst; [reflexivity|].
  match goal with E : _ ++ [_] = [] |- _ =>
    symmetry in E; destruct (app_cons_not_nil _ _ _ E) end.
Qed.

Lemma trace_snoc_inv h evs ev h'' :
  trace h (evs ++ [ev]) h'' -> exists h', trace h evs h' /\ step h' ev h''.
Proof.
  intros H. inversion H; subst.
  - match goal with E : [] = _ ++ [_] |- _ =>
      destruct (app_cons_not_nil _ _ _ E) end.
  - match goal with E : _ ++ [_] = _ ++ [_] |- _ =>
      apply app_inj_tail in E as [-> ->] end.
    eexists. split; eassumption.
Qed.

Lemma trace_det h evs h1 h2 : trace h evs h1 -> trace h evs h2 -> h1 = h2.
Proof.
  intros H1. revert h2.
  induction H1 as [h|h evs h' ev h'' _ IH Hstep]; intros h2 H2.
  - symmetry. now apply trace_nil_inv.
  - apply trace_snoc_inv in H2 as (hx & Htr & Hst).
    rewrite <- (IH _ Htr) in Hst. exact (step_det _ _ _ _ Hstep Hst).
Qed.

Lemma steady_trace_trace h evs h' : steady_trace h evs h' -> trace h evs h'.
Proof.
  induction 1 as [h|h evs h' ev h'' _ IH _ Hstep]; [constructor|].
  exact (trace_snoc _ _ _ _ _ IH Hstep).
Qed.

Lemma steady_snoc_inv h evs ev h'' :
  steady_trace h (evs ++ [ev]) h'' ->
  exists h', steady_trace h evs h' /\ ~ wraps_waited_gate h' ev /\ step h' ev h''.
Proof.
  intros H. inversion H; subst.
  - match goal with E : [] = _ ++ [_] |- _ =>
      destruct (app_cons_not_nil _ _ _ E) end.
  - match goal with E : _ ++ [_] = _ ++ [_] |- _ =>
      apply app_inj_tail in E as [-> ->] end.
    eexists. repeat split; eassumption.
Qed.

(** The beginning of such an execution is one of them. *)
Lemma steady_prefix h0 evs1 evs2 h :
  steady_trace h0 (evs1 ++ evs2) h ->
  exists h1, steady_trace h0 evs1 h1 /\ trace h1 evs2 h.
Proof.
  revert h. induction evs2 as [|ev evs2 IH] using rev_ind; intros h H.
  - rewrite app_nil_r in H. exists h. split; [exact H|constructor].
  - rewrite app_assoc in H.
    apply steady_snoc_inv in H as (h' & Htr & _ & Hstep).
    destruct (IH _ Htr) as (h1 & H1 & H2). exists h1. split; [exact H1|].
    exact (trace_snoc _ _ _ _ _ H2 Hstep).
Qed.

(** A registered task is not ready: every step keeps this, but for the
    increase that wraps the counter it waits for. *)
Lemma steady_step_waiting h ev h' :
  hive_wf h -> (forall c, c ∈ m_waiting h -> ~ ready h c) ->
  ~ wraps_waited_gate h ev -> step h ev h' ->
  forall c, c ∈ m_waiting h' -> ~ ready h' c.
Proof.
  intros Hwf Hw Hnot Hstep.
  destruct Hstep as [h v sem h' Hv Hnew|h tasks h' Hvalid Hlen Hsub|h w t h' Hidx Hidle Htake
                    |h w t Hr|h sem Hsem|h Hwait].
  - (* a new semaphore is at a fresh address *)
    destruct (wf_arena _ Hwf) as (p & Ha & Hp & Htop).
    apply newSemaphore_Ok in Hnew as (_ & Hnz & a' & p0 & p' & Ha0 & _ & Hal & ->).
    assert (p0 = p) as -> by congruence.
    apply allocate_Ok in Hal as
      (_ & _ & _ & _ & _ & _ & _ & _ & [(_ & Eo & _)|(_ & Eo & _)]); [|contradiction].
    pose proof (headerSize_ge _ Hp) as Hhs.
    unfold sizeof_MemoryBlockHeader, sizeof_U32 in Hhs.
    intros c Hc Hrd. simpl in Hc. apply (Hw c Hc). revert Hrd.
    apply ready_same_loads. intros g Hg.
    assert (Hk : is_Some (m_semaphores h !! g)).
    { destruct (wf_valid _ Hwf c (or_introl (or_intror Hc))) as [Hk _].
      unfold known in Hk. now rewrite Hg in Hk. }
    specialize (Htop _ Hk). unfold load. simpl.
    rewrite lookup_insert_ne; [reflexivity|lia].
  - (* submitTasks registers the tasks that are not ready *)
    destruct (submitTasks_spec _ _ _ Hsub) as (_ & W & _ & _ & M & _).
    assert (Hsame : forall c, ready h' c <-> ready h c).
    { intros c. apply ready_same_loads. intros g _. unfold load. now rewrite M. }
    intros c. rewrite Hsame, W, elem_of_app, list_elem_of_filter.
    intros [H|[H _]]; auto.
  - destruct (takeTask_spec _ _ _ _ Htake) as (_ & _ & W & _ & M & _).
    assert (Hsame : forall c, ready h' c <-> ready h c).
    { intros c. apply ready_same_loads. intros g _. unfold load. now rewrite M. }
    intros c Hc. rewrite Hsame. apply Hw. now rewrite <- W.
  - (* completion: the decrement and its wake-scan *)
    destruct (completeTask_spec h w t Hr) as (_ & W & M & _).
    destruct (m_signalSemaphore (t_task t)) as [sem|] eqn:Es.
    2:{ intros c Hc Hrd. rewrite W in Hc. apply (Hw c Hc). revert Hrd.
        apply ready_same_loads. intros g _. unfold load. now rewrite M. }
    destruct (signal_spec h sem) as (M' & _ & _ & _ & _ & _ & _ & Hcases).
    assert (Hl : forall g, load (completeTask h w) g = load (signal h sem) g)
      by (intros g; unfold load; now rewrite M).
    assert (Hother : forall g, g <> sem -> load (completeTask h w) g = load h g).
    { intros g Hg. rewrite Hl. exact (load_alter_ne _ _ _ _ _ M' Hg). }
    intros c Hc Hrd. rewrite W in Hc.
    assert (Hin : c ∈ m_waiting h).
    { destruct Hcases as [(_ & _ & W')|(_ & _ & W')]; rewrite W' in Hc;
        [|exact Hc]. apply list_elem_of_filter in Hc. tauto. }
    apply ready_iff in Hrd as [Hn|(g & Hg & E)].
    { apply (Hw c Hin), ready_iff. now left. }
    destruct (Z.eq_dec g sem) as [->|Hne].
    + rewrite Hl in E.
      destruct Hcases as [(_ & _ & W')|(Hz & _ & _)]; [|contradiction].
      rewrite W' in Hc. apply list_elem_of_filter in Hc as [Hn _].
      apply Hn. now apply waits_on_iff.
    + apply (Hw c Hin), ready_iff. right. exists g. split; [exact Hg|].
      now rewrite <- Hother.
  - (* increaseSemaphore *)
    destruct Hsem as [s Hs].
    assert (Hother : forall g, g <> sem -> load (increase h sem) g = load h g).
    { intros g Hg. now apply (load_alter_ne h _ increaseSemaphore sem). }
    intros c Hc Hrd. change (c ∈ m_waiting h) in Hc.
    apply ready_iff in Hrd as [Hn|(g & Hg & E)].
    { apply (Hw c Hc), ready_iff. now left. }
    destruct (Z.eq_dec g sem) as [->|Hne].
    + apply Hnot. simpl. split; [|now exists c].
      rewrite (load_increase _ _ _ Hs) in E.
      pose proof (wf_counters _ Hwf _ _ Hs) as Hrange.
      rewrite (load_lookup _ _ _ Hs).
      destruct (Z.eq_dec (m_atomic s) MAX_U32) as [Hm|Hm]; [exact Hm|].
      rewrite wrap32_small in E; unfold isU32, MAX_U32 in *; lia.
    + apply (Hw c Hc), ready_iff. right. exists g. split; [exact Hg|].
      now rewrite <- Hother.
  - exact Hw.
Qed.

Lemma steady_waiting h0 evs h :
  initial h0 -> steady_trace h0 evs h ->
  forall c, c ∈ m_waiting h -> ~ ready h c.
Proof.
  intros Hinit. induction 1 as [h|h evs h' ev h'' Htr IH Hnot Hstep].
  - destruct Hinit as (n & a & p & _ & _ & _ & ->). intros c Hc. inversion Hc.
  - apply (steady_step_waiting h' ev); auto.
    exact (trace_wf _ _ _ (initial_wf _ Hinit) (steady_trace_trace _ _ _ Htr)).
Qed.

(** Handles count the submissions: a task the scheduler holds was
    submitted before, and a task that enters the waiting list is new. *)
Lemma queued_bound h c : hive_wf h -> queued h c -> (t_handle c < m_submitted h)%nat.
Proof.
  intros Hwf Hq. pose proof (wf_bound _ Hwf) as Hb. unfold hive_handles in Hb.
  rewrite !Forall_app in Hb. destruct Hb as (Hbq & Hbw & _).
  destruct Hq as [Hin|Hin].
  - exact (proj1 (Forall_forall _ _) Hbq (t_handle c) (list_elem_of_fmap_2 _ _ _ Hin)).
  - exact (proj1 (Forall_forall _ _) Hbw (t_handle c) (list_elem_of_fmap_2 _ _ _ Hin)).
Qed.

Lemma submitted_step h ev h' : step h ev h' -> (m_submitted h <= m_submitted h')%nat.
Proof.
  intros Hstep.
  destruct Hstep as [h v sem h' Hv Hnew|h tasks h' Hvalid Hlen Hsub|h w t h' Hidx Hidle Htake
                    |h w t Hr|h sem Hsem|h Hwait].
  - apply newSemaphore_Ok in Hnew as (_ & _ & a' & p & p' & _ & _ & _ & ->).
    reflexivity.
  - destruct (submitTasks_spec _ _ _ Hsub) as (_ & _ & -> & _). lia.
  - destruct (takeTask_spec _ _ _ _ Htake) as (_ & _ & _ & _ & _ & _ & _ & _ & ->).
    reflexivity.
  - destruct (completeTask_spec h w t Hr) as (_ & _ & _ & _ & _ & _ & _ & _ & ->).
    reflexivity.
  - reflexivity.
  - reflexivity.
Qed.

Lemma submitted_trace h evs h' : trace h evs h' -> (m_submitted h <= m_submitted h')%nat.
Proof.
  induction 1 as [h|h evs h' ev h'' _ IH Hstep]; [reflexivity|].
  pose proof (submitted_step _ _ _ Hstep). lia.
Qed.

Lemma waiting_origin h ev h' c :
  step h ev h' -> c ∈ m_waiting h' ->
  c ∈ m_waiting h \/ (m_submitted h <= t_handle c)%nat.
Proof.
  intros Hstep Hc.
  destruct Hstep as [h v sem h' Hv Hnew|h tasks h' Hvalid Hlen Hsub|h w t h' Hidx Hidle Htake
                    |h w t Hr|h sem Hsem|h Hwait].
  - apply newSemaphore_Ok in Hnew as (_ & _ & a' & p & p' & _ & _ & _ & ->).
    now left.
  - destruct (submitTasks_spec _ _ _ Hsub) as (_ & W & _).
    rewrite W, elem_of_app, list_elem_of_filter in Hc.
    destruct Hc as [Hc|[_ Hc]]; [now left|right].
    apply elem_of_stamp in Hc. lia.
  - destruct (takeTask_spec _ _ _ _ Htake) as (_ & _ & W & _).
    left. now rewrite <- W.
  - destruct (completeTask_spec h w t Hr) as (_ & W & _). rewrite W in Hc.
    left. destruct (m_signalSemaphore (t_task t)) as [sem|]; [|exact Hc].
    destruct (signal_spec h sem)
      as (_ & _ & _ & _ & _ & _ & _ & [(_ & _ & W')|(_ & _ & W')]);
      rewrite W' in Hc; [|exact Hc].
    apply list_elem_of_filter in Hc. tauto.
  - now left.
  - now left.
Qed.

(** A task does not come back to the waiting list. *)
Lemma waiting_back h1 evs h c :
  trace h1 evs h -> c ∈ m_waiting h -> (t_handle c < m_submitted h1)%nat ->
  c ∈ m_waiting h1.
Proof.
  induction 1 as [h|h evs h' ev h'' Htr IH Hstep]; intros Hc Hlt; [exact Hc|].
  destruct (waiting_origin _ _ _ _ Hstep Hc) as [H|H]; [now apply IH|].
  pose proof (submitted_trace _ _ _ Htr). lia.
Qed.

(** A task enters the ready queue when it is ready. *)
Lemma queue_origin h ev h' c :
  step h ev h' -> c ∈ m_queue h' -> c ∈ m_queue h \/ ready h' c.
Proof.
  intros Hstep Hc.
  destruct Hstep as [h v sem h' Hv Hnew|h tasks h' Hvalid Hlen Hsub|h w t h' Hidx Hidle Htake
                    |h w t Hr|h sem Hsem|h Hwait].
  - apply newSemaphore_Ok in Hnew as (_ & _ & a' & p & p' & _ & _ & _ & ->).
    now left.
  - destruct (submitTasks_spec _ _ _ Hsub) as (Q & _ & _ & _ & M & _).
    rewrite Q, elem_of_app, list_elem_of_filter in Hc.
    destruct Hc as [Hc|[Hc _]]; [now left|right].
    revert Hc. apply ready_same_loads. intros g _. unfold load. now rewrite M.
  - destruct (takeTask_spec _ _ _ _ Htake) as (Q & _).
    left. rewrite Q. now right.
  - destruct (completeTask_spec h w t Hr) as (Q & _ & M & _). rewrite Q in Hc.
    destruct (m_signalSemaphore (t_task t)) as [sem|]; [|now left].
    destruct (signal_spec h sem)
      as (_ & _ & _ & _ & _ & _ & _ & [(Hz & Q' & _)|(_ & Q' & _)]);
      rewrite Q' in Hc; [|now left].
    rewrite elem_of_app, list_elem_of_filter in Hc.
    destruct Hc as [Hc|[Hc _]]; [now left|right].
    apply ready_iff. right. exists sem. split; [now apply waits_on_iff|].
    unfold load in *. now rewrite M.
  - now left.
  - now left.
Qed.

Lemma reached_zero_step h0 evs h ev h' c :
  step h ev h' -> reached_zero h0 evs h c -> reached_zero h0 (evs ++ [ev]) h' c.
Proof.
  intros Hstep (sem & evs1 & h1 & evs2 & Hg & -> & Htr1 & Htr2 & Hq & Hl).
  exists sem, evs1, h1, (evs2 ++ [ev]).
  split; [exact Hg|]. split; [now rewrite app_assoc|]. split; [exact Htr1|].
  split; [exact (trace_snoc _ _ _ _ _ Htr2 Hstep)|]. split; assumption.
Qed.

(** A task of the ready queue has no wait semaphore, or that semaphore
    has reached 0: in every execution. *)
Lemma queue_ever_ready h0 evs h c :
  m_queue h0 = [] -> trace h0 evs h -> c ∈ m_queue h ->
  m_waitSemaphore (t_task c) = None \/ reached_zero h0 evs h c.
Proof.
  intros Hempty Htr. revert c.
  induction Htr as [h|h evs h' ev h'' Htr IH Hstep]; intros c Hc.
  - rewrite Hempty in Hc. inversion Hc.
  - destruct (queue_origin _ _ _ _ Hstep Hc) as [Hold|Hrd].
    + destruct (IH Hempty _ Hold) as [Hn|Hz]; [now left|right].
      exact (reached_zero_step _ _ _ _ _ _ Hstep Hz).
    + apply ready_iff in Hrd as [Hn|(sem & Hg & Hl)]; [now left|right].
      exists sem, (evs ++ [ev]), h'', [].
      split; [exact Hg|]. split; [now rewrite app_nil_r|].
      split; [exact (trace_snoc _ _ _ _ _ Htr Hstep)|].
      split; [constructor|]. split; [now left|exact Hl].
Qed.

(** The wait semaphore of a registered task has not reached 0. *)
Lemma waiting_never_ready h0 evs h c :
  initial h0 -> steady_trace h0 evs h -> c ∈ m_waiting h ->
  ~ reached_zero h0 evs h c.
Proof.
  intros Hinit Hst Hc (sem & evs1 & h1 & evs2 & Hg & -> & Htr1 & Htr2 & Hq & Hl).
  destruct (steady_prefix _ _ _ _ Hst) as (hx & Hsx & Htx).
  assert (hx = h1) as ->
    by exact (trace_det _ _ _ _ (steady_trace_trace _ _ _ Hsx) Htr1).
  pose proof (trace_wf _ _ _ (initial_wf _ Hinit) Htr1) as Hwf1.
  pose proof (waiting_back _ _ _ _ Htr2 Hc (queued_bound _ _ Hwf1 Hq)) as Hw1.
  apply (steady_waiting _ _ _ Hinit Hsx c Hw1).
  apply ready_iff. right. now exists sem.
Qed.

Lemma steady_invariant h0 evs h :
  initial h0 -> steady_trace h0 evs h -> queue_invariant_reached h0 evs h.
Proof.
  intros Hinit Hst c Hq. split.
  - apply queue_ever_ready; [|exact (steady_trace_trace _ _ _ Hst)].
    destruct Hinit as (n & a & p & _ & _ & _ & ->). reflexivity.
  - intros Hor. destruct Hq as [Hq|Hw]; [exact Hq|]. exfalso.
    destruct Hor as [Hn|Hz].
    + apply (steady_waiting _ _ _ Hinit Hst c Hw). apply ready_iff. now left.
    + exact (waiting_never_ready _ _ _ _ Hinit Hst Hw Hz).
Qed.

Lemma reachable_over_signalled : reachable over_signalled.
Proof.
  eapply reachable_step;
    [|exact (step_complete over_running2 0 (mkHTask 1 taskA2) eq_refl)].
  eapply reachable_step;
    [|apply (step_take over_completed 0 (mkHTask 1 taskA2));
      [vm_compute; lia|reflexivity|reflexivity]].
  eapply reachable_step;
    [|exact (step_complete over_running 0 (mkHTask 0 taskA) eq_refl)].
  eapply reachable_step;
    [|apply (step_take over_submitted 0 (mkHTask 0 taskA));
      [vm_compute; lia|reflexivity|reflexivity]].
  eapply reachable_step;
    [|apply (step_submit hive_g [taskA; taskA2; taskB]);
      [repeat constructor; apply valid_g; simpl; auto
      |vm_compute; discriminate
      |reflexivity]].
  eapply reachable_step; [|exact step_g].
  exact (initial_reachable _ small_hive_initial).
Qed.

(** Why "has reached 0" cannot be read as "is 0 now": a semaphore of
    value 1 with two signalling tasks wraps to [MAX_U32] when the second
    of them completes, while the task it had released is still in the
    ready queue. *)
Lemma over_signalled_gate_not_zero :
  ~ (forall h, reachable h -> queue_invariant h).
Proof.
  intros H.
  pose proof (H over_signalled reachable_over_signalled (mkHTask 2 taskB)) as X.
  assert (Hq : mkHTask 2 taskB ∈ m_queue over_signalled) by (vm_compute; left).
  destruct (X (or_introl Hq)) as [Hready _].
  specialize (Hready Hq). vm_compute in Hready. discriminate Hready.
Qed.

(** The same happens without a second signal, when a callback calls
    [increaseSemaphore] on a gate that has reached 0. *)
Lemma increased_gate_not_zero :
  reachable (increase hive_completed sem_g) /\
  ~ queue_invariant (increase hive_completed sem_g).
Proof.
  split.
  - eapply reachable_step; [|apply (step_increase hive_completed sem_g)].
    + eapply reachable_step; [exact reachable_running|exact step_completed].
    + exists (mkSem 0). reflexivity.
  - intros X.
    assert (Hq : mkHTask 1 taskB ∈ m_queue (increase hive_completed sem_g))
      by (vm_compute; left).
    destruct (X _ (or_introl Hq)) as [Hready _].
    specialize (Hready Hq). vm_compute in Hready. discriminate Hready.
Qed.

Lemma trace_wrapped :
  trace small_hive
        [EvNewSemaphore MAX_U32 sem_g; EvSubmit [taskB]; EvIncrease sem_g]
        hive_wrapped.
Proof.
  apply (trace_cons _ _ hive_max).
  { apply step_newSemaphore; [unfold isU32, MAX_U32; lia|reflexivity]. }
  apply (trace_cons _ _ hive_max_blocked).
  { apply step_submit; [|vm_compute; discriminate|reflexivity].
    repeat constructor; simpl; try exact I. exists (mkSem MAX_U32). reflexivity. }
  apply trace_one. apply (step_increase hive_max_blocked sem_g).
  exists (mkSem MAX_U32). reflexivity.
Qed.

(** C2, as stated, fails: a semaphore is created at 2^32-1, a task that
    waits for it is submitted, and one [increaseSemaphore] wraps the
    counter to 0.  The counter has reached 0, and is 0, while the task
    is registered and not in the ready queue: no wake-scan goes with an
    increase. *)
Lemma queue_invariant_wrapped_gate :
  ~ (forall h0 evs h,
       initial h0 -> trace h0 evs h -> queue_invariant_reached h0 evs h).
Proof.
  intros H.
  pose proof (H _ _ _ small_hive_initial trace_wrapped (mkHTask 0 taskB)) as X.
  assert (Hw : mkHTask 0 taskB ∈ m_waiting hive_wrapped) by (vm_compute; left).
  destruct (X (or_intror Hw)) as [_ Hback].
  assert (Hq : mkHTask 0 taskB ∈ m_queue hive_wrapped).
  { apply Hback. right.
    exists sem_g, [EvNewSemaphore MAX_U32 sem_g; EvSubmit [taskB]; EvIncrease sem_g],
           hive_wrapped, [].
    split; [reflexivity|]. split; [reflexivity|]. split; [exact trace_wrapped|].
    split; [constructor|]. split; [now right|reflexivity]. }
  vm_compute in Hq. inversion Hq.
Qed.

(** C2, amended.  Take an execution in which no [increaseSemaphore]
    wraps to 0 a counter at 2^32-1 that a registered task waits for.
    In every state of it, a task that was submitted and not yet taken
    is in the ready queue if and only if it has no wait semaphore or
    its wait semaphore has reached 0 in some state since the task was
    submitted; every further step (creation of a semaphore, submission,
    taking a task, completion with its wake-scan, increase, return of
    the drain) that is not such an increase leads to a state where this
    holds again, and such an increase leads to a state where it does
    not.  That a task of the ready queue has no wait semaphore or one
    that has reached 0 holds in every execution. *)
Theorem queue_invariant_steady h0 evs h :
  initial h0 -> steady_trace h0 evs h ->
  queue_invariant_reached h0 evs h /\
  (forall ev h',
     step h ev h' -> ~ wraps_waited_gate h ev ->
     queue_invariant_reached h0 (evs ++ [ev]) h') /\
  (forall ev h',
     step h ev h' -> wraps_waited_gate h ev ->
     ~ queue_invariant_reached h0 (evs ++ [ev]) h') /\
  (forall evs' h' c,
     trace h0 evs' h' -> c ∈ m_queue h' ->
     m_waitSemaphore (t_task c) = None \/ reached_zero h0 evs' h' c).
Proof.
  intros Hinit Hst.
  pose proof (initial_wf _ Hinit) as Hwf0.
  pose proof (steady_trace_trace _ _ _ Hst) as Htr.
  pose proof (trace_wf _ _ _ Hwf0 Htr) as Hwf.
  split; [exact (steady_invariant _ _ _ Hinit Hst)|]. split; [|split].
  - intros ev h' Hstep Hnot. apply steady_invariant; [exact Hinit|].
    exact (steady_snoc _ _ _ _ _ Hst Hnot Hstep).
  - intros ev h' Hstep Hwr Hinv.
    destruct ev as [| | | |sem|]; simpl in Hwr; try contradiction.
    destruct Hwr as (Hmax & c & Hc & Hg).
    pose proof (trace_snoc _ _ _ _ _ Htr Hstep) as Htr'.
    inversion Hstep as [| | | |h1 sem1 [s Hs] E1 E2 E3|]; subst.
    assert (Hzero : load (increase h sem) sem = 0).
    { rewrite (load_increase _ _ _ Hs).
      rewrite (load_lookup _ _ _ Hs) in Hmax. rewrite Hmax. reflexivity. }
    assert (Hq : c ∈ m_queue (increase h sem)).
    { apply (Hinv c); [now right|]. right.
      exists sem, (evs ++ [EvIncrease sem]), (increase h sem), [].
      split; [exact Hg|]. split; [now rewrite app_nil_r|]. split; [exact Htr'|].
      split; [constructor|]. split; [now right|exact Hzero]. }
    exact (queue_waiting_disjoint _ _ Hwf Hq Hc).
  - intros evs' h' c Htr' Hc. apply queue_ever_ready; [|exact Htr'|exact Hc].
    destruct Hinit as (n & a & p & _ & _ & _ & ->). reflexivity.
Qed.

Lemma queue_invariant_steady_witness :
  initial small_hive /\
  steady_trace small_hive [EvNewSemaphore 1 sem_g; EvSubmit [taskA; taskB]]
               hive_submitted /\
  queue_invariant_reached small_hive
    [EvNewSemaphore 1 sem_g; EvSubmit [taskA; taskB]] hive_submitted.
Proof.
  assert (H1 : steady_trace small_hive
                 [EvNewSemaphore 1 sem_g; EvSubmit [taskA; taskB]] hive_submitted).
  { apply (steady_snoc small_hive [EvNewSemaphore 1 sem_g] hive_g);
      [|intros []|exact step_submitted].
    apply (steady_snoc small_hive [] small_hive);
      [constructor|intros []|exact step_g]. }
  split; [exact small_hive_initial|]. split; [exact H1|].
  exact (proj1 (queue_invariant_steady _ _ _ small_hive_initial H1)).
Defined.
(** *** The drain *)

Lemma completions_snoc evs ev : completions (evs ++ [ev]) = completions evs ++ completed ev.
Proof. unfold completions. rewrite flat_map_app. simpl. now rewrite app_nil_r. Qed.

Lemma outstanding_trace h evs h' c :
  trace h evs h' -> outstanding h c -> c ∉ completions evs -> outstanding h' c.
Proof.
  induction 1 as [h|h evs h' ev h'' _ IH Hstep]; intros Hout Hnot; [exact Hout|].
  rewrite completions_snoc, elem_of_app in Hnot.
  destruct (outstanding_step _ _ _ c Hstep (IH Hout ltac:(tauto)))
    as [H|(w & wk & ->)]; [exact H|].
  exfalso. apply Hnot. right. simpl. left.
Qed.

Lemma outstanding_count_pos h c : outstanding h c -> 0 < outstanding_count h.
Proof.
  unfold outstanding_count. intros [[H|H]|(w & H)].
  - destruct (m_queue h); [inversion H|simpl; lia].
  - destruct (m_waiting h); [inversion H|simpl; lia].
  - assert (size (m_running h) <> 0%nat).
    { intros E. apply map_size_empty_inv in E. rewrite E in H. discriminate. }
    lia.
Qed.

Lemma outstanding_count_zero h :
  outstanding_count h = 0 <->
  m_queue h = [] /\ m_waiting h = [] /\ m_running h = ∅.
Proof.
  unfold outstanding_count. split.
  - intros H.
    assert (length (m_queue h) = 0%nat /\ length (m_waiting h) = 0%nat /\
            size (m_running h) = 0%nat) as (H1 & H2 & H3) by lia.
    split; [now apply nil_length_inv|]. split; [now apply nil_length_inv|].
    now apply map_size_empty_inv.
  - intros (-> & -> & ->). now rewrite map_size_empty.
Qed.

Lemma pending_is_count h :
  hive_wf h -> outstanding_count h <= MAX_U32 ->
  m_pendingTasks h = outstanding_count h.
Proof.
  intros Hwf Hle. rewrite (wf_pending _ Hwf). apply wrap32_small.
  unfold outstanding_count in *. lia.
Qed.

Lemma waitAllTasks_iff h : waitAllTasks h = Some h <-> m_pendingTasks h = 0.
Proof.
  unfold waitAllTasks. destruct (Z.eqb_spec (m_pendingTasks h) 0); split;
    congruence.
Qed.

Lemma waitAllTasks_blocked h : m_pendingTasks h <> 0 -> waitAllTasks h = None.
Proof.
  unfold waitAllTasks. destruct (Z.eqb_spec (m_pendingTasks h) 0); congruence.
Qed.

Lemma reachable_blocked : reachable hive_blocked.
Proof.
  eapply reachable_step;
    [|apply (step_submit hive_g [taskB]);
      [repeat constructor; apply valid_g; simpl; auto
      |vm_compute; discriminate
      |reflexivity]].
  eapply reachable_step; [|exact step_g].
  exact (initial_reachable _ small_hive_initial).
Qed.

(** C3, as stated, fails: with a task registered against a semaphore
    that nobody signals, the ready queue is empty and no worker runs a
    callback, but the pending counter is 1. *)
Lemma pending_counts_waiting_tasks :
  ~ (forall h, reachable h ->
       (m_pendingTasks h = 0 <-> m_queue h = [] /\ m_running h = ∅)).
Proof.
  intros H. destruct (H hive_blocked reachable_blocked) as [_ Hback].
  assert (E : m_pendingTasks hive_blocked = 0) by (apply Hback; split; reflexivity).
  vm_compute in E. discriminate E.
Qed.

(** C3, amended.  [waitAllTasks] returns exactly when the pending
    counter is 0 and keeps its caller blocked otherwise.  As long as
    fewer than 2^32 tasks are outstanding, the pending counter is 0
    exactly when the ready queue is empty, no task is registered against
    a semaphore, and no worker is running a callback.  When the callback
    of a running task submits a child, [waitAllTasks] stays blocked in
    every later state in which the child has not completed, whether the
    parent has completed or not. *)
Theorem drain_condition h :
  reachable h -> outstanding_count h <= MAX_U32 ->
  (waitAllTasks h = Some h <-> m_pendingTasks h = 0) /\
  (m_pendingTasks h <> 0 -> waitAllTasks h = None) /\
  (m_pendingTasks h = 0 <->
   m_queue h = [] /\ m_waiting h = [] /\ m_running h = ∅) /\
  (forall threadId parent task h1 evs h2,
     m_running h !! threadId = Some parent ->
     task_valid h task ->
     submitTasks h [task] = Ok h1 ->
     trace h1 evs h2 ->
     mkHTask (m_submitted h) task ∉ completions evs ->
     outstanding_count h2 <= MAX_U32 ->
     m_pendingTasks h2 <> 0 /\ waitAllTasks h2 = None).
Proof.
  intros Hreach Hle. pose proof (reachable_wf _ Hreach) as Hwf.
  split; [apply waitAllTasks_iff|]. split; [apply waitAllTasks_blocked|]. split.
  - rewrite (pending_is_count _ Hwf Hle). apply outstanding_count_zero.
  - intros w parent task h1 evs h2 Hrun Hvalid Hsub Htr Hnot Hle2.
    assert (Hstep : step h (EvSubmit [task]) h1).
    { apply step_submit; [now constructor|vm_compute; discriminate|exact Hsub]. }
    pose proof (trace_wf _ _ _ (step_wf _ _ _ Hwf Hstep) Htr) as Hwf2.
    assert (Hout : outstanding h1 (mkHTask (m_submitted h) task)).
    { left. unfold queued.
      destruct (submitTasks_spec _ _ _ Hsub) as (Q & W & _). rewrite Q, W.
      rewrite !elem_of_app, !list_elem_of_filter. simpl.
      destruct (decide (ready h (mkHTask (m_submitted h) task))).
      - left. right. split; [assumption|left].
      - right. right. split; [assumption|left]. }
    pose proof (outstanding_count_pos _ _ (outstanding_trace _ _ _ _ Htr Hout Hnot)).
    assert (m_pendingTasks h2 <> 0) by (rewrite (pending_is_count _ Hwf2 Hle2); lia).
    split; [assumption|now apply waitAllTasks_blocked].
Qed.

Lemma drain_condition_witness :
  reachable hive_running /\ outstanding_count hive_running <= MAX_U32 /\
  m_running hive_running !! 0%nat = Some (mkHTask 0 taskA) /\
  task_valid hive_running child /\
  submitTasks hive_running [child] = Ok hive_child /\
  trace hive_child [EvComplete 0 (mkHTask 0 taskA) [mkHTask 1 taskB]]
        hive_parent_done /\
  (mkHTask 2 child ∉ completions [EvComplete 0 (mkHTask 0 taskA) [mkHTask 1 taskB]]) /\
  outstanding_count hive_parent_done <= MAX_U32 /\
  waitAllTasks hive_parent_done = None.
Proof.
  assert (H1 : outstanding_count hive_running <= MAX_U32)
    by (vm_compute; discriminate).
  assert (H2 : m_running hive_running !! 0%nat = Some (mkHTask 0 taskA))
    by reflexivity.
  assert (H3 : task_valid hive_running child) by (split; exact I).
  assert (H3' : submitTasks hive_running [child] = Ok hive_child) by reflexivity.
  assert (H4 : trace hive_child [EvComplete 0 (mkHTask 0 taskA) [mkHTask 1 taskB]]
                 hive_parent_done).
  { apply trace_one. exact (step_complete hive_child 0 (mkHTask 0 taskA) eq_refl). }
  assert (H5 : mkHTask 2 child
               ∉ completions [EvComplete 0 (mkHTask 0 taskA) [mkHTask 1 taskB]]).
  { simpl. apply not_elem_of_cons. split; [discriminate|apply not_elem_of_nil]. }
  assert (H6 : outstanding_count hive_parent_done <= MAX_U32)
    by (vm_compute; discriminate).
  split; [exact reachable_running|]. split; [exact H1|]. split; [exact H2|].
  split; [exact H3|]. split; [exact H3'|]. split; [exact H4|]. split; [exact H5|].
  split; [exact H6|].
  destruct (drain_condition hive_running reachable_running H1) as (_ & _ & _ & Hchild).
  exact (proj2 (Hchild 0%nat _ child _ _ _ H2 H3 H3' H4 H5 H6)).
Defined.
(** *** Signals and wakes along an execution *)

Lemma wakes_snoc evs ev : wakes (evs ++ [ev]) = wakes evs ++ woken ev.
Proof. unfold wakes. rewrite flat_map_app. simpl. now rewrite app_nil_r. Qed.

Lemma total_snoc f evs ev : total f (evs ++ [ev]) = total f evs + f ev.
Proof.
  unfold total. induction evs as [|e evs IH]; simpl; [lia|]. rewrite IH. lia.
Qed.

Lemma waiting_complete h threadId t c :
  m_running h !! threadId = Some t ->
  c ∈ m_waiting (completeTask h threadId) -> c ∈ m_waiting h.
Proof.
  intros Hr. destruct (completeTask_spec h threadId t Hr) as (_ & W & _).
  rewrite W. destruct (m_signalSemaphore (t_task t)) as [sem|]; [|auto].
  destruct (signal_spec h sem) as (_ & _ & _ & _ & _ & _ & _ & [(_ & _ & ->)|(_ & _ & ->)]);
    [|auto].
  rewrite list_elem_of_filter. tauto.
Qed.

Lemma woken_by_waiting h t c : c ∈ woken_by h t -> c ∈ m_waiting h.
Proof.
  unfold woken_by. destruct (m_signalSemaphore (t_task t)) as [sem|];
    [|intros H; inversion H].
  destruct (load (signal h sem) sem =? 0); [|intros H; inversion H].
  rewrite list_elem_of_filter. tauto.
Qed.

Lemma handles_step h ev h' :
  hive_wf h -> step h ev h' ->
  (m_submitted h <= m_submitted h')%nat /\
  (forall n, n ∈ hive_handles h' ->
             n ∈ hive_handles h \/ (m_submitted h <= n)%nat) /\
  (forall n, n ∈ t_handle <$> m_waiting h' ->
             n ∈ t_handle <$> m_waiting h \/ (m_submitted h <= n)%nat).
Proof.
  intros Hwf Hstep.
  destruct Hstep as [h v sem h' Hv Hnew|h tasks h' Hvalid Hlen Hsub|h w t h' Hidx Hidle Htake
                    |h w t Hr|h sem Hsem|h Hwait].
  - apply newSemaphore_Ok in Hnew as (_ & _ & a' & p & p' & _ & _ & _ & ->).
    simpl. split; [lia|]. split; intros n Hn; now left.
  - destruct (submitTasks_spec _ _ _ Hsub) as (_ & W & N & _).
    split; [lia|]. split; intros n Hn.
    + rewrite (submit_handles _ _ _ Hsub), elem_of_app, elem_of_seq in Hn.
      destruct Hn as [Hn|Hn]; [now left|right; lia].
    + rewrite W, fmap_app, elem_of_app in Hn. destruct Hn as [Hn|Hn]; [now left|].
      right. apply list_elem_of_fmap in Hn as (c & -> & Hc).
      apply list_elem_of_filter in Hc as [_ Hc].
      apply elem_of_stamp in Hc. lia.
  - destruct (takeTask_spec _ _ _ _ Htake) as (_ & _ & W & _ & _ & _ & _ & _ & N).
    split; [lia|]. split; intros n Hn.
    + left. now rewrite (take_handles _ _ _ _ Hidle Htake) in Hn.
    + left. now rewrite W in Hn.
  - destruct (completeTask_spec h w t Hr) as (_ & _ & _ & _ & _ & _ & _ & _ & N).
    split; [lia|]. split; intros n Hn.
    + left. rewrite (complete_handles _ _ _ Hr). now right.
    + left. apply list_elem_of_fmap in Hn as (c & -> & Hc).
      apply list_elem_of_fmap_2. exact (waiting_complete _ _ _ _ Hr Hc).
  - simpl. split; [lia|]. split; intros n Hn; now left.
  - split; [lia|]. split; intros n Hn; now left.
Qed.

Lemma NoDup_handles_waiting h : hive_wf h -> NoDup (t_handle <$> m_waiting h).
Proof.
  intros Hwf. pose proof (wf_nodup _ Hwf) as Hnd. unfold hive_handles in Hnd.
  apply NoDup_app in Hnd as (_ & _ & Hnd). now apply NoDup_app in Hnd as (Hnd & _).
Qed.

Lemma NoDup_handles_queue h : hive_wf h -> NoDup (t_handle <$> m_queue h).
Proof.
  intros Hwf. pose proof (wf_nodup _ Hwf) as Hnd. unfold hive_handles in Hnd.
  now apply NoDup_app in Hnd as (Hnd & _).
Qed.

Lemma running_handle h threadId t :
  m_running h !! threadId = Some t -> t_handle t ∈ hive_handles h.
Proof.
  intros Hr. unfold hive_handles. rewrite !elem_of_app. right. right.
  apply list_elem_of_fmap_2. apply list_elem_of_fmap. exists (threadId, t).
  split; [reflexivity|]. now apply elem_of_map_to_list.
Qed.

Lemma waiting_handle h c : c ∈ m_waiting h -> t_handle c ∈ hive_handles h.
Proof.
  intros Hc. unfold hive_handles. rewrite !elem_of_app. right. left.
  now apply list_elem_of_fmap_2.
Qed.

(** The tasks a step wakes leave the waiting list for good. *)
Lemma woken_left h threadId t c :
  hive_wf h -> m_running h !! threadId = Some t -> c ∈ woken_by h t ->
  t_handle c ∉ t_handle <$> m_waiting (completeTask h threadId).
Proof.
  intros Hwf Hr Hc.
  destruct (completeTask_spec h threadId t Hr) as (_ & W & _).
  rewrite W. unfold woken_by in Hc.
  destruct (m_signalSemaphore (t_task t)) as [sem|]; [|inversion Hc].
  destruct (signal_spec h sem) as (_ & _ & _ & _ & _ & _ & _ & [(Hz & _ & W')|(Hz & _ & _)]).
  2:{ apply Z.eqb_neq in Hz. rewrite Hz in Hc. inversion Hc. }
  rewrite Hz, Z.eqb_refl in Hc. rewrite W'.
  pose proof (NoDup_handles_waiting _ Hwf) as Hnd.
  rewrite <- (filter_app_complement (fun c0 => waits_on sem c0 = true) (m_waiting h)),
    fmap_app in Hnd.
  apply NoDup_app in Hnd as (_ & Hdis & _).
  apply Hdis. now apply list_elem_of_fmap_2.
Qed.

Lemma history_step evs h ev h' :
  hive_wf h -> history_ok evs h -> step h ev h' -> history_ok (evs ++ [ev]) h'.
Proof.
  intros Hwf (K1 & K2 & K3 & K4) Hstep.
  destruct (handles_step _ _ _ Hwf Hstep) as (Hmono & Hall & Hwait).
  assert (Hold2 : forall n, n ∈ t_handle <$> completions evs ->
                    (n < m_submitted h')%nat /\ (n ∉ hive_handles h')).
  { intros n Hn. destruct (K2 n Hn) as [Hlt Hno]. split; [lia|].
    intros Hin. destruct (Hall n Hin); [contradiction|lia]. }
  assert (Hold4 : forall n, n ∈ t_handle <$> wakes evs ->
                    (n < m_submitted h')%nat /\ (n ∉ t_handle <$> m_waiting h')).
  { intros n Hn. destruct (K4 n Hn) as [Hlt Hno]. split; [lia|].
    intros Hin. destruct (Hwait n Hin); [contradiction|lia]. }
  unfold history_ok. rewrite completions_snoc, wakes_snoc.
  destruct Hstep as [h v sem h' Hv Hnew|h tasks h' Hvalid Hlen Hsub|h w t h' Hidx Hidle Htake
                    |h w t Hr|h sem Hsem|h Hwt];
    cbn [completed woken];
    try (rewrite !app_nil_r; exact (conj K1 (conj Hold2 (conj K3 Hold4)))).
  (* a completion *)
  pose proof (running_handle _ _ _ Hr) as Hrun.
  pose proof (complete_handles _ _ _ Hr) as Hperm.
  pose proof (wf_nodup _ Hwf) as Hnd. rewrite Hperm in Hnd.
  apply NoDup_cons in Hnd as [Hnot _].
  pose proof (wf_bound _ Hwf) as Hb.
  rewrite !fmap_app. split; [|split; [|split]].
  - apply NoDup_app. split; [exact K1|]. split; [|apply NoDup_singleton].
    intros n Hn Hin. apply list_elem_of_singleton in Hin as ->.
    now destruct (K2 _ Hn).
  - intros n Hn. apply elem_of_app in Hn as [Hn|Hn]; [now apply Hold2|].
    apply list_elem_of_singleton in Hn as ->. split; [|exact Hnot].
    pose proof (proj1 (Forall_forall _ _) Hb _ Hrun). simpl in *. lia.
  - apply NoDup_app. split; [exact K3|]. split.
    + intros n Hn Hin. apply list_elem_of_fmap in Hin as (c & -> & Hc).
      destruct (K4 _ Hn) as [_ Hno]. apply Hno.
      apply list_elem_of_fmap_2. exact (woken_by_waiting _ _ _ Hc).
    + apply (sublist_NoDup _ (t_handle <$> m_waiting h));
        [now apply NoDup_handles_waiting|].
      apply fmap_sublist. unfold woken_by.
      destruct (m_signalSemaphore (t_task t)); [|apply sublist_nil_l].
      destruct (_ =? 0); [apply sublist_filter; apply _|apply sublist_nil_l].
  - intros n Hn. apply elem_of_app in Hn as [Hn|Hn]; [now apply Hold4|].
    apply list_elem_of_fmap in Hn as (c & -> & Hc). split.
    + pose proof (proj1 (Forall_forall _ _) Hb _
                    (waiting_handle _ _ (woken_by_waiting _ _ _ Hc))).
      simpl in *. lia.
    + exact (woken_left _ _ _ _ Hwf Hr Hc).
Qed.

Lemma history_trace h0 evs h :
  hive_wf h0 -> trace h0 evs h -> history_ok evs h.
Proof.
  intros Hwf0. induction 1 as [h|h evs h' ev h'' Htr IH Hstep].
  - unfold history_ok, completions, wakes. simpl.
    split; [apply NoDup_nil_2|]. split; [intros n Hn; inversion Hn|].
    split; [apply NoDup_nil_2|]. intros n Hn; inversion Hn.
  - exact (history_step _ _ _ _ (trace_wf _ _ _ Hwf0 Htr) (IH Hwf0) Hstep).
Qed.
Lemma load_range h sem : hive_wf h -> isU32 (load h sem).
Proof.
  intros Hwf. unfold load. destruct (m_semaphores h !! sem) as [s|] eqn:Hs; simpl.
  - exact (wf_counters _ Hwf _ _ Hs).
  - unfold isU32, MAX_U32. lia.
Qed.

Lemma newSemaphore_fresh h v sem h' g :
  hive_wf h -> newSemaphore h v = Ok (sem, h') ->
  is_Some (m_semaphores h !! g) -> g <> sem.
Proof.
  intros Hwf Hnew Hg.
  destruct (wf_arena _ Hwf) as (p & Ha & Hp & Htop).
  apply newSemaphore_Ok in Hnew as (_ & Hnz & a' & p0 & p' & Ha0 & _ & Hal & _).
  assert (p0 = p) as -> by congruence.
  apply allocate_Ok in Hal as
    (_ & _ & _ & _ & _ & _ & _ & _ & [(_ & Eo & _)|(_ & Eo & _)]); [|contradiction].
  pose proof (headerSize_ge _ Hp) as Hhs.
  unfold sizeof_MemoryBlockHeader, sizeof_U32 in Hhs.
  specialize (Htop _ Hg). lia.
Qed.

(** One step changes a counter by the increase or the signal it is. *)
Lemma load_step h ev h' sem :
  hive_wf h -> step h ev h' -> is_Some (m_semaphores h !! sem) ->
  load h' sem = wrap32 (load h sem + increases sem ev - signals sem ev).
Proof.
  intros Hwf Hstep Hk.
  pose proof (load_range h sem Hwf) as Hrange.
  assert (Hsame : wrap32 (load h sem + 0 - 0) = load h sem).
  { replace (load h sem + 0 - 0) with (load h sem) by lia. now apply wrap32_small. }
  destruct Hstep as [h v sem0 h' Hv Hnew|h tasks h' Hvalid Hlen Hsub|h w t h' Hidx Hidle Htake
                    |h w t Hr|h sem0 Hsem|h Hwt]; cbn [increases signals].
  - rewrite Hsame.
    pose proof (newSemaphore_fresh _ _ _ _ _ Hwf Hnew Hk) as Hne.
    apply newSemaphore_Ok in Hnew as (_ & _ & a' & p & p' & _ & _ & _ & ->).
    unfold load. simpl. rewrite lookup_insert_ne; congruence.
  - rewrite Hsame. destruct (submitTasks_spec _ _ _ Hsub) as (_ & _ & _ & _ & M & _).
    unfold load. now rewrite M.
  - rewrite Hsame. destruct (takeTask_spec _ _ _ _ Htake) as (_ & _ & _ & _ & M & _).
    unfold load. now rewrite M.
  - pose proof (semaphores_complete _ _ _ Hr) as M.
    destruct (m_signalSemaphore (t_task t)) as [g|] eqn:Eg.
    + destruct (decide (g = sem)) as [->|Hne].
      * rewrite bool_decide_eq_true_2 by reflexivity.
        unfold load. rewrite M, lookup_alter_eq.
        destruct (m_semaphores h !! sem) as [s|]; simpl.
        -- f_equal. lia.
        -- now destruct Hk.
      * rewrite bool_decide_eq_false_2 by congruence. rewrite Hsame.
        unfold load. rewrite M, lookup_alter_ne; congruence.
    + rewrite bool_decide_eq_false_2 by discriminate. rewrite Hsame.
      unfold load. now rewrite M.
  - destruct (decide (sem0 = sem)) as [->|Hne].
    + rewrite bool_decide_eq_true_2 by reflexivity.
      unfold load, increase. simpl. rewrite lookup_alter_eq.
      destruct (m_semaphores h !! sem) as [s|]; simpl.
      * f_equal. lia.
      * now destruct Hk.
    + rewrite bool_decide_eq_false_2 by congruence. rewrite Hsame.
      unfold load, increase. simpl. rewrite lookup_alter_ne; congruence.
  - exact (eq_sym Hsame).
Qed.

Lemma known_trace h evs h' sem :
  trace h evs h' ->
  is_Some (m_semaphores h !! sem) -> is_Some (m_semaphores h' !! sem).
Proof.
  induction 1 as [h|h evs h' ev h'' _ IH Hstep]; [auto|].
  intros Hk. exact (known_step _ _ _ _ Hstep (IH Hk)).
Qed.

(** Along an execution a counter moves by the number of increases less
    the number of completed tasks that signal it. *)
Lemma load_trace h evs h' sem :
  hive_wf h -> trace h evs h' -> is_Some (m_semaphores h !! sem) ->
  load h' sem =
  wrap32 (load h sem + total (increases sem) evs - total (signals sem) evs).
Proof.
  intros Hwf Htr Hk. induction Htr as [h|h evs h' ev h'' Htr IH Hstep].
  - simpl. replace (load h sem + 0 - 0) with (load h sem) by lia.
    symmetry. apply wrap32_small. now apply load_range.
  - rewrite (load_step _ _ _ sem (trace_wf _ _ _ Hwf Htr) Hstep
               (known_trace _ _ _ _ Htr Hk)).
    rewrite (IH Hwf Hk), !total_snoc. unfold wrap32.
    rewrite <- Z.add_sub_assoc, Zplus_mod_idemp_l. f_equal. lia.
Qed.
(** C4.  In every execution, whatever the interleaving of the workers:
    no task completes twice, and the step that completes a task, which
    is the step that follows the return of its callback, subtracts one
    from the semaphore the task signals and touches no other semaphore;
    so a counter moves by the number of increases less the number of
    completed tasks signalling it.  When the value after the decrement
    is 0, the tasks that wait for the semaphore are exactly the tasks
    the step moves to the tail of the ready queue, none stays in the
    waiting list, and none occurs twice in the queue; when it is not 0,
    nothing moves.  No task is woken twice in an execution. *)
Theorem signal_once_wake_once h0 evs h :
  initial h0 -> trace h0 evs h ->
  NoDup (t_handle <$> completions evs) /\
  NoDup (t_handle <$> wakes evs) /\
  (forall sem evs' h',
     is_Some (m_semaphores h !! sem) -> trace h evs' h' ->
     load h' sem =
     wrap32 (load h sem + total (increases sem) evs' - total (signals sem) evs')) /\
  (forall threadId t wk h' sem,
     step h (EvComplete threadId t wk) h' ->
     m_signalSemaphore (t_task t) = Some sem ->
     load h' sem = wrap32 (load h sem - 1) /\
     (forall sem', sem' <> sem -> load h' sem' = load h sem') /\
     (load h' sem = 0 ->
        wk = filter (fun c => waits_on sem c = true) (m_waiting h) /\
        m_queue h' = m_queue h ++ wk /\
        m_waiting h' = filter (fun c => waits_on sem c <> true) (m_waiting h) /\
        (forall c, c ∈ m_waiting h -> m_waitSemaphore (t_task c) = Some sem ->
                   c ∈ wk /\ c ∈ m_queue h' /\ (c ∉ m_waiting h')) /\
        (forall c, c ∈ m_waiting h' -> m_waitSemaphore (t_task c) <> Some sem) /\
        NoDup (t_handle <$> m_queue h')) /\
     (load h' sem <> 0 ->
        wk = [] /\ m_queue h' = m_queue h /\ m_waiting h' = m_waiting h)).
Proof.
  intros Hinit Htr.
  pose proof (initial_wf _ Hinit) as Hwf0.
  pose proof (trace_wf _ _ _ Hwf0 Htr) as Hwf.
  destruct (history_trace _ _ _ Hwf0 Htr) as (K1 & _ & K3 & _).
  split; [exact K1|]. split; [exact K3|]. split.
  { intros sem evs' h' Hk Htr'. now apply load_trace. }
  intros w t wk h' sem Hstep Es.
  pose proof (step_wf _ _ _ Hwf Hstep) as Hwf'.
  inversion Hstep as [| | |h1 w1 t1 Hr| |]; subst. clear Hstep.
  assert (Hk : is_Some (m_semaphores h !! sem)).
  { destruct (wf_valid _ Hwf t) as [_ Hk]; [right; now exists w|].
    unfold known in Hk. now rewrite Es in Hk. }
  pose proof (semaphores_complete _ _ _ Hr) as M. rewrite Es in M.
  destruct (completeTask_spec h w t Hr) as (Q & W & M1 & _). rewrite Es in Q, W, M1.
  assert (Hl : forall g, load (completeTask h w) g = load (signal h sem) g)
    by (intros g; unfold load; now rewrite M1).
  split; [|split; [|split]].
  - unfold load. rewrite M, lookup_alter_eq. destruct Hk as [s ->]. reflexivity.
  - intros g Hg. unfold load. rewrite M, lookup_alter_ne; congruence.
  - intros Hz. unfold woken_by. rewrite Es, <- Hl, Hz, Z.eqb_refl.
    destruct (signal_spec h sem) as (_ & _ & _ & _ & _ & _ & _ & [(_ & Q' & W')|(Hnz & _)]);
      [|rewrite <- Hl in Hnz; contradiction].
    rewrite Q, W, Q', W'.
    split; [reflexivity|]. split; [reflexivity|]. split; [reflexivity|].
    split; [|split].
    + intros c Hc Hg. rewrite elem_of_app, !list_elem_of_filter.
      apply waits_on_iff in Hg. split; [tauto|]. split; [tauto|].
      intros [Hn _]. contradiction.
    + intros c Hc Hg. apply list_elem_of_filter in Hc as [Hn _].
      apply Hn. now apply waits_on_iff.
    + pose proof (NoDup_handles_queue _ Hwf') as Hnd. now rewrite Q, Q' in Hnd.
  - intros Hnz. unfold woken_by. rewrite Es, <- Hl.
    apply Z.eqb_neq in Hnz. rewrite Hnz. apply Z.eqb_neq in Hnz.
    destruct (signal_spec h sem) as (_ & _ & _ & _ & _ & _ & _ & [(Hz & _)|(_ & Q' & W')]);
      [rewrite <- Hl in Hz; contradiction|].
    rewrite Q, W, Q', W'. repeat split; reflexivity.
Qed.

Lemma trace_running :
  trace small_hive
        [EvNewSemaphore 1 sem_g; EvSubmit [taskA; taskB]; EvTake 0 (mkHTask 0 taskA)]
        hive_running.
Proof.
  apply (trace_cons _ _ hive_g); [exact step_g|].
  apply (trace_cons _ _ hive_submitted); [exact step_submitted|].
  apply trace_one. exact step_running.
Qed.

Lemma signal_once_wake_once_witness :
  initial small_hive /\
  trace small_hive
        [EvNewSemaphore 1 sem_g; EvSubmit [taskA; taskB]; EvTake 0 (mkHTask 0 taskA)]
        hive_running /\
  step hive_running (EvComplete 0 (mkHTask 0 taskA) [mkHTask 1 taskB]) hive_completed /\
  m_signalSemaphore (t_task (mkHTask 0 taskA)) = Some sem_g /\
  load hive_completed sem_g = wrap32 (load hive_running sem_g - 1).
Proof.
  split; [exact small_hive_initial|]. split; [exact trace_running|].
  split; [exact step_completed|]. split; [reflexivity|].
  destruct (signal_once_wake_once _ _ _ small_hive_initial trace_running)
    as (_ & _ & _ & Hcomplete).
  exact (proj1 (Hcomplete _ _ _ _ sem_g step_completed eq_refl)).
Defined.
(** *** One worker *)

Lemma ungated_ready h c : ungated (t_task c) -> ready h c.
Proof. intros [Hw _]. apply ready_iff. now left. Qed.

Lemma filter_ready_ungated h cs :
  Forall (fun c => ungated (t_task c)) cs ->
  filter (ready h) cs = cs /\ filter (fun c => ~ ready h c) cs = [].
Proof.
  induction 1 as [|c cs Hc _ [IH1 IH2]]; [split; reflexivity|].
  pose proof (ungated_ready h c Hc) as Hr.
  rewrite !filter_cons, IH1, IH2.
  destruct (decide (ready h c)); [|contradiction].
  destruct (decide (~ ready h c)); [contradiction|]. split; reflexivity.
Qed.

Lemma stamp_ungated n tasks :
  Forall ungated tasks -> Forall (fun c => ungated (t_task c)) (stamp n tasks).
Proof.
  intros H. revert n. induction H as [|t ts Ht _ IH]; intros n; simpl;
    constructor; auto.
Qed.

Lemma serial_app threadId cs cs' :
  serial threadId (cs ++ cs') = serial threadId cs ++ serial threadId cs'.
Proof. unfold serial. apply flat_map_app. Qed.

Lemma takes_app evs evs' : takes (evs ++ evs') = takes evs ++ takes evs'.
Proof. unfold takes. apply flat_map_app. Qed.

Lemma takes_serial threadId cs : takes (serial threadId cs) = cs.
Proof. induction cs as [|c cs IH]; simpl; [reflexivity|]. f_equal. exact IH. Qed.

Lemma woken_by_ungated h c : ungated (t_task c) -> woken_by h c = [].
Proof. intros [_ Hs]. unfold woken_by. now rewrite Hs. Qed.

Lemma complete_ungated h threadId c :
  m_running h !! threadId = Some c -> ungated (t_task c) ->
  m_queue (completeTask h threadId) = m_queue h /\
  m_waiting (completeTask h threadId) = m_waiting h /\
  m_running (completeTask h threadId) = delete threadId (m_running h) /\
  m_threadCount (completeTask h threadId) = m_threadCount h.
Proof.
  intros Hr [_ Hs].
  destruct (completeTask_spec h threadId c Hr) as (Q & W & _ & R & _ & _ & T & _).
  rewrite Hs in Q, W. auto.
Qed.

Lemma drop_cons_inv {A} (l : list A) k x q :
  drop k l = x :: q -> l !! k = Some x /\ q = drop (S k) l.
Proof.
  intros H. assert (Hx : l !! k = Some x).
  { rewrite <- (Nat.add_0_r k), <- lookup_drop, H. reflexivity. }
  split; [exact Hx|]. rewrite (drop_S _ _ _ Hx) in H. congruence.
Qed.

(** The one worker can only walk down the batch. *)
Lemma serving_step batch evs h ev h' :
  Forall (fun c => ungated (t_task c)) batch ->
  serving batch evs h -> worker_event ev = true -> step h ev h' ->
  serving batch (evs ++ [ev]) h'.
Proof.
  intros Hbatch (Hw & Ht & k & Hk) Hev Hstep.
  destruct Hstep as [h v sem h' Hv Hnew|h tasks h' Hvalid Hlen Hsub|h w t h' Hidx Hidle Htake
                    |h w t Hr|h sem Hsem|h Hwt]; try discriminate Hev.
  - (* the worker takes the head *)
    destruct (takeTask_spec _ _ _ _ Htake) as (Q & R & W & _ & _ & T & _).
    assert (w = 0%nat) as -> by lia.
    destruct Hk as [(Hrun & Hq & ->)|(c & _ & Hrun & _)].
    2:{ rewrite Hrun, lookup_singleton_eq in Hidle. discriminate. }
    rewrite Q in Hq. symmetry in Hq.
    apply drop_cons_inv in Hq as [Hc Hq].
    split; [congruence|]. split; [congruence|].
    exists k. right. exists t. split; [exact Hc|].
    split; [now rewrite R, Hrun, insert_empty|]. split; [exact Hq|reflexivity].
  - (* the worker completes the task it runs *)
    destruct Hk as [(Hrun & _)|(c & Hc & Hrun & Hq & ->)].
    { rewrite Hrun, lookup_empty in Hr. discriminate. }
    rewrite Hrun in Hr. apply lookup_singleton_Some in Hr as [<- <-].
    assert (Hu : ungated (t_task c)).
    { apply (proj1 (Forall_forall _ _) Hbatch). now apply list_elem_of_lookup_2 in Hc. }
    assert (Hr : m_running h !! 0%nat = Some c)
      by (rewrite Hrun; apply lookup_singleton_eq).
    destruct (complete_ungated _ _ _ Hr Hu) as (Q & W & R & T).
    rewrite (woken_by_ungated _ _ Hu).
    split; [congruence|]. split; [congruence|].
    exists (S k). left.
    split; [now rewrite R, Hrun, delete_singleton_eq|]. split; [congruence|].
    rewrite (take_S_r _ _ _ Hc), serial_app, <- app_assoc. reflexivity.
Qed.

Lemma serving_trace batch h evs h' :
  Forall (fun c => ungated (t_task c)) batch ->
  serving batch [] h -> trace h evs h' -> forallb worker_event evs = true ->
  serving batch evs h'.
Proof.
  intros Hbatch Hs. induction 1 as [h|h evs h' ev h'' _ IH Hstep]; intros Hev;
    [exact Hs|].
  rewrite forallb_app in Hev. simpl in Hev.
  apply andb_true_iff in Hev as [Hevs Hev]. rewrite andb_true_r in Hev.
  exact (serving_step _ _ _ _ _ Hbatch (IH Hs Hevs) Hev Hstep).
Qed.

(** The one worker can serve the whole queue. *)
Lemma serve_all cs h :
  Forall (fun c => ungated (t_task c)) cs ->
  m_queue h = cs -> m_waiting h = [] -> m_running h = ∅ ->
  m_threadCount h = 1%nat ->
  exists h', trace h (serial 0 cs) h' /\ idle h'.
Proof.
  intros Hcs. revert h. induction Hcs as [|c cs Hc _ IH]; intros h Q W R T.
  - exists h. split; [constructor|]. now split.
  - assert (Htake : takeTask h 0 =
        Some (c, with_running (with_lists h cs (m_waiting h)) (<[0%nat := c]> (m_running h)))).
    { unfold takeTask, getNewTask. now rewrite Q. }
    set (h1 := with_running (with_lists h cs (m_waiting h)) (<[0%nat := c]> (m_running h))) in *.
    assert (S1 : step h (EvTake 0 c) h1).
    { apply step_take; [lia|now rewrite R|exact Htake]. }
    assert (Hr : m_running h1 !! 0%nat = Some c) by (simpl; apply lookup_insert_eq).
    pose proof (step_complete h1 0 c Hr) as S2.
    rewrite (woken_by_ungated _ _ Hc) in S2.
    destruct (complete_ungated _ _ _ Hr Hc) as (Q2 & W2 & R2 & T2).
    destruct (IH (completeTask h1 0)) as (h' & Htr & Hidle).
    + now rewrite Q2.
    + now rewrite W2.
    + rewrite R2. simpl. rewrite R, insert_empty. apply delete_singleton_eq.
    + now rewrite T2.
    + exists h'. split; [|exact Hidle]. simpl.
      apply (trace_cons _ _ h1); [exact S1|].
      apply (trace_cons _ _ (completeTask h1 0)); [exact S2|exact Htr].
Qed.
(** C6.  Let a batch of tasks without semaphores be submitted to an
    idle scheduler with one worker.  The ready queue then holds the
    batch in submission order.  The worker can serve it to the end, and
    in every execution made of worker steps only the tasks are started
    in submission order: the tasks taken so far are a prefix of the
    batch, and once the scheduler is idle again the execution is "take
    the first, complete it, take the second, ..." through the whole
    batch.  In general [submitTasks] appends the ready tasks of a batch
    to the tail of the queue in submission order, and [getNewTask]
    serves the head of the queue. *)
Theorem single_worker_fifo h tasks h1 :
  idle h -> m_threadCount h = 1%nat -> Forall ungated tasks ->
  submitTasks h tasks = Ok h1 ->
  let batch := stamp (m_submitted h) tasks in
  m_queue h1 = batch /\
  (exists h2, trace h1 (serial 0 batch) h2 /\ idle h2) /\
  (forall evs h2,
     trace h1 evs h2 -> forallb worker_event evs = true ->
     takes evs `prefix_of` batch /\
     (idle h2 -> evs = serial 0 batch /\ takes evs = batch)) /\
  (forall h' tasks' h1',
     submitTasks h' tasks' = Ok h1' ->
     m_queue h1' =
     m_queue h' ++ filter (ready h') (stamp (m_submitted h') tasks')) /\
  (forall h' c rest,
     m_queue h' = c :: rest ->
     exists h'', getNewTask h' = Some (c, h'') /\
                 m_queue h'' = rest /\ m_waiting h'' = m_waiting h').
Proof.
  intros (Q0 & W0 & R0) T0 Hung Hsub batch. subst batch.
  pose proof (stamp_ungated (m_submitted h) _ Hung) as Hbatch.
  destruct (submitTasks_spec _ _ _ Hsub) as (Q & W & _ & _ & _ & T & R & _).
  destruct (filter_ready_ungated h _ Hbatch) as [F1 F2].
  rewrite Q0, F1 in Q. rewrite W0, F2 in W. simpl in Q, W.
  assert (Hs : serving (stamp (m_submitted h) tasks) [] h1).
  { split; [exact W|]. split; [congruence|]. exists 0%nat. left.
    rewrite drop_0, take_0. split; [congruence|]. split; [exact Q|reflexivity]. }
  split; [exact Q|]. split; [|split; [|split]].
  - apply serve_all; try assumption; congruence.
  - intros evs h2 Htr Hev.
    destruct (serving_trace _ _ _ _ Hbatch Hs Htr Hev) as (W2 & T2 & k & Hk).
    split.
    + destruct Hk as [(_ & _ & ->)|(c & Hc & _ & _ & ->)].
      * rewrite takes_serial. apply prefix_take.
      * rewrite takes_app, takes_serial. simpl.
        rewrite <- (take_S_r _ _ _ Hc). apply prefix_take.
    + intros (Q2 & _ & R2).
      destruct Hk as [(_ & Hq & ->)|(c & _ & Hrun & _)].
      * rewrite Q2 in Hq. symmetry in Hq. apply drop_nil_inv in Hq.
        rewrite (take_ge _ _ Hq). split; [reflexivity|apply takes_serial].
      * rewrite R2 in Hrun. exfalso.
        assert (H0 : (∅ : gmap nat Task) !! 0%nat = Some c)
          by (rewrite Hrun; apply lookup_singleton_eq).
        rewrite lookup_empty in H0. discriminate.
  - intros h' tasks' h1' Hsub'.
    now destruct (submitTasks_spec _ _ _ Hsub') as (-> & _).
  - intros h' c rest Hq. unfold getNewTask. rewrite Hq.
    eexists. split; [reflexivity|]. split; reflexivity.
Qed.

Lemma single_worker_fifo_witness :
  idle small_hive /\ m_threadCount small_hive = 1%nat /\
  Forall ungated [child; mkTask 8 0 None None] /\
  submitTasks small_hive [child; mkTask 8 0 None None] = Ok hive_pair /\
  m_queue hive_pair = [mkHTask 0 child; mkHTask 1 (mkTask 8 0 None None)].
Proof.
  assert (H1 : idle small_hive) by (repeat split; reflexivity).
  assert (H2 : m_threadCount small_hive = 1%nat) by reflexivity.
  assert (H3 : Forall ungated [child; mkTask 8 0 None None])
    by (repeat constructor).
  assert (H4 : submitTasks small_hive [child; mkTask 8 0 None None] = Ok hive_pair)
    by reflexivity.
  split; [exact H1|]. split; [exact H2|]. split; [exact H3|]. split; [exact H4|].
  exact (proj1 (single_worker_fifo small_hive _ _ H1 H2 H3 H4)).
Defined.

End HiveFacts.

(** ** The pool, on an example *)

Module StackExamples.
Import Stack StackFacts.

Lemma reachable_AB : reachable (pool_AB, blocks_AB).
Proof.
  apply (reach_step (OpAllocate 8 8) (pool_A, [mkBlock 4112 32 true])).
  - apply (reach_step (OpAllocate 8 8) (small_pool, [])).
    + apply (reach_create 4096 zero_memory 256 16);
        [lia|vm_compute; discriminate|reflexivity|reflexivity].
    + apply (step_allocate_ok small_pool [] 8 8 4112 pool_A);
        [split; [lia|vm_compute; discriminate]|reflexivity|discriminate].
  - apply (step_allocate_ok pool_A [mkBlock 4112 32 true] 8 8 4144 pool_AB);
      [split; [lia|vm_compute; discriminate]|reflexivity|discriminate].
Qed.

Lemma reachable_A_failed : reachable (pool_A_failed, [mkBlock 4112 32 true]).
Proof.
  apply (reach_step (OpAllocate 1024 8) (pool_A, [mkBlock 4112 32 true])).
  - apply (reach_step (OpAllocate 8 8) (small_pool, [])).
    + apply (reach_create 4096 zero_memory 256 16);
        [lia|vm_compute; discriminate|reflexivity|reflexivity].
    + apply (step_allocate_ok small_pool [] 8 8 4112 pool_A);
        [split; [lia|vm_compute; discriminate]|reflexivity|discriminate].
  - apply (step_allocate_null pool_A [mkBlock 4112 32 true] 1024 8 pool_A_failed);
      [split; [lia|vm_compute; discriminate]|reflexivity].
Qed.

(** C10, as stated, fails: after a request that did not fit, which
    moved the top all the same, [free] answers [false] for the most
    recent allocation that is outstanding, here the only one. *)
Lemma free_most_recent_refused :
  ~ (forall p bs ptr exchange p',
       reachable (p, bs) -> live bs ptr -> free p ptr = Ok (exchange, p') ->
       (exchange = true <-> most_recent bs = Some ptr)).
Proof.
  intros H.
  assert (Hlive : live [mkBlock 4112 32 true] 4112).
  { exists (mkBlock 4112 32 true). split; [left; reflexivity|]. split; reflexivity. }
  assert (Hfree : exists p', free pool_A_failed 4112 = Ok (false, p'))
    by (eexists; reflexivity).
  destruct Hfree as [p' Hfree].
  destruct (H _ _ _ _ _ reachable_A_failed Hlive Hfree) as [_ Hback].
  specialize (Hback eq_refl). discriminate Hback.
Qed.

Lemma free_top_of_stack_witness :
  reachable (pool_AB, blocks_AB) /\ live blocks_AB 4112 /\
  exists p', free pool_AB 4112 = Ok (false, p') /\
             m_allocationsCount p' = 1 /\ m_top p' = m_top pool_AB.
Proof.
  assert (H : live blocks_AB 4112).
  { exists (mkBlock 4112 32 true). split; [right; left; reflexivity|].
    split; reflexivity. }
  split; [exact reachable_AB|]. split; [exact H|].
  destruct (free_top_of_stack pool_AB blocks_AB 4112 reachable_AB H)
    as (ex & p' & Hfree & Hcount & Hiff & _ & Hfalse).
  assert (Hex : ex = false).
  { destruct ex; [|reflexivity]. destruct Hiff as [Hiff _].
    specialize (Hiff eq_refl). vm_compute in Hiff. discriminate Hiff. }
  subst ex. exists p'. split; [exact Hfree|]. split.
  - rewrite Hcount. reflexivity.
  - exact (proj1 (Hfalse eq_refl)).
Defined.

(** The most recent block is given back and its memory is handed out
    again; the older block, freed first, is not. *)
Example free_in_order :
  exists p1 p2,
    free pool_AB 4144 = Ok (true, p1) /\ m_top p1 = 4128 /\
    free p1 4112 = Ok (true, p2) /\ m_top p2 = 4096.
Proof. eexists _, _. repeat split; reflexivity. Qed.

(** A request so large that its size and the header wrap around 2^64
    is served with a block of one alignment unit. *)
Example huge_request :
  exists p', allocate small_pool (MAX_PTR_SIZE - 7) 1 = Ok (4112, p') /\
             m_top p' = 4112.
Proof. eexists. split; reflexivity. Qed.

(** Nearer to 2^64 the size [allocate] computes is zero: the pointer
    handed out lies above the top, which does not move, and [free] of it
    answers [true] and leaves the top where it is. *)
Example zero_byte_block :
  exists p1 p2,
    allocate pool_A (MAX_PTR_SIZE - 16) 1 = Ok (4144, p1) /\ m_top p1 = 4128 /\
    block_end p1 4144 = 4128 /\
    free p1 4144 = Ok (true, p2) /\ m_top p2 = 4128.
Proof. eexists _, _. repeat split; reflexivity. Qed.

(** A request that fails still moves the top, so the block below it is
    no longer the top of the stack. *)
Example free_after_failed_allocate :
  exists p1 p2,
    allocate pool_A 1024 8 = Ok (0, p1) /\
    free p1 4112 = Ok (false, p2) /\ m_top p2 = m_top p1.
Proof. eexists _, _. repeat split; reflexivity. Qed.

Example free_out_of_order :
  exists p1 p2,
    free pool_AB 4112 = Ok (false, p1) /\ m_top p1 = 4160 /\
    free p1 4144 = Ok (true, p2) /\ m_top p2 = 4128.
Proof. eexists _, _. repeat split; reflexivity. Qed.

End StackExamples.

(** * More about the stack pool *)

Module StackPoolFacts.
Import Stack StackFacts.

Lemma wrapPtr_nonneg z : 0 <= wrapPtr z.
Proof.
  unfold wrapPtr. pose proof (Z.mod_pos_bound z 18446744073709551616). lia.
Qed.

Lemma rounded_nonneg p size : 0 < m_alignmentBytes p -> 0 <= rounded p size.
Proof.
  intros _. unfold rounded. apply wrapPtr_nonneg.
Qed.

Lemma getAlignedRoundUp_mono a v w :
  0 < a -> v <= w -> getAlignedRoundUp a v <= getAlignedRoundUp a w.
Proof.
  intros Ha Hvw. unfold getAlignedRoundUp.
  apply Z.mul_le_mono_nonneg_r; [lia|].
  apply Z.div_le_mono; lia.
Qed.

(** What [create] builds when the callback gives memory. *)
Lemma create_Ok chunk bytes size alignmentBytes :
  0 < size -> 0 < alignmentBytes -> chunk <> 0 ->
  create chunk bytes size alignmentBytes
  = Ok (NONE,
        mkImpl alignmentBytes
               (wrapPtr (getAlignedRoundUp alignmentBytes sizeof_MemoryBlockHeader))
               chunk (wrapPtr (getAlignedRoundUp alignmentBytes size)) chunk 0
               (memset bytes chunk INVALID_BYTE
                       (wrapPtr (getAlignedRoundUp alignmentBytes size)))).
Proof.
  intros Hs Ha Hc. unfold create.
  rewrite assert_bind_true by (now apply Z.ltb_lt).
  rewrite assert_bind_true by (now apply Z.ltb_lt).
  destruct (Z.eqb_spec chunk 0) as [E|_]; [contradiction|reflexivity].
Qed.

(** X1. [create] with a positive size and alignment, the size rounded
    up to the alignment being a [PtrSize] (below 2^64): when the
    callback gives no memory the answer is OUT_OF_MEMORY; when it gives
    memory the pool starts at that address with nothing allocated, its
    total size is the requested size rounded up to the alignment, so at
    least the size asked for and less than one alignment more, and the
    checking build has filled that memory with the byte 0xCC. *)
Theorem create_total_size chunk bytes size alignmentBytes :
  0 < size -> 0 < alignmentBytes ->
  getAlignedRoundUp alignmentBytes size <= MAX_PTR_SIZE ->
  (chunk = 0 ->
   exists p, create chunk bytes size alignmentBytes = Ok (OUT_OF_MEMORY, p)) /\
  (chunk <> 0 ->
   exists p, create chunk bytes size alignmentBytes = Ok (NONE, p) /\
     getBaseAddress p = Ok chunk /\
     getAllocatedSize p = Ok 0 /\
     m_allocationsCount p = 0 /\
     size <= getTotalSize p < size + alignmentBytes /\
     isAligned alignmentBytes (getTotalSize p) = true /\
     forall a, chunk <= a < chunk + getTotalSize p -> m_bytes p a = INVALID_BYTE).
Proof.
  intros Hs Ha Hfit. split; intros Hc.
  - subst chunk. unfold create.
    rewrite assert_bind_true by (now apply Z.ltb_lt).
    rewrite assert_bind_true by (now apply Z.ltb_lt).
    simpl. eexists. reflexivity.
  - rewrite (create_Ok chunk bytes size alignmentBytes Hs Ha Hc).
    eexists. split; [reflexivity|].
    unfold getBaseAddress, getAllocatedSize, getTotalSize. simpl.
    rewrite !assert_bind_true by (now apply negb_true_iff, Z.eqb_neq).
    split; [reflexivity|]. split; [f_equal; lia|]. split; [reflexivity|].
    pose proof (getAlignedRoundUp_ge alignmentBytes size Ha).
    pose proof (getAlignedRoundUp_le alignmentBytes size Ha).
    rewrite wrapPtr_small by lia.
    split; [lia|]. split; [now apply getAlignedRoundUp_aligned|].
    intros a Hin. unfold memset.
    destruct (Z.leb_spec chunk a); [|lia].
    destruct (Z.ltb_spec a (chunk + getAlignedRoundUp alignmentBytes size)); [|lia].
    reflexivity.
Qed.

Lemma create_total_size_witness :
  exists p, create 4096 zero_memory 250 16 = Ok (NONE, p) /\
            getTotalSize p = 256.
Proof.
  destruct (create_total_size 4096 zero_memory 250 16) as [_ H];
    [lia|lia|vm_compute; discriminate|].
  destruct H as (p & Hp & _); [lia|].
  exists p. split; [exact Hp|].
  vm_compute in Hp. injection Hp as <-. reflexivity.
Defined.

(** X2. A request that fits and does not wrap around 2^64: [allocate]
    returns the old top plus the header size, a pointer aligned to the
    pool's alignment; the [size] bytes behind it lie inside the pool's
    memory, below the new top; the four bytes in front of the block
    hold the number of bytes taken from the stack; and the pool stays
    in order. *)
Theorem allocate_block_in_bounds p size alignment :
  pool_wf p -> no_wrap p size ->
  alignment <= m_alignmentBytes p -> rounded p size < MAX_U32 ->
  fits p size ->
  exists out p',
    allocate p size alignment = Ok (out, p') /\
    out = m_top p + m_headerSize p /\
    isAligned (m_alignmentBytes p) out = true /\
    m_memory p + sizeof_MemoryBlockHeader <= out /\
    out + size <= m_top p' /\
    m_top p' <= m_memory p + m_memsize p /\
    memcpy_to_U32 (m_bytes p') (out - m_headerSize p) = m_top p' - m_top p /\
    pool_wf p'.
Proof.
  intros Hwf Hnw Hal Hmax Hfit.
  destruct (allocate_fits _ _ _ Hwf Hal Hmax Hfit) as (p' & Hp' & Htop & _).
  pose proof (headerSize_ge _ Hwf) as Hhs.
  pose proof (rounded_ge _ _ Hwf Hnw) as Hr.
  pose proof (proj1 Hnw) as Hs.
  unfold sizeof_MemoryBlockHeader, sizeof_U32 in *.
  assert (Ht : tracks (p', [mkBlock (m_top p + m_headerSize p) (rounded p size) true])).
  { apply (tracks_step (OpAllocate size alignment) (p, [])).
    - split; [exact Hwf|]. split; [exact I|constructor].
    - apply step_allocate_ok; try assumption.
      destruct Hwf as (_ & Wm & _ & _ & _ & Wmt & _). lia. }
  destruct Ht as (Hwf' & _ & _). simpl in Hwf'.
  pose proof Hp' as Hcall.
  apply allocate_Ok in Hp' as
    (_ & _ & _ & _ & _ & _ & _ & _ & [(_ & _ & Hali & _ & Hb)|(Hn & _)]);
    [|contradiction].
  exists (m_top p + m_headerSize p), p'.
  unfold fits in Hfit.
  destruct Hwf as (Wa & Wm & Wh & Wam & Wat & Wmt & Wmax).
  split; [exact Hcall|]. split; [reflexivity|]. split; [exact Hali|].
  split; [lia|]. split; [lia|]. split; [lia|]. split; [|exact Hwf'].
  rewrite Hb, Htop.
  replace (m_top p + m_headerSize p - m_headerSize p) with (m_top p) by lia.
  rewrite memcpy_U32_same by (apply wrap32_range).
  rewrite wrap32_small by (unfold MAX_U32 in *; lia). lia.
Qed.
Lemma allocate_block_in_bounds_witness :
  exists out p',
    allocate small_pool 8 8 = Ok (out, p') /\ out = 4112 /\ m_top p' = 4128.
Proof.
  destruct (allocate_block_in_bounds small_pool 8 8) as
    (out & p' & H & Ho & _ & _ & _ & _ & _ & _);
    [exact HiveFacts.small_pool_wf|split; [lia|vm_compute; discriminate]|simpl; lia
    |vm_compute; reflexivity|vm_compute; discriminate|].
  exists out, p'. split; [exact H|]. split; [exact Ho|].
  vm_compute in H. injection H as _ <-. reflexivity.
Defined.

(** The constants of a pool stay through [allocate] and [free]. *)
Lemma calls_frame p q :
  calls p q ->
  m_alignmentBytes q = m_alignmentBytes p /\
  m_headerSize q = m_headerSize p /\
  m_memory q = m_memory p /\
  m_memsize q = m_memsize p.
Proof.
  induction 1 as [p|p q size al out q' _ IH Hal|p q ptr ex q' _ IH Hfr].
  - repeat split.
  - apply allocate_Ok in Hal as (_ & _ & _ & E1 & E2 & E3 & E4 & _).
    destruct IH as (I1 & I2 & I3 & I4).
    repeat split; congruence.
  - apply free_Ok in Hfr as (_ & _ & _ & _ & _ & E1 & E2 & E3 & E4 & _).
    destruct IH as (I1 & I2 & I3 & I4).
    repeat split; congruence.
Qed.

Lemma allocate_wf p size alignment out p' :
  pool_wf p -> no_wrap p size ->
  allocate p size alignment = Ok (out, p') -> pool_wf p'.
Proof.
  intros Hwf Hnw Hal.
  pose proof (rounded_nonneg p size (proj1 Hwf)) as Hr.
  pose proof (rounded_aligned p size Hwf Hnw) as Hra.
  destruct Hwf as (Wa & Wm & Wh & Wam & Wat & Wmt & Wmax).
  apply allocate_Ok in Hal as (_ & _ & _ & E1 & E2 & E3 & E4 & E5 & _).
  unfold pool_wf. rewrite E1, E2, E3, E5.
  split; [exact Wa|]. split; [exact Wm|]. split; [exact Wh|].
  split; [exact Wam|]. split; [|split; [lia|exact Wmax]].
  apply isAligned_add; assumption.
Qed.

Lemma free_wf p ptr exchange p' :
  pool_wf p -> free p ptr = Ok (exchange, p') -> pool_wf p'.
Proof.
  intros Hwf Hfr.
  pose proof (headerSize_aligned _ Hwf) as Hha.
  destruct Hwf as (Wa & Wm & Wh & Wam & Wat & Wmt & Wmax).
  apply free_Ok in Hfr as (_ & Hal & Hlow & _ & _ & E1 & E2 & E3 & E4 & E5 & _).
  unfold pool_wf. rewrite E1, E2, E3, E5.
  split; [exact Wa|]. split; [exact Wm|]. split; [exact Wh|].
  split; [exact Wam|].
  destruct exchange.
  - split; [|split; [lia|exact Wmax]]. now apply isAligned_sub.
  - split; [exact Wat|]. split; [lia|exact Wmax].
Qed.

(** X3. Allocating and freeing straight away: a request that fits
    returns a pointer which [free] accepts with [true]; after the two
    calls the top of the stack and the number of allocations are what
    they were, and the same request gets the same pointer again. *)
Theorem allocate_free_roundtrip p size alignment :
  pool_wf p -> isU32 (m_allocationsCount p) ->
  alignment <= m_alignmentBytes p -> rounded p size < MAX_U32 ->
  fits p size ->
  exists out p1 p2 p3,
    allocate p size alignment = Ok (out, p1) /\ out <> 0 /\
    free p1 out = Ok (true, p2) /\
    m_top p2 = m_top p /\
    m_allocationsCount p2 = m_allocationsCount p /\
    getAllocatedSize p2 = getAllocatedSize p /\
    allocate p2 size alignment = Ok (out, p3).
Proof.
  intros Hwf Hcount Hal Hmax Hfit.
  destruct (allocate_fits _ _ _ Hwf Hal Hmax Hfit) as (p1 & Hp1 & Htop1 & Hc1).
  pose proof (headerSize_ge _ Hwf) as Hhs.
  pose proof (rounded_nonneg p size (proj1 Hwf)) as Hr.
  unfold sizeof_MemoryBlockHeader, sizeof_U32 in Hhs.
  pose proof Hp1 as Hcall.
  apply allocate_Ok in Hp1 as
    (_ & _ & _ & E1 & E2 & E3 & E4 & _ & [(_ & _ & Hali & _ & Hb)|(Hn & _)]);
    [|contradiction].
  destruct Hwf as (Wa & Wm & Wh & Wam & Wat & Wmt & Wmax).
  assert (Hhead : memcpy_to_U32 (m_bytes p1) (m_top p) = rounded p size).
  { rewrite Hb, memcpy_U32_same by (apply wrap32_range).
    apply wrap32_small. unfold MAX_U32 in *. lia. }
  set (out := m_top p + m_headerSize p) in *.
  assert (Hreal : out - m_headerSize p1 = m_top p) by (subst out; lia).
  set (p2 := mkImpl (m_alignmentBytes p1) (m_headerSize p1) (m_memory p1)
                    (m_memsize p1) (m_top p)
                    (wrap32 (m_allocationsCount p1 - 1)) (m_bytes p1)).
  assert (Hfree : free p1 out = Ok (true, p2)).
  { unfold free. rewrite Hreal, Hhead, E1, E3, E4.
    rewrite assert_bind_true.
    2:{ apply andb_true_intro. split; [|exact Hali].
        apply negb_true_iff, Z.eqb_neq. subst out. lia. }
    rewrite assert_bind_true by (apply negb_true_iff, Z.eqb_neq; lia).
    rewrite assert_bind_true by (apply Z.leb_le; lia).
    rewrite assert_bind_true by (apply Z.leb_le; exact Hfit).
    rewrite Htop1, Z.eqb_refl. subst p2. rewrite E1, E3, E4. reflexivity. }
  assert (Hc2 : m_allocationsCount p2 = m_allocationsCount p).
  { subst p2. simpl. rewrite Hc1, HiveFacts.wrap32_sub_l.
    replace (m_allocationsCount p + 1 - 1) with (m_allocationsCount p) by lia.
    now apply wrap32_small. }
  assert (Hwf2 : pool_wf p2).
  { subst p2. unfold pool_wf. simpl. rewrite E1, E2, E3.
    repeat (split; [assumption|]). assumption. }
  assert (Hfit2 : fits p2 size).
  { unfold fits, rounded in *. subst p2. simpl. now rewrite E1, E2, E3, E4. }
  destruct (allocate_fits p2 size alignment Hwf2) as (p3 & Hp3 & _).
  { subst p2. simpl. now rewrite E1. }
  { unfold rounded in *. subst p2. simpl. now rewrite E1, E2. }
  { exact Hfit2. }
  exists out, p1, p2, p3.
  split; [exact Hcall|]. split; [subst out; lia|]. split; [exact Hfree|].
  split; [reflexivity|]. split; [exact Hc2|]. split.
  - unfold getAllocatedSize. subst p2. simpl. now rewrite E3.
  - replace out with (m_top p2 + m_headerSize p2); [exact Hp3|].
    subst p2 out. simpl. now rewrite E2.
Qed.

Lemma allocate_free_roundtrip_witness :
  exists out p1 p2,
    allocate small_pool 8 8 = Ok (out, p1) /\
    free p1 out = Ok (true, p2) /\ m_top p2 = 4096.
Proof.
  destruct (allocate_free_roundtrip small_pool 8 8) as
    (out & p1 & p2 & _ & H1 & _ & H2 & H3 & _);
    [exact HiveFacts.small_pool_wf|vm_compute; split; discriminate|simpl; lia
    |vm_compute; reflexivity|vm_compute; discriminate|].
  exists out, p1, p2. split; [exact H1|]. split; [exact H2|exact H3].
Defined.

Lemma chain_disjoint p limit bs b1 b2 :
  chain p limit bs -> In b1 bs -> In b2 bs -> b1 <> b2 ->
  b_end p b1 <= b_start p b2 \/ b_end p b2 <= b_start p b1.
Proof.
  revert limit. induction bs as [|b0 bs IH]; simpl; [tauto|].
  intros limit (He & Hs & Hc) [E1|H1] [E2|H2] Hne.
  - congruence.
  - subst b0. right. exact (proj1 (chain_In _ _ _ _ Hc H2)).
  - subst b0. left. exact (proj1 (chain_In _ _ _ _ Hc H1)).
  - exact (IH _ Hc H1 H2 Hne).
Qed.

(** X4. Blocks in use never overlap.  In a pool built by [create] and
    used through any calls whose requests do not wrap around 2^64
    ([no_wrap]), two different pointers that [allocate] returned and
    that are still live have their blocks (header included, up to the
    end [free] reads from the header) apart from each other, and each
    block lies inside the memory of the pool.  Nearer to 2^64 a request
    can get a block of no bytes, whose pointer lies beyond its end. *)
Theorem live_blocks_disjoint p bs ptr1 ptr2 :
  reachable (p, bs) -> live bs ptr1 -> live bs ptr2 -> ptr1 <> ptr2 ->
  (block_end p ptr1 <= ptr2 - m_headerSize p \/
   block_end p ptr2 <= ptr1 - m_headerSize p) /\
  m_memory p <= ptr1 - m_headerSize p /\
  ptr1 <= block_end p ptr1 /\
  block_end p ptr1 <= m_memory p + m_memsize p.
Proof.
  intros Hr H1 H2 Hne.
  pose proof (reachable_tracks _ Hr) as Ht.
  destruct (live_block _ _ _ Ht H1) as (b1 & Hin1 & Hp1 & _ & Hok1 & He1).
  destruct (live_block _ _ _ Ht H2) as (b2 & Hin2 & Hp2 & _ & Hok2 & He2).
  destruct Ht as (Hwf & Hc & _). simpl in Hc.
  assert (Hb : b1 <> b2) by congruence.
  pose proof (chain_disjoint _ _ _ _ _ Hc Hin1 Hin2 Hb) as Hd.
  destruct Hok1 as (B1 & B2 & B3 & _).
  rewrite He1, He2. unfold b_end, b_start in *. subst ptr1 ptr2.
  split; [exact Hd|]. split; [exact B1|]. split; [lia|exact B2].
Qed.

Lemma live_blocks_disjoint_witness :
  block_end pool_AB 4144 <= 4112 - m_headerSize pool_AB \/
  block_end pool_AB 4112 <= 4144 - m_headerSize pool_AB.
Proof.
  refine (proj1 (live_blocks_disjoint pool_AB blocks_AB 4144 4112
                   StackExamples.reachable_AB _ _ _)).
  - exists (mkBlock 4144 32 true). simpl. auto.
  - exists (mkBlock 4112 32 true). simpl. auto.
  - lia.
Defined.

(** X5. A request that does not fit uses the pool up.  Once [allocate]
    has answered null, after any further [allocate] and [free] calls
    (no [reset]) the allocated size reads more than the total size,
    every [allocate], however small its request, answers null, and
    every [free] answers [false]. *)
Theorem failed_allocate_exhausts p size alignment p1 q :
  pool_wf p -> allocate p size alignment = Ok (0, p1) -> calls p1 q ->
  (exists n, getAllocatedSize q = Ok n /\ getTotalSize q < n) /\
  (forall size' alignment' out q',
     allocate q size' alignment' = Ok (out, q') -> out = 0) /\
  (forall ptr exchange q',
     free q ptr = Ok (exchange, q') -> exchange = false).
Proof.
  intros Hwf Hal Hcalls.
  pose proof (headerSize_ge _ Hwf) as Hhs.
  unfold sizeof_MemoryBlockHeader, sizeof_U32 in Hhs.
  assert (Hinv : 0 < m_alignmentBytes q /\ 0 < m_memory q /\
                 m_memory q + m_memsize q < m_top q).
  { induction Hcalls as [p1|p1 q s al out q' _ IH Hq|p1 q ptr ex q' _ IH Hq].
    - destruct Hwf as (Wa & Wm & Wh & Wam & Wat & Wmt & Wmax).
      apply allocate_Ok in Hal as
        (_ & _ & _ & E1 & E2 & E3 & E4 & E5 & [(_ & Eo & _)|(Hn & _)]);
        [lia|].
      unfold fits in Hn. rewrite E1, E3, E4, E5. lia.
    - destruct (IH Hal) as (Ia & Im & It).
      pose proof (rounded_nonneg q s Ia) as Hr.
      apply allocate_Ok in Hq as (_ & _ & _ & E1 & E2 & E3 & E4 & E5 & _).
      rewrite E1, E3, E4, E5. lia.
    - destruct (IH Hal) as (Ia & Im & It).
      apply free_Ok in Hq as
        (_ & _ & _ & Hend & Hex & E1 & E2 & E3 & E4 & E5 & _).
      assert (ex = false) as ->.
      { rewrite Hex. apply Z.eqb_neq. lia. }
      rewrite E1, E3, E4, E5. lia. }
  destruct Hinv as (Ia & Im & It).
  split; [|split].
  - exists (m_top q - m_memory q). unfold getAllocatedSize, getTotalSize.
    rewrite assert_bind_true by (apply negb_true_iff, Z.eqb_neq; lia).
    split; [reflexivity|lia].
  - intros s al out q' Hq.
    pose proof (rounded_nonneg q s Ia) as Hr.
    apply allocate_Ok in Hq as
      (_ & _ & _ & _ & _ & _ & _ & _ & [(Hf & _)|(_ & Eo & _)]);
      [|exact Eo].
    unfold fits in Hf. lia.
  - intros ptr ex q' Hq.
    apply free_Ok in Hq as (_ & _ & _ & Hend & Hex & _).
    rewrite Hex. apply Z.eqb_neq. lia.
Qed.

Lemma failed_allocate_exhausts_witness :
  exists n, getAllocatedSize pool_failed = Ok n /\ getTotalSize pool_failed < n.
Proof.
  refine (proj1 (failed_allocate_exhausts small_pool 1000 8
                   pool_failed pool_failed _ _ _)).
  - exact HiveFacts.small_pool_wf.
  - reflexivity.
  - apply calls_refl.
Defined.

(** X6. [reset] gives the whole memory back, whatever state the stack
    was in: the allocated size is 0 again, and a request whose rounded
    size is within the total size is served at the base of the memory,
    behind one header.  The number of allocations is not reset. *)
Theorem reset_makes_room p size alignment :
  pool_wf p -> alignment <= m_alignmentBytes p ->
  rounded p size < MAX_U32 -> rounded p size <= getTotalSize p ->
  exists p1 p2,
    reset p = Ok p1 /\
    getAllocatedSize p1 = Ok 0 /\
    m_allocationsCount p1 = m_allocationsCount p /\
    allocate p1 size alignment = Ok (m_memory p + m_headerSize p, p2).
Proof.
  intros Hwf Hal Hmax Hsize.
  destruct Hwf as (Wa & Wm & Wh & Wam & Wat & Wmt & Wmax).
  set (p1 := mkImpl (m_alignmentBytes p) (m_headerSize p) (m_memory p)
                    (m_memsize p) (m_memory p) (m_allocationsCount p)
                    (memset (m_bytes p) (m_memory p) INVALID_BYTE (m_memsize p))).
  assert (Hwf1 : pool_wf p1).
  { unfold pool_wf. subst p1. simpl.
    repeat (split; [assumption|]). split; [lia|assumption]. }
  destruct (allocate_fits p1 size alignment Hwf1) as (p2 & Hp2 & _).
  - exact Hal.
  - exact Hmax.
  - unfold fits, getTotalSize in *. unfold rounded in *. subst p1. simpl. lia.
  - exists p1, p2. split; [|split; [|split]].
    + unfold reset.
      rewrite assert_bind_true by (apply negb_true_iff, Z.eqb_neq; lia).
      reflexivity.
    + unfold getAllocatedSize.
      rewrite assert_bind_true by (apply negb_true_iff, Z.eqb_neq; simpl; lia).
      subst p1. simpl. f_equal. lia.
    + reflexivity.
    + exact Hp2.
Qed.

Lemma reset_makes_room_witness :
  exists p1 p2,
    reset pool_failed = Ok p1 /\
    allocate p1 8 8 = Ok (4112, p2).
Proof.
  destruct (reset_makes_room pool_failed 8 8) as (p1 & p2 & H1 & _ & _ & H2).
  - vm_compute. repeat split; discriminate.
  - vm_compute. discriminate.
  - vm_compute. reflexivity.
  - vm_compute. discriminate.
  - exists p1, p2. split; [exact H1|exact H2].
Defined.

(** X7. Snapshots.  [getShapshot] reads the top of the stack.  Taken
    while the top is below the end of the memory, the snapshot can be
    handed to [resetUsingSnapshot] after any further [allocate] and
    [free] calls: the top and the allocated size are then what they were
    at the snapshot and [allocate] answers from there as it would have
    then.  A snapshot taken when the stack had reached the end of the
    memory (a full pool, or one after a failed request) is refused by
    an assertion of [resetUsingSnapshot]. *)
Theorem snapshot_restore pool p s q :
  m_impl pool = Some p -> pool_wf p ->
  StackMemoryPool_getShapshot pool = Ok s -> calls p q ->
  (s < m_memory p + m_memsize p ->
   exists r,
     StackMemoryPool_resetUsingSnapshot (mkPool (Some q)) s
       = Ok (mkPool (Some r)) /\
     StackMemoryPool_getShapshot (mkPool (Some r)) = Ok s /\
     StackMemoryPool_getAllocatedSize (mkPool (Some r))
       = StackMemoryPool_getAllocatedSize pool /\
     m_allocationsCount r = m_allocationsCount q /\
     forall size alignment out p',
       allocate p size alignment = Ok (out, p') ->
       exists r', allocate r size alignment = Ok (out, r') /\
                  m_top r' = m_top p') /\
  (m_memory p + m_memsize p <= s ->
   StackMemoryPool_resetUsingSnapshot (mkPool (Some q)) s = AssertFailed).
Proof.
  intros Hp Hwf Hs Hcalls.
  unfold StackMemoryPool_getShapshot in Hs. rewrite Hp in Hs.
  rewrite assert_bind_true in Hs by (apply bool_decide_eq_true; eauto).
  injection Hs as <-.
  destruct (calls_frame _ _ Hcalls) as (F1 & F2 & F3 & F4).
  destruct Hwf as (Wa & Wm & Wh & Wam & Wat & Wmt & Wmax).
  unfold StackMemoryPool_resetUsingSnapshot. simpl.
  rewrite F1, F2, F3, F4.
  rewrite assert_bind_true by (apply Z.leb_le; lia).
  split; intros Hb.
  - rewrite assert_bind_true by (apply Z.ltb_lt; lia).
    eexists. split; [reflexivity|]. split; [|split; [|split]].
    + reflexivity.
    + unfold StackMemoryPool_getAllocatedSize. rewrite Hp. simpl.
      unfold getAllocatedSize. simpl. reflexivity.
    + reflexivity.
    + intros size al out p' Hal.
      unfold allocate in *. simpl.
      apply assert_bind_Ok in Hal as [H1 Hal]. rewrite assert_bind_true by exact H1.
      apply assert_bind_Ok in Hal as [H2 Hal]. rewrite assert_bind_true by exact H2.
      apply assert_bind_Ok in Hal as [H3 Hal]. rewrite assert_bind_true by exact H3.
      match type of Hal with
      | context [if ?c then _ else _] => destruct c
      end.
      * apply assert_bind_Ok in Hal as [H4 Hal].
        rewrite assert_bind_true by exact H4.
        injection Hal as <- <-. eexists. split; reflexivity.
      * injection Hal as <- <-. eexists. split; reflexivity.
  - unfold ANKI_ASSERT.
    destruct (Z.ltb_spec (m_top p) (m_memory p + m_memsize p)); [lia|].
    reflexivity.
Qed.

Lemma snapshot_restore_witness :
  StackMemoryPool_resetUsingSnapshot (mkPool (Some pool_AB)) 4096
    = Ok (mkPool (Some (mkImpl 16 16 4096 256 4096 2 (m_bytes pool_AB)))) /\
  StackMemoryPool_resetUsingSnapshot (mkPool (Some pool_failed)) 5120
    = AssertFailed.
Proof.
  split.
  - destruct (snapshot_restore (mkPool (Some small_pool)) small_pool 4096 pool_AB)
      as [H _].
    + reflexivity.
    + exact HiveFacts.small_pool_wf.
    + reflexivity.
    + apply (calls_allocate small_pool pool_A 8 8 4144 pool_AB);
        [|reflexivity].
      apply (calls_allocate small_pool small_pool 8 8 4112 pool_A);
        [apply calls_refl|reflexivity].
    + destruct H as (r & Hr & _); [vm_compute; reflexivity|].
      rewrite Hr. vm_compute in Hr. injection Hr as <-. reflexivity.
  - refine (proj2 (snapshot_restore (mkPool (Some pool_failed)) pool_failed 5120
                     pool_failed _ _ _ _) _).
    + reflexivity.
    + vm_compute. repeat split; discriminate.
    + reflexivity.
    + apply calls_refl.
    + vm_compute. discriminate.
Defined.

(** X8. [StackAllocator::deallocate] on a live pointer of a pool built
    by [create].  Without the deallocation flag it leaves the allocator
    as it is.  With the flag it pops the block when the block is the
    top of the stack, and throws ("Freeing wrong pointer") when it is
    not. *)
Theorem deallocate_in_order a p bs ptr n :
  arena a = Some p -> reachable (p, bs) -> live bs ptr ->
  StackAllocator_deallocate false a ptr n = Ok a /\
  (block_end p ptr = m_top p ->
   exists a' p',
     StackAllocator_deallocate true a ptr n = Ok a' /\
     arena a' = Some p' /\ m_top p' = ptr - m_headerSize p) /\
  (block_end p ptr <> m_top p ->
   StackAllocator_deallocate true a ptr n = Thrown).
Proof.
  intros Ha Hr Hlive.
  pose proof (reachable_tracks _ Hr) as Ht.
  destruct (free_live_returns _ _ _ Ht Hlive) as (ex & p' & Hfree).
  apply HiveFacts.arena_Some in Ha as (pool & Ea & Ep).
  unfold StackAllocator_deallocate, StackMemoryPool_free.
  rewrite Ea, Ep.
  rewrite !assert_bind_true by (apply bool_decide_eq_true; eauto).
  rewrite Hfree.
  apply free_Ok in Hfree as (_ & _ & _ & _ & Hex & _ & _ & _ & _ & Etop & _).
  split; [reflexivity|]. split; intros Hend.
  - assert (ex = true) as ->.
    { rewrite Hex. apply Z.eqb_eq. now symmetry. }
    exists (mkAlloc (Some (mkPool (Some p')))), p'.
    split; [reflexivity|]. split; [reflexivity|exact Etop].
  - assert (ex = false) as ->.
    { rewrite Hex. apply Z.eqb_neq. congruence. }
    reflexivity.
Qed.

Lemma deallocate_in_order_witness :
  StackAllocator_deallocate true (allocator_of pool_AB) 4112 1 = Thrown /\
  exists a', StackAllocator_deallocate true (allocator_of pool_AB) 4144 1 = Ok a'.
Proof.
  split.
  - refine (proj2 (proj2 (deallocate_in_order (allocator_of pool_AB) pool_AB
                            blocks_AB 4112 1 _ StackExamples.reachable_AB _)) _).
    + reflexivity.
    + exists (mkBlock 4112 32 true). simpl. auto.
    + vm_compute. discriminate.
  - destruct (deallocate_in_order (allocator_of pool_AB) pool_AB blocks_AB 4144 1)
      as (_ & H & _).
    + reflexivity.
    + exact StackExamples.reachable_AB.
    + exists (mkBlock 4144 32 true). simpl. auto.
    + destruct H as (a' & _ & H & _); [vm_compute; reflexivity|].
      exists a'. exact H.
Defined.

(** X9. Two semaphores of one hive do not share storage.  When
    [newSemaphore] returns twice in a row on a hive whose arena is in
    order, the second address lies beyond the object at the first, and
    both semaphores hold the value they were created with. *)
Theorem newSemaphore_twice h p v1 v2 sem1 h1 sem2 h2 :
  arena (Hive.m_alloc h) = Some p -> pool_wf p ->
  Hive.newSemaphore h v1 = Ok (sem1, h1) ->
  Hive.newSemaphore h1 v2 = Ok (sem2, h2) ->
  sem1 + sizeof_ThreadHiveSemaphore <= sem2 /\
  Hive.load h2 sem1 = v1 /\ Hive.load h2 sem2 = v2.
Proof.
  intros Ha Hwf H1 H2.
  apply HiveFacts.newSemaphore_Ok in H1 as
    (_ & Hnz1 & a1 & p0 & p1 & Ha0 & Ha1 & Hal1 & ->).
  apply HiveFacts.newSemaphore_Ok in H2 as
    (_ & Hnz2 & a2 & p1' & p2 & Ha1' & Ha2 & Hal2 & ->).
  simpl in Ha1'.
  assert (p0 = p) as -> by congruence.
  assert (p1' = p1) as -> by congruence.
  pose proof (headerSize_ge _ Hwf) as Hhs.
  assert (Hreq : Hive.semaphore_request = 4) by reflexivity.
  assert (Hhs' : m_headerSize p <= MAX_U32 + 3) by (apply headerSize_le, Hwf).
  assert (Hnw : no_wrap p Hive.semaphore_request).
  { apply no_wrap_small; [exact Hwf|]. rewrite Hreq. unfold MAX_U32. lia. }
  pose proof (rounded_ge p Hive.semaphore_request Hwf Hnw) as Hr.
  unfold sizeof_MemoryBlockHeader, sizeof_ThreadHiveSemaphore, sizeof_U32 in *.
  rewrite Hreq in *.
  apply allocate_Ok in Hal1 as
    (_ & _ & _ & _ & E2 & _ & _ & E5 & [(_ & Eo1 & _)|(_ & Eo1 & _)]);
    [|contradiction].
  apply allocate_Ok in Hal2 as
    (_ & _ & _ & _ & _ & _ & _ & _ & [(_ & Eo2 & _)|(_ & Eo2 & _)]);
    [|contradiction].
  assert (Hs : sem1 + 4 <= sem2) by (rewrite Eo1, Eo2, E5, E2; lia).
  split; [exact Hs|]. unfold Hive.load. simpl.
  rewrite lookup_insert_ne by lia.
  rewrite !lookup_insert_eq. simpl. split; reflexivity.
Qed.

Lemma newSemaphore_twice_witness :
  exists h1 h2,
    Hive.newSemaphore small_hive 1 = Ok (4112, h1) /\
    Hive.newSemaphore h1 2 = Ok (4144, h2) /\
    Hive.load h2 4112 = 1 /\ Hive.load h2 4144 = 2.
Proof.
  eexists. eexists.
  split; [reflexivity|]. split; [reflexivity|].
  refine (proj2 (newSemaphore_twice small_hive small_pool 1 2 4112 _ 4144 _
                   _ _ _ _)).
  - reflexivity.
  - exact HiveFacts.small_pool_wf.
  - reflexivity.
  - reflexivity.
Defined.

End StackPoolFacts.

(** * The heap pool *)

Module HeapFacts.
Import StackFacts.

Lemma wrap32_testbit z n :
  Z.testbit (wrap32 z) n = (n <? 32) && Z.testbit z n.
Proof.
  unfold wrap32. change 4294967296 with (2 ^ 32).
  apply Z.testbit_mod_pow2. lia.
Qed.

Lemma wrap32_idemp z : wrap32 (wrap32 z) = wrap32 z.
Proof. apply wrap32_small, wrap32_range. Qed.

(** The last step of [computeSignature], bit by bit. *)
Lemma mix_testbit y n :
  Z.testbit (Z.lxor y (wrap32 (Z.shiftl y 24))) n =
  xorb (Z.testbit y n) ((n <? 32) && Z.testbit y (n - 24)).
Proof.
  rewrite Z.lxor_spec, wrap32_testbit.
  destruct (Z.le_gt_cases 0 n) as [Hn|Hn].
  - rewrite Z.shiftl_spec by lia. reflexivity.
  - rewrite !(Z.testbit_neg_r _ n), (Z.testbit_neg_r _ (n - 24)) by lia.
    reflexivity.
Qed.

(** Applied twice, that step gives its argument back. *)
Lemma mix_involutive y :
  let mix z := Z.lxor z (wrap32 (Z.shiftl z 24)) in mix (mix y) = y.
Proof.
  cbv zeta. apply Z.bits_inj'. intros n Hn.
  rewrite !mix_testbit.
  destruct (Z.ltb_spec n 32) as [Hlt|Hge]; simpl.
  - destruct (Z.ltb_spec (n - 24) 32) as [_|Hc]; [|lia]. simpl.
    rewrite (Z.testbit_neg_r y (n - 24 - 24)) by lia.
    destruct (Z.testbit y n), (Z.testbit y (n - 24)); reflexivity.
  - destruct (Z.testbit y n); reflexivity.
Qed.

Lemma computeSignature_Ok ptr sig :
  Heap.computeSignature ptr = Ok sig ->
  ptr <> 0 /\
  sig = Z.lxor (Z.lxor (wrap32 ptr) 1540483477)
          (wrap32 (Z.shiftl (Z.lxor (wrap32 ptr) 1540483477) 24)).
Proof.
  unfold Heap.computeSignature. intros H.
  apply assert_bind_Ok in H as [Hp H].
  apply negb_true_iff, Z.eqb_neq in Hp.
  injection H as <-. split; [exact Hp|reflexivity].
Qed.

Lemma computeSignature_U32 ptr sig :
  Heap.computeSignature ptr = Ok sig -> isU32 sig.
Proof.
  intros H. apply computeSignature_Ok in H as [_ ->].
  unfold isU32.
  match goal with |- 0 <= ?s <= _ => replace s with (wrap32 s) end.
  { apply wrap32_range. }
  apply Z.bits_inj'. intros n Hn.
  rewrite wrap32_testbit, mix_testbit, Z.lxor_spec, wrap32_testbit.
  change 1540483477 with (wrap32 1540483477). rewrite wrap32_testbit.
  destruct (n <? 32); reflexivity.
Qed.

(** X10. The signature of a heap pool is a 32-bit value that depends
    only on the low 32 bits of the pool's address, and two pools whose
    addresses differ in those bits have different signatures. *)
Theorem signature_tells_pools_apart this1 this2 sig1 sig2 :
  Heap.computeSignature this1 = Ok sig1 ->
  Heap.computeSignature this2 = Ok sig2 ->
  isU32 sig1 /\ (sig1 = sig2 <-> wrap32 this1 = wrap32 this2).
Proof.
  intros H1 H2. split; [exact (computeSignature_U32 _ _ H1)|].
  apply computeSignature_Ok in H1 as [_ ->].
  apply computeSignature_Ok in H2 as [_ ->].
  split; intros E.
  - apply (f_equal (fun z => Z.lxor z (wrap32 (Z.shiftl z 24)))) in E.
    rewrite !mix_involutive in E.
    apply (f_equal (fun z => Z.lxor z 1540483477)) in E.
    now rewrite !Z.lxor_assoc, !Z.lxor_nilpotent, !Z.lxor_0_r in E.
  - now rewrite E.
Qed.

Lemma signature_tells_pools_apart_witness :
  Heap.computeSignature 4096 <> Heap.computeSignature 8192.
Proof.
  intros E.
  destruct (signature_tells_pools_apart 4096 8192 _ _ eq_refl eq_refl)
    as [_ [H _]].
  assert (W : wrap32 4096 = wrap32 8192).
  { apply H. now injection E. }
  vm_compute in W. discriminate W.
Defined.

Ltac storeU8_read :=
  unfold memcpy_from_U32, storeU8;
  repeat match goal with
         | |- context [if ?x =? ?y then _ else _] =>
             destruct (Z.eqb_spec x y); try lia
         end;
  reflexivity.

Lemma memcmp_after_memcpy m a v :
  memcmp_U32_equal (memcpy_from_U32 m a v) a v = true.
Proof.
  unfold memcmp_U32_equal.
  assert (E0 : memcpy_from_U32 m a v a = v mod 256) by storeU8_read.
  assert (E1 : memcpy_from_U32 m a v (a + 1) = (v / 256) mod 256)
    by storeU8_read.
  assert (E2 : memcpy_from_U32 m a v (a + 2) = (v / 65536) mod 256)
    by storeU8_read.
  assert (E3 : memcpy_from_U32 m a v (a + 3) = (v / 16777216) mod 256)
    by storeU8_read.
  rewrite E0, E1, E2, E3, !Z.eqb_refl. reflexivity.
Qed.

Lemma U32_bytes v :
  isU32 v ->
  v = v mod 256 + 256 * ((v / 256) mod 256) + 65536 * ((v / 65536) mod 256)
      + 16777216 * ((v / 16777216) mod 256).
Proof.
  unfold isU32, MAX_U32. intros Hv.
  replace (v / 65536) with (v / 256 / 256)
    by (rewrite Z.div_div by lia; reflexivity).
  replace (v / 16777216) with (v / 256 / 256 / 256)
    by (rewrite !Z.div_div by lia; reflexivity).
  set (q1 := v / 256). set (q2 := q1 / 256). set (q3 := q2 / 256).
  pose proof (Z.div_mod v 256 ltac:(lia)) as H0.
  pose proof (Z.div_mod q1 256 ltac:(lia)) as H1.
  pose proof (Z.div_mod q2 256 ltac:(lia)) as H2.
  pose proof (Z.mod_pos_bound v 256 ltac:(lia)) as B0.
  pose proof (Z.mod_pos_bound q1 256 ltac:(lia)) as B1.
  pose proof (Z.mod_pos_bound q2 256 ltac:(lia)) as B2.
  fold q1 in H0. fold q2 in H1. fold q3 in H2.
  assert (E3 : q3 mod 256 = q3).
  { apply Z.mod_small. lia. }
  rewrite E3. lia.
Qed.

(** Four bytes that compare equal to those of a [U32] read as it. *)
Lemma memcmp_equal_value m a w :
  isU32 w -> memcmp_U32_equal m a w = true -> memcpy_to_U32 m a = w.
Proof.
  intros Hw H. unfold memcmp_U32_equal in H.
  apply andb_true_iff in H as [H H3]. apply andb_true_iff in H as [H H2].
  apply andb_true_iff in H as [H0 H1].
  apply Z.eqb_eq in H0, H1, H2, H3.
  unfold memcpy_to_U32. rewrite H0, H1, H2, H3.
  symmetry. now apply U32_bytes.
Qed.

Lemma create_wf this bytes p : Heap.create this bytes = Ok p -> Heap.pool_wf p.
Proof.
  unfold Heap.create. intros H.
  destruct (Heap.computeSignature this) as [sig| |] eqn:Es; try discriminate.
  injection H as <-. split; [|reflexivity].
  exists this. exact Es.
Qed.

(** X11. A block of the heap pool, allocated and freed.  When the
    callback gives memory, [allocate] logs nothing, counts the
    allocation and returns the address sixteen bytes into that memory,
    the pool's signature in front of it.  [free] of that pointer finds
    the signature, logs nothing, hands the callback the address it
    gave, and the number of allocations is what it was. *)
Theorem heap_allocate_free p mem size alignment :
  Heap.pool_wf p -> isU32 (Heap.m_allocationsCount p) ->
  mem <> 0 -> alignment <= Heap.MAX_ALIGNMENT ->
  exists r,
    Heap.allocate p mem size alignment = Ok r /\
    Heap.a_mem r = mem + 16 /\
    Heap.a_logged r = false /\
    Heap.m_allocationsCount (Heap.a_pool r)
      = wrap32 (Heap.m_allocationsCount p + 1) /\
    memcpy_to_U32 (Heap.m_bytes (Heap.a_pool r)) mem = Heap.m_signature p /\
    Heap.pool_wf (Heap.a_pool r) /\
    Heap.f_result (Heap.free (Heap.a_pool r) (Heap.a_mem r)) = true /\
    Heap.f_logged (Heap.free (Heap.a_pool r) (Heap.a_mem r)) = false /\
    Heap.f_released (Heap.free (Heap.a_pool r) (Heap.a_mem r)) = mem /\
    Heap.m_allocationsCount
      (Heap.f_pool (Heap.free (Heap.a_pool r) (Heap.a_mem r)))
      = Heap.m_allocationsCount p.
Proof.
  intros [[this Hsig] Hhs] Hcount Hmem Hal.
  pose proof (computeSignature_U32 _ _ Hsig) as Hu.
  unfold Heap.allocate.
  rewrite assert_bind_true by (now apply Z.leb_le).
  destruct (Z.eqb_spec mem 0) as [E|_]; [contradiction|]. simpl.
  eexists. split; [reflexivity|]. simpl. rewrite Hhs.
  replace (mem + 16 - 16) with mem by lia.
  rewrite memcmp_after_memcpy.
  split; [reflexivity|]. split; [reflexivity|]. split; [reflexivity|].
  split; [apply memcpy_U32_same; exact Hu|].
  split; [split; [exists this; exact Hsig|reflexivity]|].
  split; [reflexivity|]. split; [reflexivity|]. split; [reflexivity|].
  rewrite HiveFacts.wrap32_sub_l.
  replace (Heap.m_allocationsCount p + 1 - 1) with (Heap.m_allocationsCount p)
    by lia.
  now apply wrap32_small.
Qed.

Lemma heap_allocate_free_witness :
  exists r,
    Heap.allocate heap_A 65536 100 16 = Ok r /\ Heap.a_mem r = 65552 /\
    Heap.f_logged (Heap.free (Heap.a_pool r) (Heap.a_mem r)) = false.
Proof.
  destruct (heap_allocate_free heap_A 65536 100 16)
    as (r & H1 & H2 & _ & _ & _ & _ & _ & H3 & _).
  - apply (create_wf 4096 zero_memory). reflexivity.
  - vm_compute. split; discriminate.
  - lia.
  - vm_compute. discriminate.
  - exists r. split; [exact H1|]. split; [exact H2|exact H3].
Defined.

(** X12. Freeing through the wrong heap pool.  A pointer allocated by
    one pool and freed through a pool with another signature is
    reported in the error log, and that is all: [free] still answers
    [true], still hands the memory to the callback, and still takes one
    from the second pool's number of allocations, which wraps below
    zero. *)
Theorem heap_free_wrong_pool pA pB mem size alignment r :
  Heap.pool_wf pA -> Heap.pool_wf pB ->
  Heap.m_signature pA <> Heap.m_signature pB ->
  mem <> 0 ->
  Heap.allocate pA mem size alignment = Ok r ->
  Heap.m_bytes pB = Heap.m_bytes (Heap.a_pool r) ->
  Heap.f_logged (Heap.free pB (Heap.a_mem r)) = true /\
  Heap.f_result (Heap.free pB (Heap.a_mem r)) = true /\
  Heap.f_released (Heap.free pB (Heap.a_mem r)) = mem /\
  Heap.m_allocationsCount (Heap.f_pool (Heap.free pB (Heap.a_mem r)))
    = wrap32 (Heap.m_allocationsCount pB - 1).
Proof.
  intros [[thisA HsigA] HhsA] [[thisB HsigB] HhsB] Hne Hmem Hal Hbytes.
  pose proof (computeSignature_U32 _ _ HsigA) as HuA.
  pose proof (computeSignature_U32 _ _ HsigB) as HuB.
  unfold Heap.allocate in Hal.
  apply assert_bind_Ok in Hal as [_ Hal].
  destruct (Z.eqb_spec mem 0) as [E|_]; [contradiction|]. simpl in Hal.
  injection Hal as <-. simpl in *. rewrite HhsA in *.
  unfold Heap.free. simpl. rewrite HhsB, Hbytes.
  replace (mem + 16 - 16) with mem by lia.
  split; [|split; [reflexivity|split; reflexivity]].
  apply negb_true_iff. apply not_true_is_false. intros Heq.
  apply memcmp_equal_value in Heq; [|exact HuB].
  rewrite memcpy_U32_same in Heq by exact HuA. contradiction.
Qed.

Lemma heap_free_wrong_pool_witness :
  Heap.f_logged (Heap.free heap_B_shared (Heap.a_mem heap_A_block)) = true /\
  Heap.m_allocationsCount
    (Heap.f_pool (Heap.free heap_B_shared (Heap.a_mem heap_A_block))) = MAX_U32.
Proof.
  destruct (heap_free_wrong_pool heap_A heap_B_shared 65536 100 16 heap_A_block)
    as (H1 & _ & _ & H2).
  - apply (create_wf 4096 zero_memory). reflexivity.
  - split; [exists 8192; reflexivity|reflexivity].
  - vm_compute. discriminate.
  - lia.
  - reflexivity.
  - reflexivity.
  - split; [exact H1|]. etransitivity; [exact H2|reflexivity].
Defined.

End HeapFacts.

(** * The chain pool *)

Module ChainFacts.
Import StackFacts StackPoolFacts.

Lemma headerSize_le16 a :
  0 < a <= 16 -> getAlignedRoundUp a Stack.sizeof_MemoryBlockHeader <= 16.
Proof.
  intros Ha. unfold Stack.sizeof_MemoryBlockHeader, sizeof_U32.
  destruct (Z_le_gt_dec a 4) as [Hs|Hb].
  - pose proof (getAlignedRoundUp_le a 4 ltac:(lia)). lia.
  - unfold getAlignedRoundUp.
    replace ((4 + a - 1) / a) with 1; [lia|].
    apply (Z.div_unique (4 + a - 1) a 1 3); lia.
Qed.

Lemma tail_split p ch :
  Chain.m_tailChunk p = Some ch ->
  exists init, Chain.m_chunks p = init ++ [ch].
Proof. unfold Chain.m_tailChunk. intros H. now apply last_Some in H. Qed.

Lemma set_tail_chunks p init ch ch' :
  Chain.m_chunks p = init ++ [ch] ->
  Chain.m_chunks (Chain.set_tail p ch') = init ++ [ch'].
Proof.
  intros E. unfold Chain.set_tail. simpl. rewrite E.
  now rewrite removelast_last.
Qed.

Lemma chunk_wf_frame p p' ch :
  Chain.m_alignmentBytes p' = Chain.m_alignmentBytes p ->
  Chain.chunk_wf p ch -> Chain.chunk_wf p' ch.
Proof. unfold Chain.chunk_wf. intros ->. tauto. Qed.

(** The stack of a chunk in order answers every request of the pool. *)
Lemma chunk_allocate p ch size alignment :
  Chain.pool_wf p -> Chain.chunk_wf p ch ->
  0 <= size <= Chain.m_maxSize p -> alignment <= Chain.m_alignmentBytes p ->
  exists out ch',
    Chain.allocateFromChunk p ch size alignment = Ok (out, ch') /\
    Chain.chunk_wf p ch' /\
    Stack.m_memory (Chain.m_pool ch') = Stack.m_memory (Chain.m_pool ch) /\
    Stack.m_memsize (Chain.m_pool ch') = Stack.m_memsize (Chain.m_pool ch) /\
    (Stack.fits (Chain.m_pool ch) size ->
     out = Stack.m_top (Chain.m_pool ch) + Stack.m_headerSize (Chain.m_pool ch) /\
     out <> 0 /\
     Chain.m_allocationsCount ch' = wrap32 (Chain.m_allocationsCount ch + 1)) /\
    (~ Stack.fits (Chain.m_pool ch) size ->
     out = 0 /\ Chain.m_allocationsCount ch' = Chain.m_allocationsCount ch).
Proof.
  intros (Pa & Pi & Pm & Ps & Pmul & Pch) (Cwf & Cal & Cms & Cc) Hs Hal.
  pose proof (headerSize_ge _ Cwf) as Hhs.
  unfold Stack.sizeof_MemoryBlockHeader, sizeof_U32 in Hhs.
  assert (Hh : Stack.m_headerSize (Chain.m_pool ch)
               <= Chain.m_alignmentBytes p + 3).
  { destruct Cwf as (_ & _ & -> & _). rewrite Cal.
    pose proof (getAlignedRoundUp_le (Chain.m_alignmentBytes p)
                  Stack.sizeof_MemoryBlockHeader Pa).
    unfold Stack.sizeof_MemoryBlockHeader, sizeof_U32 in *. lia. }
  assert (Hnw : Stack.no_wrap (Chain.m_pool ch) size).
  { apply no_wrap_small; [exact Cwf|]. unfold MAX_U32 in *. lia. }
  pose proof (rounded_ge _ size Cwf Hnw) as Hr.
  assert (Hmax : Stack.rounded (Chain.m_pool ch) size < MAX_U32).
  { rewrite (rounded_no_wrap _ _ Cwf Hnw). rewrite Cal.
    pose proof (getAlignedRoundUp_le (Chain.m_alignmentBytes p)
                  (size + Stack.m_headerSize (Chain.m_pool ch)) Pa).
    lia. }
  unfold Chain.allocateFromChunk.
  rewrite assert_bind_true by (apply Z.leb_le; lia).
  destruct (Z_le_gt_dec
              (Stack.m_top (Chain.m_pool ch) + Stack.rounded (Chain.m_pool ch) size)
              (Stack.m_memory (Chain.m_pool ch) + Stack.m_memsize (Chain.m_pool ch)))
    as [Hfit|Hfit].
  - destruct (allocate_fits (Chain.m_pool ch) size alignment Cwf) as (q & Hq & _).
    + now rewrite Cal.
    + exact Hmax.
    + exact Hfit.
    + rewrite Hq. simpl.
      pose proof (allocate_wf _ _ _ _ _ Cwf Hnw Hq) as Hwfq.
      apply allocate_Ok in Hq as (_ & _ & _ & E1 & E2 & E3 & E4 & _).
      assert (Hnz : Stack.m_top (Chain.m_pool ch)
                    + Stack.m_headerSize (Chain.m_pool ch) <> 0).
      { destruct Cwf as (_ & Wm & _ & _ & _ & Wmt & _). lia. }
      destruct (Z.eqb_spec (Stack.m_top (Chain.m_pool ch)
                            + Stack.m_headerSize (Chain.m_pool ch)) 0)
        as [E|_]; [contradiction|]. simpl.
      eexists. eexists. split; [reflexivity|]. simpl.
      split.
      { split; [exact Hwfq|]. simpl. split; [congruence|].
        split; [rewrite E4; exact Cms|apply wrap32_range]. }
      split; [exact E3|]. split; [exact E4|]. split.
      * intros _. split; [reflexivity|]. split; [exact Hnz|reflexivity].
      * intros Hn. exfalso. apply Hn. exact Hfit.
  - destruct (allocate_exhausted (Chain.m_pool ch) size alignment) as (q & Hq & _).
    + destruct Cwf as (_ & Wm & _). lia.
    + now rewrite Cal.
    + exact Hmax.
    + unfold Stack.fits. lia.
    + rewrite Hq. simpl.
      pose proof (allocate_wf _ _ _ _ _ Cwf Hnw Hq) as Hwfq.
      apply allocate_Ok in Hq as (_ & _ & _ & E1 & E2 & E3 & E4 & _).
      eexists. eexists. split; [reflexivity|]. simpl.
      split.
      { split; [exact Hwfq|]. simpl. split; [congruence|].
        split; [rewrite E4; exact Cms|exact Cc]. }
      split; [exact E3|]. split; [exact E4|]. split.
      * intros Hf. exfalso. unfold Stack.fits in Hf. lia.
      * intros _. split; reflexivity.
Qed.

Lemma crntMaxSize_Ok p :
  Chain.pool_wf p ->
  exists crnt, Chain.crntMaxSize p = Ok crnt /\ 0 < crnt <= Chain.m_maxSize p.
Proof.
  intros (Pa & Pi & Pm & Ps & Pmul & Pch).
  unfold Chain.crntMaxSize.
  assert (Hgrow : forall crnt, 0 < crnt ->
            (ANKI_ASSERT (0 <? crnt) ;; Ok (Z.min crnt (Chain.m_maxSize p)))
            = Ok (Z.min crnt (Chain.m_maxSize p)) /\
            0 < Z.min crnt (Chain.m_maxSize p) <= Chain.m_maxSize p).
  { intros crnt Hc. rewrite assert_bind_true by (now apply Z.ltb_lt).
    split; [reflexivity|lia]. }
  assert (Htail : forall t, Chain.m_tailChunk p = Some t ->
            0 < Stack.m_memsize (Chain.m_pool t) <= MAX_U32).
  { intros t Ht. apply tail_split in Ht as [init E].
    rewrite E in Pch. apply Forall_app in Pch as [_ Pt].
    apply Forall_cons in Pt as [(_ & _ & Hm & _) _]. exact Hm. }
  destruct (Chain.m_method p) eqn:Em.
  - exists (Chain.m_initSize p). split; [reflexivity|lia].
  - destruct (Chain.m_tailChunk p) as [t|] eqn:Et.
    + specialize (Htail t eq_refl). unfold Stack.getTotalSize.
      rewrite wrapPtr_small by (unfold MAX_U32, MAX_PTR_SIZE in *; lia).
      eexists. apply Hgrow. lia.
    + eexists. apply Hgrow. lia.
  - specialize (Pmul eq_refl).
    destruct (Chain.m_tailChunk p) as [t|] eqn:Et.
    + specialize (Htail t eq_refl). unfold Stack.getTotalSize.
      rewrite wrapPtr_small by (unfold MAX_U32, MAX_PTR_SIZE in *; nia).
      eexists. apply Hgrow. nia.
    + eexists. apply Hgrow. lia.
Qed.

(** When the callback delivers, [createNewChunk] appends a chunk whose
    stack is empty and has at least sixteen bytes more than the
    request. *)
Lemma createNewChunk_Ok p cb size :
  Chain.pool_wf p -> Chain.callback_ok p cb ->
  0 <= size <= Chain.m_maxSize p ->
  exists q,
    Chain.createNewChunk p cb size
      = Ok (Some (Chain.mkChunk q 0),
            Chain.with_chunks p (Chain.m_chunks p ++ [Chain.mkChunk q 0])) /\
    Chain.chunk_wf p (Chain.mkChunk q 0) /\
    Stack.m_memory q = Chain.cb_memory cb /\
    Stack.m_top q = Chain.cb_memory cb /\
    size + 16 <= Stack.m_memsize q /\
    16 < Stack.m_memsize q /\
    isAligned (Stack.m_alignmentBytes q) (Stack.m_memsize q) = true.
Proof.
  intros Hwf (Hc & Hm & Hal) Hs.
  destruct (crntMaxSize_Ok p Hwf) as (crnt & Ecr & Hcr).
  destruct Hwf as (Pa & Pi & Pm & Ps & Pmul & Pch).
  unfold Chain.createNewChunk. rewrite Ecr. simpl.
  destruct (Z.eqb_spec (Chain.cb_chunk cb) 0) as [E|_]; [contradiction|]. simpl.
  rewrite wrapPtr_small by (unfold MAX_U32, MAX_PTR_SIZE in *; lia).
  pose proof (create_Ok (Chain.cb_memory cb) (Chain.cb_bytes cb)
                (Z.max crnt size + 16) (Chain.m_alignmentBytes p)
                ltac:(lia) Pa ltac:(lia)) as Hq.
  set (q := Stack.mkImpl _ _ _ _ _ _ _) in Hq.
  assert (Htotal : Z.max crnt size + 16 <= Stack.getTotalSize q
                   < Z.max crnt size + 16 + Chain.m_alignmentBytes p).
  { pose proof (getAlignedRoundUp_ge (Chain.m_alignmentBytes p)
                  (Z.max crnt size + 16) Pa).
    pose proof (getAlignedRoundUp_le (Chain.m_alignmentBytes p)
                  (Z.max crnt size + 16) Pa).
    unfold Stack.getTotalSize. subst q. simpl.
    rewrite wrapPtr_small by (unfold MAX_U32, MAX_PTR_SIZE in *; lia). lia. }
  assert (Hali : isAligned (Chain.m_alignmentBytes p) (Stack.getTotalSize q)
                 = true).
  { unfold Stack.getTotalSize. subst q. simpl.
    pose proof (getAlignedRoundUp_ge (Chain.m_alignmentBytes p)
                  (Z.max crnt size + 16) Pa).
    pose proof (getAlignedRoundUp_le (Chain.m_alignmentBytes p)
                  (Z.max crnt size + 16) Pa).
    rewrite wrapPtr_small by (unfold MAX_U32, MAX_PTR_SIZE in *; lia).
    now apply getAlignedRoundUp_aligned. }
  rewrite Hq. simpl.
  assert (Hpos : Chain.cb_memory cb > 0) by lia.
  assert (Hamax : Chain.m_alignmentBytes p <= MAX_U32) by lia.
  pose proof (tracks_create _ _ _ _ _ Hpos Hamax Hal Hq) as (Hwfq & _).
  simpl in Hwfq.
  assert (Eq : Stack.m_alignmentBytes q = Chain.m_alignmentBytes p /\
               Stack.m_memory q = Chain.cb_memory cb /\
               Stack.m_top q = Chain.cb_memory cb).
  { subst q. simpl. auto. }
  destruct Eq as (Ea & Em & Et).
  unfold Stack.getTotalSize in Htotal, Hali. clearbody q.
  exists q. split; [reflexivity|].
  split; [|split; [exact Em|split; [exact Et|split; [lia|split; [lia|]]]]].
  - split; [exact Hwfq|]. simpl. split; [exact Ea|]. split; lia.
  - rewrite Ea. exact Hali.
Qed.

Lemma pool_wf_chunks p chunks :
  Chain.pool_wf p -> Forall (Chain.chunk_wf p) chunks ->
  Chain.pool_wf (Chain.with_chunks p chunks).
Proof.
  intros (Pa & Pi & Pm & Ps & Pmul & _) Hch.
  unfold Chain.pool_wf. simpl.
  repeat (split; [assumption|]).
  eapply Forall_impl; [exact Hch|].
  intros ch. apply chunk_wf_frame. reflexivity.
Qed.

(** A chunk made for a request has room for it, when the header is no
    larger than the sixteen bytes [createNewChunk] adds. *)
Lemma new_chunk_fits p q size :
  0 < Chain.m_alignmentBytes p <= 16 ->
  Chain.chunk_wf p (Chain.mkChunk q 0) ->
  Stack.m_top q = Stack.m_memory q ->
  0 <= size -> size + 16 <= Stack.m_memsize q ->
  isAligned (Stack.m_alignmentBytes q) (Stack.m_memsize q) = true ->
  Stack.fits q size.
Proof.
  intros Ha (Hwf & Hal & Hms & _) Htop Hs Hroom Hali. simpl in *.
  unfold Stack.fits, Stack.rounded. rewrite Htop.
  pose proof (headerSize_le16 _ Ha) as Hh.
  destruct Hwf as (_ & _ & Wh & _). rewrite Hal in *. rewrite <- Wh in Hh.
  pose proof (headerSize_ge q) as Hge.
  rewrite (wrapPtr_small (size + Stack.m_headerSize q)).
  2:{ unfold MAX_U32, MAX_PTR_SIZE in *.
      pose proof (getAlignedRoundUp_ge (Chain.m_alignmentBytes p)
                    Stack.sizeof_MemoryBlockHeader ltac:(lia)).
      unfold Stack.sizeof_MemoryBlockHeader, sizeof_U32 in *. lia. }
  assert (Hlow : 0 <= getAlignedRoundUp (Chain.m_alignmentBytes p)
                        (size + Stack.m_headerSize q)).
  { pose proof (getAlignedRoundUp_ge (Chain.m_alignmentBytes p)
                  (size + Stack.m_headerSize q) ltac:(lia)).
    pose proof (getAlignedRoundUp_ge (Chain.m_alignmentBytes p)
                  Stack.sizeof_MemoryBlockHeader ltac:(lia)).
    unfold Stack.sizeof_MemoryBlockHeader, sizeof_U32 in *. lia. }
  apply isAligned_divide in Hali; [|lia].
  destruct Hali as [k Hk].
  pose proof (getAlignedRoundUp_mono (Chain.m_alignmentBytes p)
                (size + Stack.m_headerSize q) (Stack.m_memsize q)
                ltac:(lia) ltac:(lia)) as Hmono.
  assert (Hid : getAlignedRoundUp (Chain.m_alignmentBytes p) (Stack.m_memsize q)
                = Stack.m_memsize q).
  { unfold getAlignedRoundUp. rewrite Hk.
    replace (k * Chain.m_alignmentBytes p + Chain.m_alignmentBytes p - 1)
      with ((Chain.m_alignmentBytes p - 1) + k * Chain.m_alignmentBytes p) by lia.
    rewrite Z.div_add by lia.
    rewrite Z.div_small by lia. lia. }
  rewrite wrapPtr_small by (unfold MAX_U32, MAX_PTR_SIZE in *; lia).
  lia.
Qed.

(** The constructor sets up a pool in order, and [free] keeps it so. *)
Lemma construct_wf initialChunkSize maxChunkSize method chunkAllocStep
    alignmentBytes p :
  Chain.construct initialChunkSize maxChunkSize method chunkAllocStep
                  alignmentBytes = Ok p ->
  0 < alignmentBytes ->
  maxChunkSize + 2 * alignmentBytes + 16 <= MAX_U32 ->
  (method = Chain.MULTIPLY -> 0 < wrap32 chunkAllocStep) ->
  Chain.pool_wf p /\ Chain.m_chunks p = [].
Proof.
  unfold Chain.construct. intros H Ha Hmax Hmul.
  apply assert_bind_Ok in H as [H1 H]. apply assert_bind_Ok in H as [H2 H].
  apply assert_bind_Ok in H as [H3 H]. apply assert_bind_Ok in H as [H4 H].
  injection H as <-. apply Z.ltb_lt in H1.
  split; [|reflexivity]. unfold Chain.pool_wf. simpl.
  pose proof (wrap32_range chunkAllocStep) as Hstep.
  split; [exact Ha|]. split.
  { destruct method.
    - apply Z.eqb_eq in H3. lia.
    - apply Z.ltb_lt in H4. lia.
    - apply Z.ltb_lt in H4. lia. }
  split; [exact Hmax|]. split; [exact Hstep|]. split; [exact Hmul|constructor].
Qed.

Lemma locate_Some ptr acc chunks prev chunk next :
  Chain.locate ptr acc chunks = Ok (Some (prev, chunk, next)) ->
  acc ++ chunks = prev ++ chunk :: next.
Proof.
  revert acc. induction chunks as [|c chunks IH]; intros acc; simpl.
  - discriminate.
  - intros H.
    destruct (Stack.getBaseAddress (Chain.m_pool c)) as [from| |]; try discriminate.
    simpl in H.
    destruct ((from <=? ptr) && (ptr <? from + Stack.getTotalSize (Chain.m_pool c))).
    + injection H as <- <- <-. reflexivity.
    + apply IH in H. now rewrite <- app_assoc in H.
Qed.

Lemma chain_free_wf p ptr r p' :
  Chain.pool_wf p -> Chain.free p ptr = Ok (r, p') -> Chain.pool_wf p'.
Proof.
  intros Hwf H. unfold Chain.free in H.
  destruct (Chain.locate ptr [] (Chain.m_chunks p)) as [[[[prev chunk] next]|]| |]
    eqn:El; try discriminate.
  simpl in H. apply assert_bind_Ok in H as [_ H].
  apply locate_Some in El. simpl in El.
  pose proof Hwf as (_ & _ & _ & _ & _ & Pch). rewrite El in Pch.
  apply Forall_app in Pch as [Pp Pn]. apply Forall_cons in Pn as [Pc Pn].
  destruct (wrap32 (Chain.m_allocationsCount chunk - 1) =? 0);
    injection H as _ <-; apply pool_wf_chunks; try exact Hwf;
    apply Forall_app; (split; [exact Pp|]); [exact Pn|].
  apply Forall_cons. split; [|exact Pn].
  destruct Pc as (C1 & C2 & C3 & _).
  split; [exact C1|]. split; [exact C2|]. split; [exact C3|apply wrap32_range].
Qed.

(** A request served from a chunk made for it. *)
Lemma new_chunk_allocate p cb size alignment :
  Chain.pool_wf p -> Chain.m_alignmentBytes p <= 16 ->
  Chain.callback_ok p cb ->
  0 <= size <= Chain.m_maxSize p -> alignment <= Chain.m_alignmentBytes p ->
  exists c p1 out c',
    Chain.createNewChunk p cb size = Ok (Some c, p1) /\
    Chain.allocateFromChunk p1 c size alignment = Ok (out, c') /\
    out <> 0 /\
    Chain.pool_wf (Chain.set_tail p1 c') /\
    Chain.m_chunks (Chain.set_tail p1 c') = Chain.m_chunks p ++ [c'] /\
    Chain.m_allocationsCount c' = 1 /\
    Stack.m_memory (Chain.m_pool c') = Chain.cb_memory cb /\
    Chain.holds c' out /\
    Stack.m_memory (Chain.m_pool c') < out /\
    out + size <= Stack.m_top (Chain.m_pool c') /\
    Stack.m_top (Chain.m_pool c')
      <= Stack.m_memory (Chain.m_pool c') + Stack.m_memsize (Chain.m_pool c').
Proof.
  intros Hwf Ha16 Hcb Hs Hal.
  destruct (createNewChunk_Ok p cb size Hwf Hcb Hs)
    as (q & Hq & Hcq & Hqm & Hqt & Hroom & Hbig & Hali).
  set (c := Chain.mkChunk q 0) in *.
  set (p1 := Chain.with_chunks p (Chain.m_chunks p ++ [c])) in *.
  pose proof Hwf as (Pa & Pi & Pm & Ps & Pmul & Pch).
  assert (Hwf1 : Chain.pool_wf p1).
  { apply pool_wf_chunks; [exact Hwf|].
    apply Forall_app. split; [exact Pch|].
    apply Forall_cons. split; [exact Hcq|constructor]. }
  assert (Hfit : Stack.fits q size).
  { apply (new_chunk_fits p); try assumption; lia. }
  destruct (chunk_allocate p1 c size alignment Hwf1) as
    (out & c' & Hc' & Hwfc' & Em' & Es' & Hyes & _).
  { apply (chunk_wf_frame p); [reflexivity|exact Hcq]. }
  { simpl. lia. }
  { simpl. lia. }
  destruct (Hyes Hfit) as (Eo & Hnz & Ecount).
  exists c, p1, out, c'.
  split; [exact Hq|]. split; [exact Hc'|]. split; [exact Hnz|].
  assert (Ech : Chain.m_chunks (Chain.set_tail p1 c') = Chain.m_chunks p ++ [c']).
  { apply (set_tail_chunks p1 (Chain.m_chunks p) c). reflexivity. }
  split.
  { unfold Chain.set_tail at 1. apply pool_wf_chunks; [exact Hwf1|].
    change (removelast (Chain.m_chunks p1) ++ [c'])
      with (Chain.m_chunks (Chain.set_tail p1 c')).
    rewrite Ech.
    apply Forall_app. split.
    - eapply Forall_impl; [exact Pch|].
      intros ch. apply chunk_wf_frame. reflexivity.
    - apply Forall_cons. split; [exact Hwfc'|constructor]. }
  split; [exact Ech|].
  split; [rewrite Ecount; reflexivity|].
  split; [rewrite Em'; exact Hqm|].
  pose proof (headerSize_ge q (proj1 Hcq)) as Hhs.
  unfold Stack.sizeof_MemoryBlockHeader, sizeof_U32 in Hhs.
  unfold Chain.allocateFromChunk in Hc'.
  apply assert_bind_Ok in Hc' as [_ Hc'].
  destruct (Stack.allocate (Chain.m_pool c) size alignment)
    as [[o q']| |] eqn:Hst; try discriminate.
  simpl in Hc'.
  assert (Hq' : Chain.m_pool c' = q').
  { destruct (negb (o =? 0)); injection Hc' as _ <-; reflexivity. }
  assert (Hnw : Stack.no_wrap q size).
  { apply no_wrap_small; [exact (proj1 Hcq)|].
    pose proof Hwf as (Pa' & _ & Pm' & _). unfold MAX_U32 in *. lia. }
  pose proof (rounded_ge q size (proj1 Hcq) Hnw) as Hr.
  assert (Hhq : Stack.m_headerSize q <= 16).
  { pose proof (proj1 Hcq) as (_ & _ & Wh & _).
    pose proof Hcq as (_ & Wa & _). subst c. simpl in Wh, Wa.
    rewrite Wh, Wa. apply headerSize_le16. lia. }
  apply allocate_Ok in Hst as (_ & _ & _ & _ & _ & E3 & E4 & E5 & _).
  simpl in E3, E4, E5, Eo. unfold Chain.holds. rewrite Hq', E3, E4, E5.
  unfold Stack.fits in Hfit. subst out. lia.
Qed.

(** X13. With an alignment of at most sixteen bytes, [allocate] of the
    chain pool always delivers when the callback does: for a request up
    to the maximum chunk size it returns a pointer that is not null,
    taken from the tail chunk, with room for the request inside that
    chunk's memory; the chain grows by one chunk at most, and the pool
    stays in order. *)
Theorem chain_allocate_succeeds p cb size alignment :
  Chain.pool_wf p -> Chain.m_alignmentBytes p <= 16 ->
  Chain.callback_ok p cb ->
  0 <= size <= Chain.m_maxSize p -> alignment <= Chain.m_alignmentBytes p ->
  exists mem p' tail,
    Chain.allocate p cb size alignment = Ok (mem, p') /\
    mem <> 0 /\
    Chain.pool_wf p' /\
    Chain.getChunksCount p <= Chain.getChunksCount p'
      <= Chain.getChunksCount p + 1 /\
    Chain.m_tailChunk p' = Some tail /\
    Stack.m_memory (Chain.m_pool tail) < mem /\
    mem + size <= Stack.m_top (Chain.m_pool tail) /\
    Stack.m_top (Chain.m_pool tail)
      <= Stack.m_memory (Chain.m_pool tail) + Stack.m_memsize (Chain.m_pool tail).
Proof.
  intros Hwf Ha16 Hcb Hs Hal.
  unfold Chain.allocate.
  rewrite assert_bind_true by (apply Z.leb_le; lia).
  destruct (Chain.m_tailChunk p) as [ch|] eqn:Et.
  - destruct (tail_split _ _ Et) as [init Ech].
    assert (Hwfch : Chain.chunk_wf p ch).
    { destruct Hwf as (_ & _ & _ & _ & _ & Pch). rewrite Ech in Pch.
      apply Forall_app in Pch as [_ Pt].
      now apply Forall_cons in Pt as [Pt _]. }
    destruct (chunk_allocate p ch size alignment Hwf Hwfch Hs Hal) as
      (out & ch' & Hch' & Hwfch' & Em' & Es' & Hyes & Hno).
    rewrite Hch'. simpl.
    assert (Ech' : Chain.m_chunks (Chain.set_tail p ch') = init ++ [ch']).
    { now apply (set_tail_chunks p init ch). }
    assert (Hwf' : Chain.pool_wf (Chain.set_tail p ch')).
    { unfold Chain.set_tail at 1. apply pool_wf_chunks; [exact Hwf|].
      change (removelast (Chain.m_chunks p) ++ [ch'])
        with (Chain.m_chunks (Chain.set_tail p ch')).
      rewrite Ech'.
      destruct Hwf as (_ & _ & _ & _ & _ & Pch). rewrite Ech in Pch.
      apply Forall_app in Pch as [Pi _].
      apply Forall_app. split; [exact Pi|].
      apply Forall_cons. split; [exact Hwfch'|constructor]. }
    destruct (Z_le_gt_dec
                (Stack.m_top (Chain.m_pool ch) + Stack.rounded (Chain.m_pool ch) size)
                (Stack.m_memory (Chain.m_pool ch) + Stack.m_memsize (Chain.m_pool ch)))
      as [Hfit|Hfit].
    + destruct (Hyes Hfit) as (Eo & Hnz & _).
      destruct (Z.eqb_spec out 0) as [E|_]; [contradiction|].
      exists out, (Chain.set_tail p ch'), ch'.
      split; [reflexivity|]. split; [exact Hnz|]. split; [exact Hwf'|].
      unfold Chain.getChunksCount, Chain.m_tailChunk.
      rewrite Ech', Ech, !length_app. simpl.
      split; [lia|]. split; [apply last_snoc|].
      pose proof (headerSize_ge _ (proj1 Hwfch)) as Hhs.
      unfold Stack.sizeof_MemoryBlockHeader, sizeof_U32 in Hhs.
      assert (Hnw : Stack.no_wrap (Chain.m_pool ch) size).
      { apply no_wrap_small; [exact (proj1 Hwfch)|].
        pose proof Hwf as (Pa' & _ & Pm' & _). unfold MAX_U32 in *. lia. }
      pose proof (rounded_ge _ size (proj1 Hwfch) Hnw) as Hr.
      assert (Hhq : Stack.m_headerSize (Chain.m_pool ch) <= 16).
      { pose proof (proj1 Hwfch) as (_ & _ & Wh & _).
        pose proof Hwfch as (_ & Wa & _).
        rewrite Wh, Wa.
        apply headerSize_le16. destruct Hwf as (Pa & _). lia. }
      unfold Chain.allocateFromChunk in Hch'.
      apply assert_bind_Ok in Hch' as [_ Hch'].
      destruct (Stack.allocate (Chain.m_pool ch) size alignment)
        as [[o q']| |] eqn:Hst; try discriminate.
      simpl in Hch'.
      assert (Hq' : Chain.m_pool ch' = q').
      { destruct (negb (o =? 0)); injection Hch' as _ <-; reflexivity. }
      apply allocate_Ok in Hst as (_ & _ & _ & _ & _ & E3 & E4 & E5 & _).
      rewrite Hq', E3, E4, E5.
      destruct (proj1 Hwfch) as (_ & _ & _ & _ & _ & Wmt & _).
      subst out. lia.
    + destruct (Hno ltac:(unfold Stack.fits; lia)) as (-> & _). simpl.
      destruct (new_chunk_allocate (Chain.set_tail p ch') cb size alignment
                  Hwf' Ha16 Hcb Hs Hal)
        as (c & p1 & out & c' & Hc & Hc' & Hnz & Hwf1 & Ech1 & _ & _ & _
            & G1 & G2 & G3).
      rewrite Hc. simpl. rewrite Hc'. simpl.
      destruct (Z.eqb_spec out 0) as [E|_]; [contradiction|]. simpl.
      exists out, (Chain.set_tail p1 c'), c'.
      split; [reflexivity|]. split; [exact Hnz|]. split; [exact Hwf1|].
      unfold Chain.getChunksCount, Chain.m_tailChunk.
      rewrite Ech1, Ech', Ech, !length_app. simpl.
      split; [lia|]. split; [apply last_snoc|].
      split; [exact G1|]. split; [exact G2|exact G3].
  - simpl.
    destruct (new_chunk_allocate p cb size alignment Hwf Ha16 Hcb Hs Hal)
      as (c & p1 & out & c' & Hc & Hc' & Hnz & Hwf1 & Ech1 & _ & _ & _
          & G1 & G2 & G3).
    rewrite Hc. simpl. rewrite Hc'. simpl.
    destruct (Z.eqb_spec out 0) as [E|_]; [contradiction|]. simpl.
    exists out, (Chain.set_tail p1 c'), c'.
    split; [reflexivity|]. split; [exact Hnz|]. split; [exact Hwf1|].
    unfold Chain.getChunksCount, Chain.m_tailChunk.
    rewrite Ech1, !length_app. simpl.
    split; [lia|]. split; [apply last_snoc|].
    split; [exact G1|]. split; [exact G2|exact G3].
Qed.

Lemma chain_pool_wf : Chain.pool_wf chain_pool.
Proof.
  unfold Chain.pool_wf, chain_pool, MAX_U32. simpl.
  split; [lia|]. split; [lia|]. split; [lia|]. split; [lia|].
  split; [discriminate|constructor].
Qed.

Lemma callback_A_ok : Chain.callback_ok chain_pool callback_A.
Proof.
  unfold Chain.callback_ok. simpl.
  split; [lia|]. split; [lia|reflexivity].
Qed.

Lemma chain_allocate_succeeds_witness :
  exists mem p',
    Chain.allocate chain_pool callback_A 32 8 = Ok (mem, p') /\ mem <> 0.
Proof.
  destruct (chain_allocate_succeeds chain_pool callback_A 32 8)
    as (mem & p' & tail & H & Hnz & _).
  - exact chain_pool_wf.
  - simpl. lia.
  - exact callback_A_ok.
  - simpl. lia.
  - simpl. lia.
  - exists mem, p'. split; [exact H|exact Hnz].
Defined.

(** X14. A pool that multiplies by a step of zero.  The constructor
    accepts the MULTIPLY method with a step whose 32 bits are zero.
    Such a pool serves requests until one does not fit in the tail
    chunk; that call stops at the assertion on the size of the next
    chunk. *)
Theorem multiply_by_zero initialChunkSize maxChunkSize chunkAllocStep
    alignmentBytes p0 chunks ch cb size alignment :
  Chain.construct initialChunkSize maxChunkSize Chain.MULTIPLY chunkAllocStep
                  alignmentBytes = Ok p0 ->
  wrap32 chunkAllocStep = 0 ->
  last chunks = Some ch ->
  Stack.m_memory (Chain.m_pool ch) <> 0 ->
  alignment <= Stack.m_alignmentBytes (Chain.m_pool ch) ->
  Stack.rounded (Chain.m_pool ch) size < MAX_U32 ->
  ~ Stack.fits (Chain.m_pool ch) size ->
  size <= maxChunkSize ->
  Chain.allocate (Chain.with_chunks p0 chunks) cb size alignment = AssertFailed.
Proof.
  intros Hp0 Hstep Hlast Hmem Hal Hmax Hfit Hsize.
  unfold Chain.construct in Hp0.
  apply assert_bind_Ok in Hp0 as [_ Hp0]. apply assert_bind_Ok in Hp0 as [_ Hp0].
  apply assert_bind_Ok in Hp0 as [_ Hp0]. apply assert_bind_Ok in Hp0 as [_ Hp0].
  injection Hp0 as <-. rewrite Hstep.
  destruct (allocate_exhausted _ _ _ Hmem Hal Hmax Hfit) as (q & Hq & _).
  unfold Chain.allocate, Chain.m_tailChunk. simpl.
  rewrite assert_bind_true by (now apply Z.leb_le).
  rewrite Hlast. unfold Chain.allocateFromChunk. simpl.
  rewrite assert_bind_true by (now apply Z.leb_le).
  rewrite Hq. simpl.
  unfold Chain.createNewChunk, Chain.crntMaxSize, Chain.m_tailChunk. simpl.
  rewrite last_snoc. simpl. rewrite Z.mul_0_r. reflexivity.
Qed.

(** X15. An alignment above sixteen bytes.  The sixteen bytes that
    [createNewChunk] adds to a chunk stand for one header, and a header
    takes a whole alignment unit.  With a larger alignment and a request
    whose round-up to the alignment leaves sixteen bytes or more unused,
    the chunk made for the request is too small for it, and [allocate]
    stops at its assertion that the new chunk has space; here on a pool
    without chunks and a request no smaller than the initial chunk
    size. *)
Theorem big_alignment_chunk_too_small p cb size alignment :
  Chain.m_chunks p = [] ->
  16 < Chain.m_alignmentBytes p ->
  0 < Chain.m_initSize p <= size -> size <= Chain.m_maxSize p ->
  size + 16 <= getAlignedRoundUp (Chain.m_alignmentBytes p) size ->
  size + 2 * Chain.m_alignmentBytes p < MAX_U32 ->
  Chain.callback_ok p cb -> alignment <= Chain.m_alignmentBytes p ->
  Chain.allocate p cb size alignment = AssertFailed.
Proof.
  intros Hch Ha Hi Hs Hgap Hbound (Hc & Hm & Hali) Hal.
  set (a := Chain.m_alignmentBytes p) in *.
  assert (Hhead : getAlignedRoundUp a Stack.sizeof_MemoryBlockHeader = a).
  { unfold getAlignedRoundUp, Stack.sizeof_MemoryBlockHeader, sizeof_U32.
    replace ((4 + a - 1) / a) with 1; [lia|].
    apply (Z.div_unique (4 + a - 1) a 1 3); lia. }
  assert (Hadd : getAlignedRoundUp a (size + a) = getAlignedRoundUp a size + a).
  { unfold getAlignedRoundUp.
    replace (size + a + a - 1) with (size + a - 1 + 1 * a) by lia.
    rewrite Z.div_add by lia. lia. }
  assert (Hsame : getAlignedRoundUp a (size + 16) <= getAlignedRoundUp a size).
  { pose proof (getAlignedRoundUp_aligned a size ltac:(lia)) as Hd.
    apply isAligned_divide in Hd; [|lia]. destruct Hd as [k Hk].
    pose proof (getAlignedRoundUp_mono a (size + 16) (getAlignedRoundUp a size)
                  ltac:(lia) Hgap) as Hmono.
    replace (getAlignedRoundUp a (getAlignedRoundUp a size))
      with (getAlignedRoundUp a size) in Hmono; [exact Hmono|].
    rewrite Hk at 2. unfold getAlignedRoundUp at 2.
    replace (k * a + a - 1) with ((a - 1) + k * a) by lia.
    rewrite Z.div_add by lia. rewrite Z.div_small by lia. lia. }
  pose proof (getAlignedRoundUp_le a size ltac:(lia)) as Hle.
  unfold Chain.allocate.
  rewrite assert_bind_true by (apply Z.leb_le; lia).
  unfold Chain.m_tailChunk at 1. rewrite Hch. simpl.
  unfold Chain.createNewChunk.
  assert (Ecr : Chain.crntMaxSize p = Ok (Chain.m_initSize p)).
  { unfold Chain.crntMaxSize, Chain.m_tailChunk. rewrite Hch. simpl.
    destruct (Chain.m_method p); [reflexivity| |];
      (rewrite assert_bind_true by (apply Z.ltb_lt; lia);
       f_equal; lia). }
  rewrite Ecr. simpl.
  destruct (Z.eqb_spec (Chain.cb_chunk cb) 0) as [E|_]; [contradiction|]. simpl.
  rewrite Z.max_r by lia.
  rewrite wrapPtr_small by (unfold MAX_U32, MAX_PTR_SIZE in *; lia).
  unfold Stack.create. fold a.
  rewrite assert_bind_true by (apply Z.ltb_lt; lia).
  rewrite assert_bind_true by (apply Z.ltb_lt; lia).
  destruct (Z.eqb_spec (Chain.cb_memory cb) 0) as [E|_]; [lia|]. simpl.
  rewrite Hhead.
  pose proof (getAlignedRoundUp_ge a size ltac:(lia)) as Hge.
  pose proof (getAlignedRoundUp_ge a (size + 16) ltac:(lia)) as Hge16.
  rewrite (wrapPtr_small a) by (unfold MAX_U32, MAX_PTR_SIZE in *; lia).
  rewrite (wrapPtr_small (getAlignedRoundUp a (size + 16)))
    by (unfold MAX_U32, MAX_PTR_SIZE in *; lia).
  unfold Chain.allocateFromChunk. simpl.
  rewrite assert_bind_true by (apply Z.leb_le; lia).
  match goal with
  | |- context [Stack.allocate ?q size alignment] =>
      destruct (allocate_exhausted q size alignment) as (q' & Hq' & _)
  end.
  - simpl. lia.
  - simpl. exact Hal.
  - unfold Stack.rounded. simpl.
    rewrite (wrapPtr_small (size + a))
      by (unfold MAX_U32, MAX_PTR_SIZE in *; lia).
    rewrite Hadd.
    rewrite wrapPtr_small by (unfold MAX_U32, MAX_PTR_SIZE in *; lia). lia.
  - unfold Stack.fits, Stack.rounded. simpl.
    rewrite (wrapPtr_small (size + a))
      by (unfold MAX_U32, MAX_PTR_SIZE in *; lia).
    rewrite Hadd.
    rewrite wrapPtr_small by (unfold MAX_U32, MAX_PTR_SIZE in *; lia). lia.
  - rewrite Hq'. reflexivity.
Qed.

Lemma multiply_by_zero_witness :
  Chain.allocate (Chain.mkImpl 16 [Chain.mkChunk small_pool 1] 64 256 0
                    Chain.MULTIPLY)
                 callback_A 250 8 = AssertFailed.
Proof.
  apply (multiply_by_zero 64 256 0 16
           (Chain.mkImpl 16 [] 64 256 0 Chain.MULTIPLY)
           [Chain.mkChunk small_pool 1] (Chain.mkChunk small_pool 1)
           callback_A 250 8).
  - reflexivity.
  - reflexivity.
  - reflexivity.
  - simpl. lia.
  - simpl. lia.
  - vm_compute. reflexivity.
  - vm_compute. intros H. apply H. reflexivity.
  - lia.
Defined.

Lemma big_alignment_chunk_too_small_witness :
  Chain.allocate (Chain.mkImpl 32 [] 16 64 16 Chain.ADD) callback_A 16 8
  = AssertFailed.
Proof.
  apply big_alignment_chunk_too_small.
  - reflexivity.
  - simpl. lia.
  - simpl. lia.
  - simpl. lia.
  - vm_compute. discriminate.
  - vm_compute. reflexivity.
  - unfold Chain.callback_ok. simpl.
    split; [lia|]. split; [lia|reflexivity].
  - simpl. lia.
Defined.

Lemma locate_found ptr acc prev chunk next :
  Forall (fun c => Stack.m_memory (Chain.m_pool c) <> 0 /\ ~ Chain.holds c ptr)
         prev ->
  Stack.m_memory (Chain.m_pool chunk) <> 0 -> Chain.holds chunk ptr ->
  Chain.locate ptr acc (prev ++ chunk :: next)
  = Ok (Some (acc ++ prev, chunk, next)).
Proof.
  intros Hprev Hmem Hholds. revert acc.
  induction Hprev as [|c prev [Hc Hn] _ IH]; intros acc; simpl.
  - unfold Stack.getBaseAddress, Stack.getTotalSize.
    rewrite assert_bind_true by (now apply negb_true_iff, Z.eqb_neq).
    simpl. unfold Chain.holds in Hholds.
    destruct (Z.leb_spec (Stack.m_memory (Chain.m_pool chunk)) ptr); [|lia].
    destruct (Z.ltb_spec ptr (Stack.m_memory (Chain.m_pool chunk)
                              + Stack.m_memsize (Chain.m_pool chunk))); [|lia].
    simpl. now rewrite app_nil_r.
  - unfold Stack.getBaseAddress, Stack.getTotalSize.
    rewrite assert_bind_true by (now apply negb_true_iff, Z.eqb_neq).
    simpl. unfold Chain.holds in Hn.
    destruct (Z.leb_spec (Stack.m_memory (Chain.m_pool c)) ptr);
      destruct (Z.ltb_spec ptr (Stack.m_memory (Chain.m_pool c)
                                + Stack.m_memsize (Chain.m_pool c)));
      simpl; try lia; rewrite IH, <- app_assoc; reflexivity.
Qed.

Lemma locate_missing ptr acc chunks :
  Forall (fun c => Stack.m_memory (Chain.m_pool c) <> 0 /\ ~ Chain.holds c ptr)
         chunks ->
  Chain.locate ptr acc chunks = Ok None.
Proof.
  intros H. revert acc.
  induction H as [|c chunks [Hc Hn] _ IH]; intros acc; simpl; [reflexivity|].
  unfold Stack.getBaseAddress, Stack.getTotalSize.
  rewrite assert_bind_true by (now apply negb_true_iff, Z.eqb_neq).
  simpl. unfold Chain.holds in Hn.
  destruct (Z.leb_spec (Stack.m_memory (Chain.m_pool c)) ptr);
    destruct (Z.ltb_spec ptr (Stack.m_memory (Chain.m_pool c)
                              + Stack.m_memsize (Chain.m_pool c)));
    simpl; try lia; apply IH.
Qed.

(** X16. [free] of the chain pool works on the first chunk whose
    memory holds the pointer.  It takes one from that chunk's count of
    allocations; the chunk leaves the chain when the count reaches
    zero, and otherwise stays with its stack untouched: [free] never
    lowers the top of a chunk's stack.  A pointer that no chunk holds,
    or a chunk whose count is already zero, stops the call at an
    assertion. *)
Theorem chain_free_chunk p ptr :
  (Forall (fun c => Stack.m_memory (Chain.m_pool c) <> 0 /\ ~ Chain.holds c ptr)
          (Chain.m_chunks p) ->
   Chain.free p ptr = AssertFailed) /\
  (forall prev chunk next,
     Chain.m_chunks p = prev ++ chunk :: next ->
     Forall (fun c => Stack.m_memory (Chain.m_pool c) <> 0 /\ ~ Chain.holds c ptr)
            prev ->
     Stack.m_memory (Chain.m_pool chunk) <> 0 -> Chain.holds chunk ptr ->
     (Chain.m_allocationsCount chunk <= 0 -> Chain.free p ptr = AssertFailed) /\
     (Chain.m_allocationsCount chunk = 1 ->
      Chain.free p ptr = Ok (true, Chain.with_chunks p (prev ++ next))) /\
     (1 < Chain.m_allocationsCount chunk <= MAX_U32 ->
      Chain.free p ptr
      = Ok (true, Chain.with_chunks p
                    (prev ++ Chain.mkChunk (Chain.m_pool chunk)
                               (Chain.m_allocationsCount chunk - 1) :: next)))).
Proof.
  split.
  - intros H. unfold Chain.free. now rewrite (locate_missing ptr [] _ H).
  - intros prev chunk next Ech Hprev Hmem Hholds.
    unfold Chain.free. rewrite Ech.
    rewrite (locate_found ptr [] prev chunk next Hprev Hmem Hholds). simpl.
    split; [|split].
    + intros Hc. destruct (Z.ltb_spec 0 (Chain.m_allocationsCount chunk)); [lia|].
      reflexivity.
    + intros ->. reflexivity.
    + intros Hc.
      rewrite assert_bind_true by (apply Z.ltb_lt; lia).
      rewrite wrap32_small by lia.
      destruct (Z.eqb_spec (Chain.m_allocationsCount chunk - 1) 0); [lia|].
      reflexivity.
Qed.

(** X17. The only allocation of a chain pool, allocated and freed.  On
    a pool without chunks (alignment of at most sixteen bytes, the
    callback delivering) [allocate] makes one chunk and returns a
    pointer into it; [free] of that pointer releases the chunk, and the
    pool is again exactly what it was. *)
Theorem chain_allocate_free_empty p cb size alignment :
  Chain.pool_wf p -> Chain.m_alignmentBytes p <= 16 ->
  Chain.m_chunks p = [] ->
  Chain.callback_ok p cb ->
  0 <= size <= Chain.m_maxSize p -> alignment <= Chain.m_alignmentBytes p ->
  exists mem p1,
    Chain.allocate p cb size alignment = Ok (mem, p1) /\
    mem <> 0 /\
    Chain.getChunksCount p1 = 1 /\
    Chain.free p1 mem = Ok (true, p) /\
    Chain.getAllocatedSize p = Ok 0.
Proof.
  intros Hwf Ha16 Hch Hcb Hs Hal.
  destruct (new_chunk_allocate p cb size alignment Hwf Ha16 Hcb Hs Hal)
    as (c & p1 & out & c' & Hc & Hc' & Hnz & Hwf1 & Ech1 & Ecount & Emem
        & Hholds & _).
  exists out, (Chain.set_tail p1 c').
  split.
  { unfold Chain.allocate.
    rewrite assert_bind_true by (apply Z.leb_le; lia).
    unfold Chain.m_tailChunk at 1. rewrite Hch. simpl.
    rewrite Hc. simpl. rewrite Hc'. simpl.
    destruct (Z.eqb_spec out 0) as [E|_]; [contradiction|]. reflexivity. }
  split; [exact Hnz|].
  rewrite Hch, app_nil_l in Ech1.
  split; [unfold Chain.getChunksCount; rewrite Ech1; reflexivity|].
  split.
  - unfold Chain.free. rewrite Ech1.
    change [c'] with ([] ++ c' :: []).
    rewrite (locate_found out [] [] c' []);
      [|constructor|rewrite Emem; destruct Hcb as (_ & Hm & _); lia|exact Hholds].
    simpl. rewrite Ecount. simpl.
    assert (Hp1 : p1 = Chain.with_chunks p (Chain.m_chunks p ++ [c])).
    { unfold Chain.createNewChunk in Hc.
      destruct (Chain.crntMaxSize p) as [crnt| |]; try discriminate.
      simpl in Hc.
      destruct (negb (Chain.cb_chunk cb =? 0)); [|discriminate].
      destruct (Stack.create _ _ _ _) as [[e q]| |]; try discriminate.
      simpl in Hc. destruct e; [|discriminate].
      injection Hc as <- <-. reflexivity. }
    rewrite Hp1. destruct p as [a chunks i m st me]. simpl in Hch. subst chunks.
    reflexivity.
  - unfold Chain.getAllocatedSize. rewrite Hch. reflexivity.
Qed.

Lemma chain_free_chunk_witness :
  Chain.free chain_pool_1 4112 = Ok (true, chain_pool) /\
  Chain.free chain_pool 4112 = AssertFailed.
Proof.
  split.
  - destruct (chain_free_chunk chain_pool_1 4112) as [_ H].
    destruct (H [] chunk_1 []) as (_ & H1 & _).
    + reflexivity.
    + constructor.
    + vm_compute. discriminate.
    + vm_compute. split; [discriminate|reflexivity].
    + rewrite H1; reflexivity.
  - destruct (chain_free_chunk chain_pool 4112) as [H _].
    apply H. constructor.
Defined.

Lemma chain_allocate_free_empty_witness :
  exists mem p1,
    Chain.allocate chain_pool callback_A 32 8 = Ok (mem, p1) /\
    Chain.free p1 mem = Ok (true, chain_pool).
Proof.
  destruct (chain_allocate_free_empty chain_pool callback_A 32 8)
    as (mem & p1 & H1 & _ & _ & H2 & _).
  - exact chain_pool_wf.
  - simpl. lia.
  - reflexivity.
  - exact callback_A_ok.
  - simpl. lia.
  - simpl. lia.
  - exists mem, p1. split; [exact H1|exact H2].
Defined.

(** X18. The size of a new chunk.  A chunk that [createNewChunk] adds
    becomes the tail of the chain, holds no allocation, and its total
    size is at least the request plus sixteen bytes and less than the
    maximum chunk size plus sixteen bytes plus one alignment unit. *)
Theorem new_chunk_size p cb size c p1 :
  Chain.pool_wf p -> 0 <= size <= Chain.m_maxSize p ->
  Chain.createNewChunk p cb size = Ok (Some c, p1) ->
  Chain.m_chunks p1 = Chain.m_chunks p ++ [c] /\
  Chain.m_tailChunk p1 = Some c /\
  Chain.m_allocationsCount c = 0 /\
  Stack.getAllocatedSize (Chain.m_pool c) = Ok 0 /\
  size + 16 <= Stack.getTotalSize (Chain.m_pool c) /\
  Stack.getTotalSize (Chain.m_pool c)
    < Chain.m_maxSize p + 16 + Chain.m_alignmentBytes p.
Proof.
  intros Hwf Hs Hc.
  destruct (crntMaxSize_Ok p Hwf) as (crnt & Ecr & Hcr).
  destruct Hwf as (Pa & Pi & Pm & Ps & Pmul & Pch).
  unfold Chain.createNewChunk in Hc. rewrite Ecr in Hc. simpl in Hc.
  destruct (negb (Chain.cb_chunk cb =? 0)); [|discriminate].
  rewrite wrapPtr_small in Hc by (unfold MAX_U32, MAX_PTR_SIZE in *; lia).
  unfold Stack.create in Hc.
  rewrite assert_bind_true in Hc by (apply Z.ltb_lt; lia).
  rewrite assert_bind_true in Hc by (apply Z.ltb_lt; lia).
  destruct (Z.eqb_spec (Chain.cb_memory cb) 0) as [E|Hm]; simpl in Hc;
    [discriminate|].
  injection Hc as <- <-. simpl.
  unfold Chain.m_tailChunk, Stack.getAllocatedSize, Stack.getTotalSize. simpl.
  rewrite assert_bind_true by (now apply negb_true_iff, Z.eqb_neq).
  split; [reflexivity|]. split; [apply last_snoc|]. split; [reflexivity|].
  split; [f_equal; lia|].
  pose proof (getAlignedRoundUp_ge (Chain.m_alignmentBytes p)
                (Z.max crnt size + 16) Pa).
  pose proof (getAlignedRoundUp_le (Chain.m_alignmentBytes p)
                (Z.max crnt size + 16) Pa).
  rewrite wrapPtr_small by (unfold MAX_U32, MAX_PTR_SIZE in *; lia).
  lia.
Qed.

Lemma new_chunk_size_witness :
  32 + 16 <= Stack.getTotalSize (Chain.m_pool chunk_1) < 256 + 16 + 16.
Proof.
  destruct (new_chunk_size chain_pool callback_A 32
              (Chain.mkChunk
                 (Stack.mkImpl 16 16 4096 80 4096 0
                    (memset zero_memory 4096 INVALID_BYTE 80)) 0)
              (Chain.with_chunks chain_pool
                 [Chain.mkChunk
                    (Stack.mkImpl 16 16 4096 80 4096 0
                       (memset zero_memory 4096 INVALID_BYTE 80)) 0]))
    as (_ & _ & _ & _ & H1 & H2).
  - exact chain_pool_wf.
  - simpl. lia.
  - reflexivity.
  - exact (conj H1 H2).
Defined.

Lemma createNewChunk_fails p cb size :
  Chain.pool_wf p -> 0 <= size <= Chain.m_maxSize p ->
  Chain.cb_chunk cb = 0 \/ Chain.cb_memory cb = 0 ->
  Chain.createNewChunk p cb size = Ok (None, p).
Proof.
  intros Hwf Hs Hcb.
  destruct (crntMaxSize_Ok p Hwf) as (crnt & Ecr & Hcr).
  destruct Hwf as (Pa & Pi & Pm & Ps & Pmul & Pch).
  unfold Chain.createNewChunk. rewrite Ecr. simpl.
  destruct (Z.eqb_spec (Chain.cb_chunk cb) 0) as [E|Hc]; [reflexivity|]. simpl.
  destruct Hcb as [Hcb|Hcb]; [contradiction|].
  rewrite wrapPtr_small by (unfold MAX_U32, MAX_PTR_SIZE in *; lia).
  unfold Stack.create.
  rewrite assert_bind_true by (apply Z.ltb_lt; lia).
  rewrite assert_bind_true by (apply Z.ltb_lt; lia).
  rewrite Hcb. reflexivity.
Qed.

(** X19. The callback out of memory.  When a request needs a new
    chunk (the chain is empty or the tail chunk has no room) and the
    callback returns null, for the chunk object or for its memory,
    [allocate] answers null without an assertion failing, and the
    chain has the chunks it had. *)
Theorem chain_allocate_callback_fails p cb size alignment :
  Chain.pool_wf p ->
  Chain.cb_chunk cb = 0 \/ Chain.cb_memory cb = 0 ->
  0 <= size <= Chain.m_maxSize p -> alignment <= Chain.m_alignmentBytes p ->
  (forall ch, Chain.m_tailChunk p = Some ch ->
              ~ Stack.fits (Chain.m_pool ch) size) ->
  exists p',
    Chain.allocate p cb size alignment = Ok (0, p') /\
    Chain.getChunksCount p' = Chain.getChunksCount p /\
    Chain.pool_wf p'.
Proof.
  intros Hwf Hcb Hs Hal Hfull.
  unfold Chain.allocate.
  rewrite assert_bind_true by (apply Z.leb_le; lia).
  destruct (Chain.m_tailChunk p) as [ch|] eqn:Et.
  - destruct (tail_split _ _ Et) as [init Ech].
    assert (Hwfch : Chain.chunk_wf p ch).
    { destruct Hwf as (_ & _ & _ & _ & _ & Pch). rewrite Ech in Pch.
      apply Forall_app in Pch as [_ Pt].
      now apply Forall_cons in Pt as [Pt _]. }
    destruct (chunk_allocate p ch size alignment Hwf Hwfch Hs Hal) as
      (out & ch' & Hch' & Hwfch' & _ & _ & _ & Hno).
    destruct (Hno (Hfull ch eq_refl)) as (-> & _).
    rewrite Hch'. simpl.
    assert (Ech' : Chain.m_chunks (Chain.set_tail p ch') = init ++ [ch']).
    { now apply (set_tail_chunks p init ch). }
    assert (Hwf' : Chain.pool_wf (Chain.set_tail p ch')).
    { unfold Chain.set_tail at 1. apply pool_wf_chunks; [exact Hwf|].
      change (removelast (Chain.m_chunks p) ++ [ch'])
        with (Chain.m_chunks (Chain.set_tail p ch')).
      rewrite Ech'.
      destruct Hwf as (_ & _ & _ & _ & _ & Pch). rewrite Ech in Pch.
      apply Forall_app in Pch as [Pi _].
      apply Forall_app. split; [exact Pi|].
      apply Forall_cons. split; [exact Hwfch'|constructor]. }
    rewrite (createNewChunk_fails (Chain.set_tail p ch') cb size Hwf' Hs Hcb).
    simpl. exists (Chain.set_tail p ch').
    split; [reflexivity|]. split; [|exact Hwf'].
    unfold Chain.getChunksCount. rewrite Ech', Ech, !length_app. reflexivity.
  - simpl. rewrite (createNewChunk_fails p cb size Hwf Hs Hcb). simpl.
    exists p. split; [reflexivity|]. split; [reflexivity|exact Hwf].
Qed.

Lemma chain_allocate_callback_fails_witness :
  exists p', Chain.allocate chain_pool callback_null 32 8 = Ok (0, p') /\
             Chain.getChunksCount p' = 0.
Proof.
  destruct (chain_allocate_callback_fails chain_pool callback_null 32 8)
    as (p' & H1 & H2 & _).
  - exact chain_pool_wf.
  - left. reflexivity.
  - simpl. lia.
  - simpl. lia.
  - intros ch H. discriminate H.
  - exists p'. split; [exact H1|exact H2].
Defined.

End ChainFacts.

(** * Pool objects and their implementation *)

Module SharedFacts.
Import StackFacts.

Lemma users_nonneg impl l : 0 <= Shared.users impl l <= Z.of_nat (length l).
Proof.
  induction l as [|h l IH]; simpl; [lia|].
  destruct (h =? impl); lia.
Qed.

Lemma users_insert impl l i old new :
  l !! i = Some old ->
  Shared.users impl (<[i := new]> l)
  = Shared.users impl l - (if old =? impl then 1 else 0)
    + (if new =? impl then 1 else 0).
Proof.
  revert i. induction l as [|h l IH]; intros [|i] H; simpl in *;
    try discriminate.
  - injection H as ->. lia.
  - rewrite (IH i H). lia.
Qed.

Lemma users_lookup impl l i : l !! i = Some impl -> 1 <= Shared.users impl l.
Proof.
  revert i. induction l as [|h l IH]; intros [|i] H; simpl in *;
    try discriminate.
  - injection H as ->. rewrite Z.eqb_refl.
    pose proof (users_nonneg impl l). lia.
  - specialize (IH i H). destruct (h =? impl); lia.
Qed.

Lemma users_replicate impl n : impl <> 0 -> Shared.users impl (replicate n 0) = 0.
Proof.
  intros Hne. induction n as [|n IH]; simpl; [reflexivity|].
  destruct impl; [contradiction|exact IH|exact IH].
Qed.

Lemma m_impl_lookup w this :
  (this < length (Shared.w_handles w))%nat ->
  Shared.w_handles w !! this = Some (Shared.m_impl w this).
Proof.
  intros H. unfold Shared.m_impl.
  destruct (lookup_lt_is_Some_2 _ _ H) as [x ->]. reflexivity.
Qed.

Lemma m_impl_insert w this v h impls :
  (this < length (Shared.w_handles w))%nat ->
  Shared.m_impl (Shared.mkWorld (<[this := v]> (Shared.w_handles w)) impls) h
  = if decide (h = this) then v else Shared.m_impl w h.
Proof.
  intros H. unfold Shared.m_impl. simpl.
  destruct (decide (h = this)) as [->|Hne].
  - now rewrite list_lookup_insert_eq.
  - now rewrite list_lookup_insert_ne.
Qed.

(** A pool object that is not null points to an implementation that
    exists, counted at least once. *)
Lemma wf_live n w this :
  Shared.wf n w -> (this < n)%nat -> Shared.m_impl w this <> 0 ->
  Shared.w_impls w !! Shared.m_impl w this
  = Some (Shared.users (Shared.m_impl w this) (Shared.w_handles w)) /\
  1 <= Shared.users (Shared.m_impl w this) (Shared.w_handles w) <= MAX_U32.
Proof.
  intros (Hlen & Hn & H0 & Hall) Hthis Hnz.
  pose proof (m_impl_lookup w this ltac:(lia)) as Hl.
  pose proof (users_lookup _ _ _ Hl) as Hu.
  pose proof (users_nonneg (Shared.m_impl w this) (Shared.w_handles w)) as Hb.
  specialize (Hall _ Hnz).
  destruct (Shared.w_impls w !! Shared.m_impl w this) as [rc|].
  - destruct Hall as [-> _]. split; [reflexivity|lia].
  - lia.
Qed.

Lemma clear_wf n w this :
  Shared.wf n w -> (this < n)%nat ->
  exists w',
    Shared.clear w this = Ok w' /\ Shared.wf n w' /\
    Shared.m_impl w' this = 0 /\
    (forall h, h <> this -> Shared.m_impl w' h = Shared.m_impl w h) /\
    (Shared.m_impl w this <> 0 ->
     (Shared.w_impls w' !! Shared.m_impl w this = None <->
      Shared.users (Shared.m_impl w this) (Shared.w_handles w) = 1)).
Proof.
  intros Hwf Hthis. unfold Shared.clear.
  destruct (Z.eqb_spec (Shared.m_impl w this) 0) as [E|Hnz]; simpl.
  - exists w. split; [reflexivity|]. split; [exact Hwf|].
    split; [exact E|]. split; [reflexivity|]. intros H. contradiction.
  - destruct (wf_live n w this Hwf Hthis Hnz) as (Hlive & Hu).
    pose proof Hwf as (Hlen & Hn & H0 & Hall).
    pose proof (m_impl_lookup w this ltac:(lia)) as Hl.
    set (impl0 := Shared.m_impl w this) in *.
    unfold Shared.m_refcount. rewrite Hlive. simpl.
    rewrite wrap32_small by lia.
    eexists. split; [reflexivity|].
    assert (Hus : forall impl, impl <> 0 ->
              Shared.users impl (<[this := 0]> (Shared.w_handles w))
              = Shared.users impl (Shared.w_handles w)
                - (if impl0 =? impl then 1 else 0)).
    { intros impl Hi. rewrite (users_insert impl _ this impl0 0 Hl).
      destruct (Z.eqb_spec 0 impl); [congruence|]. lia. }
    split; [|split; [|split; [|intros _]]].
    + split; [simpl; rewrite length_insert; exact Hlen|].
      split; [exact Hn|]. simpl.
      split.
      { destruct (_ =? 0);
          [rewrite lookup_delete_ne by congruence
          |rewrite lookup_insert_ne by congruence]; exact H0. }
      intros impl Hi. rewrite (Hus impl Hi). specialize (Hall impl Hi).
      destruct (Z.eqb_spec (Shared.users impl0 (Shared.w_handles w) - 1) 0)
        as [Ez|Enz].
      * destruct (Z.eqb_spec impl0 impl) as [<-|Hne].
        -- rewrite lookup_delete_eq. lia.
        -- rewrite lookup_delete_ne by exact Hne.
           destruct (Shared.w_impls w !! impl); [|lia].
           destruct Hall as [-> Hp]. split; lia.
      * destruct (Z.eqb_spec impl0 impl) as [<-|Hne].
        -- rewrite lookup_insert_eq. split; lia.
        -- rewrite lookup_insert_ne by exact Hne.
           destruct (Shared.w_impls w !! impl); [|lia].
           destruct Hall as [-> Hp]. split; lia.
    + rewrite m_impl_insert by lia. now rewrite decide_True.
    + intros h Hh. rewrite m_impl_insert by lia. now rewrite decide_False.
    + simpl.
      destruct (Z.eqb_spec (Shared.users impl0 (Shared.w_handles w) - 1) 0)
        as [Ez|Enz].
      * rewrite lookup_delete_eq. split; [lia|reflexivity].
      * rewrite lookup_insert_eq. split; [discriminate|lia].
Qed.

Lemma assign_wf n w this other :
  Shared.wf n w -> (this < n)%nat -> (other < n)%nat ->
  exists w',
    Shared.assign w this other = Ok w' /\ Shared.wf n w' /\
    Shared.m_impl w' this
      = (if decide (this = other) then 0 else Shared.m_impl w other) /\
    (forall h, h <> this -> Shared.m_impl w' h = Shared.m_impl w h).
Proof.
  intros Hwf Hthis Hother.
  destruct (clear_wf n w this Hwf Hthis) as (w1 & Hc & Hwf1 & Hnull & Hrest & _).
  unfold Shared.assign. rewrite Hc. simpl.
  assert (Ho : Shared.m_impl w1 other
               = if decide (this = other) then 0 else Shared.m_impl w other).
  { destruct (decide (this = other)) as [<-|Hne]; [exact Hnull|].
    apply Hrest. congruence. }
  destruct (Z.eqb_spec (Shared.m_impl w1 other) 0) as [E|Hnz]; simpl.
  - exists w1. split; [reflexivity|]. split; [exact Hwf1|].
    split; [congruence|exact Hrest].
  - destruct (wf_live n w1 other Hwf1 Hother Hnz) as (Hlive & Hu).
    pose proof Hwf1 as (Hlen & Hn & H0 & Hall).
    pose proof (m_impl_lookup w1 this ltac:(lia)) as Hl. rewrite Hnull in Hl.
    set (impl := Shared.m_impl w1 other) in *.
    unfold Shared.m_refcount. rewrite Hlive. simpl.
    assert (Hus : forall x, x <> 0 ->
              Shared.users x (<[this := impl]> (Shared.w_handles w1))
              = Shared.users x (Shared.w_handles w1)
                + (if impl =? x then 1 else 0)).
    { intros x Hx. rewrite (users_insert x _ this 0 impl Hl).
      destruct (Z.eqb_spec 0 x); [congruence|]. lia. }
    pose proof (users_nonneg impl (<[this := impl]> (Shared.w_handles w1))) as Hb.
    rewrite (Hus impl Hnz), Z.eqb_refl, length_insert in Hb.
    rewrite wrap32_small by lia.
    eexists. split; [reflexivity|]. split; [|split].
    + split; [simpl; rewrite length_insert; exact Hlen|].
      split; [exact Hn|]. simpl.
      split; [rewrite lookup_insert_ne by exact Hnz; exact H0|].
      intros x Hx. rewrite (Hus x Hx). specialize (Hall x Hx).
      destruct (Z.eqb_spec impl x) as [<-|Hne].
      * rewrite lookup_insert_eq. split; lia.
      * rewrite lookup_insert_ne by exact Hne.
        destruct (Shared.w_impls w1 !! x); [|lia].
        destruct Hall as [-> Hp]. split; lia.
    + rewrite m_impl_insert by lia. rewrite decide_True by reflexivity.
      subst impl. exact Ho.
    + intros h Hh. rewrite m_impl_insert by lia.
      rewrite decide_False by exact Hh. now apply Hrest.
Qed.

Lemma shared_create_wf n w this mem chunk e w' :
  Shared.wf n w -> (this < n)%nat -> Shared.w_impls w !! mem = None ->
  Shared.create w this mem chunk = Ok (e, w') -> Shared.wf n w'.
Proof.
  intros Hwf Hthis Hfresh H. unfold Shared.create in H.
  apply assert_bind_Ok in H as [Hnull H]. apply Z.eqb_eq in Hnull.
  destruct (Z.eqb_spec mem 0) as [E|Hnz]; simpl in H.
  - injection H as _ <-. exact Hwf.
  - injection H as _ <-.
    pose proof Hwf as (Hlen & Hn & H0 & Hall).
    pose proof (m_impl_lookup w this ltac:(lia)) as Hl. rewrite Hnull in Hl.
    pose proof (Hall mem Hnz) as Hm. rewrite Hfresh in Hm.
    split; [simpl; rewrite length_insert; exact Hlen|].
    split; [exact Hn|]. simpl.
    split; [rewrite lookup_insert_ne by exact Hnz; exact H0|].
    intros x Hx. rewrite (users_insert x _ this 0 mem Hl).
    specialize (Hall x Hx).
    destruct (Z.eqb_spec 0 x); [congruence|].
    destruct (Z.eqb_spec mem x) as [<-|Hne].
    + rewrite lookup_insert_eq. split; lia.
    + rewrite lookup_insert_ne by exact Hne.
      destruct (Shared.w_impls w !! x); [|lia].
      destruct Hall as [-> Hp]. split; lia.
Qed.

Lemma shared_step_wf n w w' : Shared.wf n w -> Shared.step w w' -> Shared.wf n w'.
Proof.
  intros Hwf Hstep. pose proof Hwf as (Hlen & _).
  destruct Hstep as [w this mem chunk e w' Ht Hf Hc|w this other w' Ht Ho Ha
                    |w this w' Ht Hc].
  - exact (shared_create_wf n w this mem chunk e w' Hwf ltac:(lia) Hf Hc).
  - destruct (assign_wf n w this other Hwf ltac:(lia) ltac:(lia))
      as (w1 & Ha1 & Hwf1 & _).
    congruence.
  - destruct (clear_wf n w this Hwf ltac:(lia)) as (w1 & Hc1 & Hwf1 & _).
    congruence.
Qed.

Lemma shared_reachable_wf n w :
  Z.of_nat n <= MAX_U32 -> Shared.reachable n w -> Shared.wf n w.
Proof.
  intros Hn. induction 1 as [|w w' _ IH Hstep].
  - split; [simpl; apply length_replicate|]. split; [exact Hn|].
    split; [apply lookup_empty|]. intros impl Hi. simpl.
    rewrite lookup_empty. now apply users_replicate.
  - exact (shared_step_wf n w w' IH Hstep).
Qed.

Lemma reachable_world_2 : Shared.reachable 2 world_2.
Proof.
  apply (Shared.reach_step 2 world_1).
  - apply (Shared.reach_step 2 world_0); [apply Shared.reach_init|].
    apply (Shared.step_create world_0 0%nat 4096 8192 Stack.NONE world_1);
      [simpl; lia|reflexivity|reflexivity].
  - apply (Shared.step_assign world_1 1%nat 0%nat world_2);
      [simpl; lia|simpl; lia|reflexivity].
Qed.

(** X20. The reference count of a pool implementation.  In a program
    whose pool objects, at most 2^32-1 of them, are used through
    [create], [operator=] and [clear], [getUsersCount] of a pool object
    that is not null is the
    number of pool objects that point to its implementation, and an
    implementation exists exactly as long as a pool object points to
    it: none is released while in use, none is left behind. *)
Theorem refcount_counts_users n w :
  Z.of_nat n <= MAX_U32 -> Shared.reachable n w ->
  (forall this, (this < n)%nat -> Shared.m_impl w this <> 0 ->
     Shared.getUsersCount w this
       = Ok (Shared.users (Shared.m_impl w this) (Shared.w_handles w)) /\
     1 <= Shared.users (Shared.m_impl w this) (Shared.w_handles w)) /\
  (forall impl, impl <> 0 ->
     (is_Some (Shared.w_impls w !! impl) <->
      0 < Shared.users impl (Shared.w_handles w))).
Proof.
  intros Hn Hr. pose proof (shared_reachable_wf n w Hn Hr) as Hwf.
  split.
  - intros this Ht Hnz.
    destruct (wf_live n w this Hwf Ht Hnz) as (Hlive & Hu).
    unfold Shared.getUsersCount, Shared.m_refcount.
    rewrite assert_bind_true by (now apply negb_true_iff, Z.eqb_neq).
    rewrite Hlive. split; [reflexivity|lia].
  - intros impl Hi. destruct Hwf as (_ & _ & _ & Hall).
    specialize (Hall impl Hi).
    destruct (Shared.w_impls w !! impl) as [rc|].
    + destruct Hall as [<- Hp]. split; [intros _; exact Hp|eauto].
    + split; [intros [x Hx]; discriminate|lia].
Qed.

Lemma refcount_counts_users_witness :
  Shared.getUsersCount world_2 0 = Ok 2 /\
  Shared.getUsersCount world_2 1 = Ok 2.
Proof.
  destruct (refcount_counts_users 2 world_2) as [H _].
  - vm_compute. discriminate.
  - exact reachable_world_2.
  - split.
    + destruct (H 0%nat) as [H0 _]; [lia|vm_compute; discriminate|exact H0].
    + destruct (H 1%nat) as [H1 _]; [lia|vm_compute; discriminate|exact H1].
Defined.

(** X21. Assigning a pool object to itself, in a program with at most
    2^32-1 pool objects.  [operator=] clears the object before it reads
    the other one, so when both are the same object it ends up null;
    the other pool objects keep their pointer, and the implementation
    is released exactly when the object was its only user. *)
Theorem self_assignment_clears n w this :
  Z.of_nat n <= MAX_U32 -> Shared.reachable n w ->
  (this < n)%nat -> Shared.m_impl w this <> 0 ->
  exists w',
    Shared.assign w this this = Ok w' /\
    Shared.m_impl w' this = 0 /\
    (forall h, h <> this -> Shared.m_impl w' h = Shared.m_impl w h) /\
    (Shared.w_impls w' !! Shared.m_impl w this = None <->
     Shared.users (Shared.m_impl w this) (Shared.w_handles w) = 1).
Proof.
  intros Hn Hr Ht Hnz. pose proof (shared_reachable_wf n w Hn Hr) as Hwf.
  destruct (clear_wf n w this Hwf Ht) as (w1 & Hc & Hwf1 & Hnull & Hrest & Hrel).
  exists w1. split.
  { unfold Shared.assign. rewrite Hc. simpl. rewrite Hnull. reflexivity. }
  split; [exact Hnull|]. split; [exact Hrest|].
  exact (Hrel Hnz).
Qed.

Lemma self_assignment_clears_witness :
  exists w', Shared.assign world_1 0 0 = Ok w' /\
             Shared.m_impl w' 0 = 0 /\ Shared.w_impls w' !! 4096 = None.
Proof.
  destruct (self_assignment_clears 2 world_1 0) as (w' & H1 & H2 & _ & H3).
  - vm_compute. discriminate.
  - apply (Shared.reach_step 2 world_0); [apply Shared.reach_init|].
    apply (Shared.step_create world_0 0%nat 4096 8192 Stack.NONE world_1);
      [simpl; lia|reflexivity|reflexivity].
  - lia.
  - vm_compute. discriminate.
  - exists w'. split; [exact H1|]. split; [exact H2|].
    apply H3. reflexivity.
Defined.

(** X22. Copies share.  After [operator=] from another pool object
    that is not null, the object points to the other's implementation
    and the two report the same users count; [clear] of the copy then
    leaves it null and the other object as it was, and the
    implementation, which the other object still uses, is not
    released. *)
Theorem copies_share_until_last_clear n w this other :
  Z.of_nat n <= MAX_U32 -> Shared.reachable n w ->
  (this < n)%nat -> (other < n)%nat -> this <> other ->
  Shared.m_impl w other <> 0 ->
  exists w1 w2,
    Shared.assign w this other = Ok w1 /\
    Shared.m_impl w1 this = Shared.m_impl w other /\
    Shared.getUsersCount w1 this = Shared.getUsersCount w1 other /\
    Shared.clear w1 this = Ok w2 /\
    Shared.m_impl w2 this = 0 /\
    Shared.m_impl w2 other = Shared.m_impl w other /\
    is_Some (Shared.w_impls w2 !! Shared.m_impl w other).
Proof.
  intros Hn Hr Ht Ho Hne Hnz. pose proof (shared_reachable_wf n w Hn Hr) as Hwf.
  destruct (assign_wf n w this other Hwf Ht Ho) as (w1 & Ha & Hwf1 & Hthis & Hrest).
  rewrite decide_False in Hthis by exact Hne.
  assert (Hother : Shared.m_impl w1 other = Shared.m_impl w other).
  { apply Hrest. congruence. }
  destruct (clear_wf n w1 this Hwf1 Ht) as (w2 & Hc & Hwf2 & Hnull & Hrest2 & _).
  assert (Hother2 : Shared.m_impl w2 other = Shared.m_impl w other).
  { rewrite Hrest2 by congruence. exact Hother. }
  exists w1, w2.
  split; [exact Ha|]. split; [exact Hthis|].
  split; [unfold Shared.getUsersCount; now rewrite Hthis, Hother|].
  split; [exact Hc|]. split; [exact Hnull|]. split; [exact Hother2|].
  destruct (wf_live n w2 other Hwf2 Ho) as (Hlive & _).
  { now rewrite Hother2. }
  rewrite Hother2 in Hlive. eauto.
Qed.

Lemma copies_share_until_last_clear_witness :
  exists w1 w2,
    Shared.assign world_1 1 0 = Ok w1 /\ Shared.m_impl w1 1 = 4096 /\
    Shared.clear w1 1 = Ok w2 /\ is_Some (Shared.w_impls w2 !! 4096).
Proof.
  destruct (copies_share_until_last_clear 2 world_1 1 0)
    as (w1 & w2 & H1 & H2 & _ & H3 & _ & _ & H4).
  - vm_compute. discriminate.
  - apply (Shared.reach_step 2 world_0); [apply Shared.reach_init|].
    apply (Shared.step_create world_0 0%nat 4096 8192 Stack.NONE world_1);
      [simpl; lia|reflexivity|reflexivity].
  - lia.
  - lia.
  - lia.
  - vm_compute. discriminate.
  - exists w1, w2. split; [exact H1|]. split; [exact H2|].
    split; [exact H3|exact H4].
Defined.

End SharedFacts.
